(** * Calculator-LPC1768: the expression engine of [logic.c]

    A shallow embedding of the calculator's core (error state, token buffer,
    number parser, two-stack precedence evaluator and the key-driven session
    loop of [RunCalculatorLogic]) together with the properties of its
    specification.

    Conventions of the embedding.
    - C [float] is IEEE-754 binary32; it is modelled by [spec_float] with
      precision 24 and exponent bound 128, every operation rounding to
      nearest-even as the target's arithmetic does.
    - C [int] variables are [Z]; every value that occurs stays far inside the
      32-bit range (indices are bounded by the array sizes 50, 32 and 17).
    - [char] is [ascii]; C strings are [string] (the text before the NUL).
    - the global arrays [expr_type] and [expr_data] are lists of length
      [MAX_TOKENS], written with stdpp's list insert and read by index.
    - the globals of [logic.c] are the fields of [state]; every function is a
      state transformer [state -> A * state].
    - the calls into the display driver ([lcdchar], [lcdstring]) are recorded
      as a trace of events; [delay] has no effect on the state. *)

From Stdlib Require Import ZArith List String Ascii Bool Lia QArith Qabs.
From Stdlib Require Import Floats.SpecFloat.
From stdpp Require Import base list.
Import ListNotations.

Local Open Scope Z_scope.

(** ** Binary32 arithmetic *)

Module F32.

Definition prec : Z := 24.
Definition emax : Z := 128.

Definition float := spec_float.

Definition add : float -> float -> float := SFadd prec emax.
Definition sub : float -> float -> float := SFsub prec emax.
Definition mul : float -> float -> float := SFmul prec emax.
Definition div : float -> float -> float := SFdiv prec emax.
Definition neg : float -> float := SFopp.
Definition fabsf : float -> float := SFabs.
Definition ltb : float -> float -> bool := SFltb.

(** Conversion of a C [int] to [float]. *)
Definition of_Z (z : Z) : float := binary_normalize prec emax z 0 false.

(** Conversion of a [float] to an integer type truncates toward zero.  The
    conversion of an infinity or a NaN is undefined in C; the model gives 0. *)
Definition to_Z (f : float) : Z :=
  match f with
  | S754_finite s m e =>
      let a := match e with
               | Z0 => Zpos m
               | Zpos p => Zpos m * 2 ^ Zpos p
               | Zneg p => Zpos m / 2 ^ Zpos p
               end in
      if s then - a else a
  | _ => 0
  end.

(** The exact rational value of a finite float. *)
Definition to_Q (f : float) : option Q :=
  match f with
  | S754_zero _ => Some (0 # 1)
  | S754_finite s m e =>
      let sm := if s then Zneg m else Zpos m in
      Some (match e with
            | Z0 => sm # 1
            | Zpos p => (sm * 2 ^ Zpos p) # 1
            | Zneg p => sm # (2 ^ p)%positive
            end)
  | _ => None
  end.

(** [within f x tol]: [f] is finite and [|f - x| <= tol]. *)
Definition within (f : float) (x tol : Q) : Prop :=
  match to_Q f with
  | Some q => (Qabs (q - x) <= tol)%Q
  | None => False
  end.

Definition zero : float := S754_zero false.          (* 0.0f *)
Definition ten : float := of_Z 10.                   (* 10.0f *)
(** [0.1f]: the binary32 number nearest to one tenth, 0x3DCCCCCD. *)
Definition tenth : float := S754_finite false 13421773 (-27).
(** [1e-7f]: the binary32 number nearest to 10^-7, 0x33D6BF95. *)
Definition FLOAT_EPSILON : float := S754_finite false 14073749 (-47).

End F32.

Abbreviation float := F32.float.

(** ** Constants of [logic.h] and [logic.c] *)

Definition MAX_TOKENS : Z := 50.
Definition ERROR_MSG_LEN : Z := 17.
Definition LCD_LINE_LEN : Z := 16.
Definition MAX_DISPLAY_STR : Z := 32.

Definition LCD_CMD_CLEAR_DISPLAY : Z := 1.
Definition LCD_CMD_CURSOR_LINE_2 : Z := 192.

Definition KEY_0 : Z := 0.
Definition KEY_9 : Z := 9.
Definition KEY_PLUS : Z := 10.
Definition KEY_MINUS : Z := 11.
Definition KEY_MULTIPLY : Z := 12.
Definition KEY_DIVIDE : Z := 13.
Definition KEY_EQUALS : Z := 14.
Definition KEY_DECIMAL : Z := 15.
Definition KEY_NONE : Z := 255.

(** The six messages passed to [set_error]. *)
Definition Err_Syntax : string := "Err: Syntax".
Definition Err_Div_Zero : string := "Err: Div Zero".
Definition Err_Expr_Long : string := "Err: Expr Long".
Definition Err_Num_Len : string := "Err: Num Len".
Definition Err_Stack : string := "Err: Stack".
Definition Err_Display : string := "Err: Display".

(** ** Characters, strings and arrays *)

Definition char_code (c : ascii) : Z := Z.of_N (N_of_ascii c).
Definition char_of_code (z : Z) : ascii := ascii_of_N (Z.to_N (z mod 256)).

(** [(float)op_char] and [(char)expr_data[i]]. *)
Definition float_of_char (c : ascii) : float := F32.of_Z (char_code c).
Definition char_of_float (f : float) : ascii := char_of_code (F32.to_Z f).

Definition strlen (s : string) : Z := Z.of_nat (String.length s).

(** [s[i]]; the byte after the text of a C string is the NUL. *)
Definition str_at (s : string) (i : Z) : ascii :=
  match String.get (Z.to_nat i) s with
  | Some c => c
  | None => zero
  end.

(** [strncpy(dst, src, n); dst[n] = 0] into a zeroed buffer: at most [n]
    characters of [src]. *)
Definition strncpy (n : Z) (src : string) : string :=
  String.substring 0 (Z.to_nat n) src.

(** [s[i] = c; s[i + 1] = 0]: the text becomes the first [i] characters
    followed by [c]. *)
Definition str_put (s : string) (i : Z) (c : ascii) : string :=
  String.append (String.substring 0 (Z.to_nat i) s) (String c EmptyString).

(** [a[i]] for an array held as a list ([d] stands for a cell outside it). *)
Definition arr_get {A : Type} (d : A) (a : list A) (i : Z) : A :=
  default d (a !! Z.to_nat i).

(** [a[i] = x]. *)
Definition arr_set {A : Type} (a : list A) (i : Z) (x : A) : list A :=
  <[Z.to_nat i := x]> a.

(** ** The display driver, seen as a trace *)

Inductive lcd_event : Type :=
| LcdCommand (cmd : Z)          (* lcdchar(cmd, 'C') *)
| LcdString (s : string).       (* lcdstring(s) *)

(** ** Global state of [logic.c] *)

Record state : Type := mkState {
  calculator_error : bool;
  error_message : string;
  expr_type : list ascii;
  expr_data : list float;
  expr_len : Z;
  expression_str : string;
  expression_index : Z;
  current_num_str : string;
  current_num_index : Z;
  lcd : list lcd_event
}.

Definition with_error (b : bool) (m : string) (st : state) : state :=
  mkState b m (expr_type st) (expr_data st) (expr_len st)
    (expression_str st) (expression_index st)
    (current_num_str st) (current_num_index st) (lcd st).

Definition with_expr (ty : list ascii) (da : list float) (n : Z) (st : state) : state :=
  mkState (calculator_error st) (error_message st) ty da n
    (expression_str st) (expression_index st)
    (current_num_str st) (current_num_index st) (lcd st).

Definition with_history (s : string) (n : Z) (st : state) : state :=
  mkState (calculator_error st) (error_message st)
    (expr_type st) (expr_data st) (expr_len st) s n
    (current_num_str st) (current_num_index st) (lcd st).

Definition with_current (s : string) (n : Z) (st : state) : state :=
  mkState (calculator_error st) (error_message st)
    (expr_type st) (expr_data st) (expr_len st)
    (expression_str st) (expression_index st) s n (lcd st).

Definition emit (es : list lcd_event) (st : state) : state :=
  mkState (calculator_error st) (error_message st)
    (expr_type st) (expr_data st) (expr_len st)
    (expression_str st) (expression_index st)
    (current_num_str st) (current_num_index st) (lcd st ++ es).

(** ** Error state *)

Definition set_error (message : string) (st : state) : state :=
  if calculator_error st then st
  else with_error true (strncpy (ERROR_MSG_LEN - 1) message) st.

Definition clear_all_state (st : state) : state :=
  mkState false EmptyString (expr_type st) (expr_data st) 0
    EmptyString 0 EmptyString 0 (lcd st).

(** ** Display of the input lines *)

Definition update_lcd_display_content (st : state) : state :=
  let line1 :=
    if 0 <? expression_index st then
      let start_pos :=
        if LCD_LINE_LEN <? expression_index st
        then expression_index st - LCD_LINE_LEN else 0 in
      String.substring (Z.to_nat start_pos) (Z.to_nat LCD_LINE_LEN)
        (expression_str st)
    else EmptyString in
  let line2 :=
    if 0 <? current_num_index st
    then strncpy LCD_LINE_LEN (current_num_str st)
    else EmptyString in
  emit [LcdCommand LCD_CMD_CLEAR_DISPLAY; LcdString line1;
        LcdCommand LCD_CMD_CURSOR_LINE_2; LcdString line2] st.

Definition add_to_expression_string (str_to_add : string) (st : state) : state :=
  let len_to_add := strlen str_to_add in
  if expression_index st + len_to_add <? MAX_DISPLAY_STR - 1 then
    with_history (String.append (expression_str st) str_to_add)
      (expression_index st + len_to_add) st
  else st.

(** ** Token buffer *)

Definition push_operand_to_expr (num : float) (st : state) : state :=
  if calculator_error st then st
  else if MAX_TOKENS <=? expr_len st then set_error Err_Expr_Long st
  else
    with_expr (arr_set (expr_type st) (expr_len st) "N"%char)
      (arr_set (expr_data st) (expr_len st) num)
      (expr_len st + 1) st.

Definition push_operator_to_expr (op_char : ascii) (st : state) : state :=
  if calculator_error st then st
  else if MAX_TOKENS <=? expr_len st then set_error Err_Expr_Long st
  else
    let st1 :=
      with_expr (arr_set (expr_type st) (expr_len st) "O"%char)
        (arr_set (expr_data st) (expr_len st) (float_of_char op_char))
        (expr_len st + 1) st in
    add_to_expression_string (String op_char EmptyString) st1.

(** ** Precedence evaluator *)

Definition get_precedence (op : ascii) : Z :=
  if (Ascii.eqb op "+" || Ascii.eqb op "-")%bool then 1
  else if (Ascii.eqb op "*" || Ascii.eqb op "/")%bool then 2
  else 0.

Definition execute_apply_operator (op : ascii) (a b : float) (st : state)
  : float * state :=
  if calculator_error st then (F32.zero, st)
  else if Ascii.eqb op "+" then (F32.add a b, st)
  else if Ascii.eqb op "-" then (F32.sub a b, st)
  else if Ascii.eqb op "*" then (F32.mul a b, st)
  else if Ascii.eqb op "/" then
    if F32.ltb (F32.fabsf b) F32.FLOAT_EPSILON
    then (F32.zero, set_error Err_Div_Zero st)
    else (F32.div a b, st)
  else (F32.zero, set_error Err_Syntax st).

(** A loop of [evaluate_full_expression] either leaves the function through
    a [return] or falls through with its local variables. *)
Inductive flow (A : Type) : Type :=
| Return (v : float)
| Next (a : A).
Arguments Return {A} v.
Arguments Next {A} a.

(** The local arrays [val_stack] and [op_stack] are stacks: the list holds
    the cells [0 .. top], the cell at index [top] first.  [val_top] and
    [op_top] are one less than its length. *)
Definition top_index {A : Type} (stack : list A) : Z :=
  Z.of_nat (length stack) - 1.

(** One pass of the body shared by the two [while] loops: pop an operator
    and two values, push the result ([val_top < 1] is: fewer than two
    values). *)
Definition apply_top (op_to_apply : ascii) (vals : list float) (st : state)
  : flow (list float) * state :=
  match vals with
  | b_val :: a_val :: rest =>
      let (r, st1) := execute_apply_operator op_to_apply a_val b_val st in
      if calculator_error st1 then (Return F32.zero, st1)
      else (Next (r :: rest), st1)
  | _ => (Return F32.zero, set_error Err_Syntax st)
  end.

(** [while (op_top >= 0 && get_precedence(op_stack[op_top]) >=
    get_precedence(current_op_char))]; every pass pops one operator. *)
Fixpoint reduce_while (current_op_char : ascii)
    (vals : list float) (ops : list ascii) (st : state)
  : flow (list float * list ascii) * state :=
  match ops with
  | [] => (Next (vals, ops), st)
  | op_to_apply :: ops' =>
      if get_precedence current_op_char <=? get_precedence op_to_apply then
        match apply_top op_to_apply vals st with
        | (Return v, st1) => (Return v, st1)
        | (Next vals1, st1) => reduce_while current_op_char vals1 ops' st1
        end
      else (Next (vals, ops), st)
  end.

(** [for (i = ...; i < expr_len; i++)], with [n] iterations left. *)
Fixpoint token_loop (n : nat) (i : Z)
    (vals : list float) (ops : list ascii) (st : state)
  : flow (list float * list ascii) * state :=
  match n with
  | O => (Next (vals, ops), st)
  | S n' =>
      if Ascii.eqb (arr_get zero (expr_type st) i) "N" then
        if MAX_TOKENS - 1 <=? top_index vals
        then (Return F32.zero, set_error Err_Stack st)
        else token_loop n' (i + 1)
               (arr_get F32.zero (expr_data st) i :: vals) ops st
      else
        let current_op_char := char_of_float (arr_get F32.zero (expr_data st) i) in
        match reduce_while current_op_char vals ops st with
        | (Return v, st1) => (Return v, st1)
        | (Next (vals1, ops1), st1) =>
            if MAX_TOKENS - 1 <=? top_index ops1
            then (Return F32.zero, set_error Err_Stack st1)
            else token_loop n' (i + 1) vals1 (current_op_char :: ops1) st1
        end
  end.

(** [while (op_top >= 0)]: apply what is left on the operator stack. *)
Fixpoint drain (vals : list float) (ops : list ascii) (st : state)
  : flow (list float) * state :=
  match ops with
  | [] => (Next vals, st)
  | op_to_apply :: ops' =>
      match apply_top op_to_apply vals st with
      | (Return v, st1) => (Return v, st1)
      | (Next vals1, st1) => drain vals1 ops' st1
      end
  end.

Definition evaluate_full_expression (st : state) : float * state :=
  if calculator_error st then (F32.zero, st)
  else if expr_len st =? 0 then (F32.zero, st)
  else if ((0 <? expr_len st)
           && Ascii.eqb (arr_get zero (expr_type st) (expr_len st - 1)) "O")%bool
  then (F32.zero, set_error Err_Syntax st)
  else if ((expr_len st =? 1)
           && Ascii.eqb (arr_get zero (expr_type st) 0) "N")%bool
  then (arr_get F32.zero (expr_data st) 0, st)
  else
    match token_loop (Z.to_nat (expr_len st)) 0 [] [] st with
    | (Return v, st1) => (v, st1)
    | (Next (vals, ops), st1) =>
        match drain vals ops st1 with
        | (Return v, st2) => (v, st2)
        | (Next vals', st2) =>
            match vals' with
            | [v] => (v, st2)                     (* val_top == 0 *)
            | _ => (F32.zero, set_error Err_Syntax st2)
            end
        end
    end.

(** ** Number parser *)

(** The scanning loop of [parse_current_input_number], with [n] iterations
    left; the locals are [result], [decimal_multiplier] and
    [in_decimal_part]. *)
Fixpoint scan_digits (n : nat) (i : Z)
    (result decimal_multiplier : float) (in_decimal_part : bool) (st : state)
  : flow float * state :=
  match n with
  | O => (Next result, st)
  | S n' =>
      let c := str_at (current_num_str st) i in
      if Ascii.eqb c "." then
        if in_decimal_part then (Return F32.zero, set_error Err_Syntax st)
        else scan_digits n' (i + 1) result decimal_multiplier true st
      else if ((char_code "0" <=? char_code c)
               && (char_code c <=? char_code "9"))%bool then
        let digit := char_code c - char_code "0" in
        if negb in_decimal_part then
          scan_digits n' (i + 1)
            (F32.add (F32.mul result F32.ten) (F32.of_Z digit))
            decimal_multiplier in_decimal_part st
        else
          scan_digits n' (i + 1)
            (F32.add result (F32.mul (F32.of_Z digit) decimal_multiplier))
            (F32.mul decimal_multiplier F32.tenth) in_decimal_part st
      else (Return F32.zero, set_error Err_Syntax st)
  end.

Definition parse_current_input_number (st : state) : float * state :=
  if current_num_index st =? 0 then (F32.zero, st)
  else if ((current_num_index st =? 1)
           && Ascii.eqb (str_at (current_num_str st) 0) "-")%bool
  then (F32.zero, set_error Err_Syntax st)
  else if ((current_num_index st =? 1)
           && Ascii.eqb (str_at (current_num_str st) 0) ".")%bool
  then (F32.zero, set_error Err_Syntax st)
  else
    let is_negative_num := Ascii.eqb (str_at (current_num_str st) 0) "-" in
    let start_idx := if is_negative_num then 1 else 0 in
    match scan_digits (Z.to_nat (current_num_index st - start_idx)) start_idx
            F32.zero F32.tenth false st with
    | (Return v, st1) => (v, st1)
    | (Next result, st1) =>
        (if is_negative_num then F32.neg result else result, st1)
    end.

(** ** The session loop *)

(** The local variables of [RunCalculatorLogic] next to the globals. *)
Record session : Type := mkSession {
  globals : state;
  calculation_has_ended : bool;
  decimal_point_entered : bool;
  last_key_was_operator : bool
}.

Definition on_globals (f : state -> state) (s : session) : session :=
  mkSession (f (globals s)) (calculation_has_ended s)
    (decimal_point_entered s) (last_key_was_operator s).

Definition set_ended (b : bool) (s : session) : session :=
  mkSession (globals s) b (decimal_point_entered s) (last_key_was_operator s).

Definition set_decimal (b : bool) (s : session) : session :=
  mkSession (globals s) (calculation_has_ended s) b (last_key_was_operator s).

Definition set_last_op (b : bool) (s : session) : session :=
  mkSession (globals s) (calculation_has_ended s) (decimal_point_entered s) b.

(** Clear the display, write [line] on the first line and nothing on the
    second. *)
Definition show_line (line : string) (st : state) : state :=
  emit [LcdCommand LCD_CMD_CLEAR_DISPLAY; LcdString line;
        LcdCommand LCD_CMD_CURSOR_LINE_2; LcdString EmptyString] st.

(** [current_num_index = 0; memset(current_num_str, 0, ...)]. *)
Definition reset_current (st : state) : state := with_current EmptyString 0 st.

(** [current_num_str[current_num_index++] = c; current_num_str[current_num_index] = 0]. *)
Definition append_current (c : ascii) (st : state) : state :=
  with_current (str_put (current_num_str st) (current_num_index st) c)
    (current_num_index st + 1) st.

(** Removal of the trailing zeros of a ["%f"] text: from the end of the
    buffer back to the first ['.'], then the ['.'] itself when it has become
    the last character. *)
Fixpoint drop_zeros (rev_suffix : list ascii) : list ascii :=
  match rev_suffix with
  | c :: rest => if Ascii.eqb c "0" then drop_zeros rest else rev_suffix
  | [] => []
  end.

Fixpoint split_at_dot (cs : list ascii) : option (list ascii * list ascii) :=
  match cs with
  | [] => None
  | c :: rest =>
      if Ascii.eqb c "." then Some ([], rest)
      else match split_at_dot rest with
           | Some (pre, suf) => Some (c :: pre, suf)
           | None => None
           end
  end.

Definition trim_fraction (buf : string) : string :=
  match split_at_dot (list_ascii_of_string buf) with
  | None => buf
  | Some (pre, suf) =>
      match drop_zeros (rev suf) with
      | [] => string_of_list_ascii pre
      | c :: rest =>
          if Ascii.eqb c "."
          then string_of_list_ascii (pre ++ "."%char :: rev rest)
          else string_of_list_ascii (pre ++ "."%char :: rev (c :: rest))
      end
  end.

Section SessionLoop.

(** The C library is outside the repository: [roundf], and the text that
    [printf] produces for a [float] under ["%.0f"], ["%f"] and ["%.3e"]. *)
Variable roundf : float -> float.
Variables printf_f0 printf_f printf_e3 : float -> string.

(** [snprintf(result_str_buf, sizeof(result_str_buf), ...)] keeps at most
    [LCD_LINE_LEN] characters. *)
Definition snprintf (text : string) : string := strncpy LCD_LINE_LEN text.

(** The result branch of the [=] key: format and show [final_result]. *)
Definition display_result (final_result : float) (st : state) : state :=
  let buf0 :=
    if F32.ltb (F32.fabsf (F32.sub final_result (roundf final_result)))
         F32.FLOAT_EPSILON
    then snprintf (printf_f0 final_result)
    else trim_fraction (snprintf (printf_f final_result)) in
  let buf1 :=
    if LCD_LINE_LEN <? strlen buf0
    then snprintf (printf_e3 final_result) else buf0 in
  if LCD_LINE_LEN <? strlen buf1 then
    let st1 := set_error Err_Display st in
    emit [LcdString (error_message st1)] st1
  else emit [LcdString buf1] st.

Definition digit_key (current_key : Z) (s : session) : session :=
  if current_num_index (globals s) <? LCD_LINE_LEN then
    set_last_op false
      (on_globals (append_current (char_of_code (char_code "0" + current_key))) s)
  else on_globals (set_error Err_Num_Len) s.

Definition decimal_key (s : session) : session :=
  if (negb (decimal_point_entered s)
      && (current_num_index (globals s) <? LCD_LINE_LEN - 1))%bool then
    let s1 :=
      if current_num_index (globals s) =? 0
      then on_globals (append_current "0") s else s in
    set_last_op false (set_decimal true (on_globals (append_current ".") s1))
  else if decimal_point_entered s then on_globals (set_error Err_Syntax) s
  else on_globals (set_error Err_Num_Len) s.

Definition op_char_map : list ascii := ["+"; "-"; "*"; "/"]%char.

Definition operator_key (current_key : Z) (s : session) : session :=
  let selected_op_char := arr_get zero op_char_map (current_key - KEY_PLUS) in
  let g := globals s in
  if (Ascii.eqb selected_op_char "-"
      && ((expr_len g =? 0) || last_key_was_operator s)
      && (current_num_index g =? 0))%bool then
    if current_num_index g <? LCD_LINE_LEN then
      set_last_op false (on_globals (append_current "-") s)
    else on_globals (set_error Err_Num_Len) s
  else
    let s1 :=
      if 0 <? current_num_index g then
        let (num, g1) := parse_current_input_number g in
        let g2 :=
          if negb (calculator_error g1)
          then add_to_expression_string (current_num_str g1)
                 (push_operand_to_expr num g1)
          else g1 in
        set_decimal false (on_globals (fun _ => reset_current g2) s)
      else if ((expr_len g =? 0)
               || (Ascii.eqb (arr_get zero (expr_type g) (expr_len g - 1)) "O"
                   && negb (last_key_was_operator s)))%bool then
        if negb (Ascii.eqb selected_op_char "+")
        then on_globals (set_error Err_Syntax) s else s
      else s in
    if negb (calculator_error (globals s1)) then
      set_last_op true (on_globals (push_operator_to_expr selected_op_char) s1)
    else s1.

Definition equals_key (s : session) : session :=
  let g := globals s in
  let g1 :=
    if ((0 <? current_num_index g) && negb (calculator_error g))%bool then
      let (num, ga) := parse_current_input_number g in
      if negb (calculator_error ga)
      then add_to_expression_string (current_num_str ga)
             (push_operand_to_expr num ga)
      else ga
    else g in
  let g2 :=
    if ((current_num_index g1 =? 0) && (0 <? expr_len g1)
        && Ascii.eqb (arr_get zero (expr_type g1) (expr_len g1 - 1)) "O"
        && negb (calculator_error g1))%bool
    then set_error Err_Syntax g1 else g1 in
  let (final_result, g3) :=
    if negb (calculator_error g2) then evaluate_full_expression g2
    else (F32.zero, g2) in
  let g4 := emit [LcdCommand LCD_CMD_CLEAR_DISPLAY] g3 in
  let g5 :=
    if calculator_error g4 then emit [LcdString (error_message g4)] g4
    else display_result final_result g4 in
  let g6 := emit [LcdCommand LCD_CMD_CURSOR_LINE_2; LcdString EmptyString] g5 in
  mkSession (reset_current g6) true false (last_key_was_operator s).

(** The chain of [if]s on the key code. *)
Definition process_key (current_key : Z) (s : session) : session :=
  if ((KEY_0 <=? current_key) && (current_key <=? KEY_9))%bool
  then digit_key current_key s
  else if current_key =? KEY_DECIMAL then decimal_key s
  else if ((KEY_PLUS <=? current_key) && (current_key <=? KEY_DIVIDE))%bool
  then operator_key current_key s
  else if current_key =? KEY_EQUALS then equals_key s
  else s.

(** "After processing a key": the end of the loop body. *)
Definition after_key (s : session) : session :=
  if negb (calculation_has_ended s) then
    if calculator_error (globals s)
    then set_ended true (on_globals (fun g => show_line (error_message g) g) s)
    else on_globals update_lcd_display_content s
  else s.

(** From "State 2" to the end of the loop body. *)
Definition input_states (current_key : Z) (s : session) : session :=
  if (calculator_error (globals s) && negb (calculation_has_ended s))%bool then
    if current_key =? KEY_NONE then s
    else set_ended true (on_globals (fun g => show_line (error_message g) g) s)
  else if current_key =? KEY_NONE then s
  else after_key (process_key current_key s).

(** One iteration of [while (true)], for the key that [GetKeyPressed]
    returned. *)
Definition loop_iteration (current_key : Z) (s : session) : session :=
  if calculation_has_ended s then
    if negb (current_key =? KEY_NONE) then
      let error_was_being_displayed := calculator_error (globals s) in
      let s1 := mkSession (clear_all_state (globals s)) false false false in
      if ((current_key =? KEY_EQUALS) && error_was_being_displayed)%bool
      then on_globals update_lcd_display_content s1
      else input_states current_key s1
    else s
  else input_states current_key s.

(** What precedes the loop. *)
Definition startup (st : state) : session :=
  let st1 := clear_all_state st in
  let st2 :=
    emit [LcdCommand LCD_CMD_CLEAR_DISPLAY; LcdString "Calculator Ready";
          LcdCommand LCD_CMD_CURSOR_LINE_2; LcdString "Enter Expression"] st1 in
  mkSession (update_lcd_display_content st2) false false false.

(** [RunCalculatorLogic] never returns; [keys] is a finite prefix of the
    observations of [GetKeyPressed]. *)
Definition RunCalculatorLogic (keys : list Z) (st : state) : session :=
  fold_left (fun s k => loop_iteration k s) keys (startup st).

End SessionLoop.

(** The globals as the C runtime sets them up: zero-filled arrays. *)
Definition power_on : state :=
  mkState false EmptyString
    (replicate (Z.to_nat MAX_TOKENS) zero)
    (replicate (Z.to_nat MAX_TOKENS) F32.zero) 0
    EmptyString 0 EmptyString 0 [].

(** * Vocabulary of the properties *)

(** [raises st st']: [st'] is [st], or [st] after one call of [set_error]. *)
Definition raises (st st' : state) : Prop :=
  st' = st \/ exists m, st' = set_error m st.

(** [kept st st']: an error that is active in [st] is still the error of
    [st']. *)
Definition kept (st st' : state) : Prop :=
  calculator_error st = true ->
  calculator_error st' = true /\ error_message st' = error_message st.

(** The operations on a session other than the reset [clear_all_state]:
    the functions of [logic.c], and a key handled by the loop body past its
    reset branch. *)
Inductive operation : Type :=
| CallSetError (message : string)
| CallPushOperand (num : float)
| CallPushOperator (op_char : ascii)
| CallAddToExpressionString (str_to_add : string)
| CallApplyOperator (op : ascii) (a b : float)
| CallEvaluate
| CallParse
| CallUpdateDisplay
| HandleKey (current_key : Z).

Section Perform.

Variable roundf : float -> float.
Variables printf_f0 printf_f printf_e3 : float -> string.

Definition perform (o : operation) (s : session) : session :=
  match o with
  | CallSetError message => on_globals (set_error message) s
  | CallPushOperand num => on_globals (push_operand_to_expr num) s
  | CallPushOperator op_char => on_globals (push_operator_to_expr op_char) s
  | CallAddToExpressionString str => on_globals (add_to_expression_string str) s
  | CallApplyOperator op a b =>
      on_globals (fun g => snd (execute_apply_operator op a b g)) s
  | CallEvaluate => on_globals (fun g => snd (evaluate_full_expression g)) s
  | CallParse => on_globals (fun g => snd (parse_current_input_number g)) s
  | CallUpdateDisplay => on_globals update_lcd_display_content s
  | HandleKey current_key =>
      input_states roundf printf_f0 printf_f printf_e3 current_key s
  end.

Definition perform_all (os : list operation) (s : session) : session :=
  fold_left (fun s o => perform o s) os s.

End Perform.

(** The tokens of the expression: the first [expr_len] cells of the two
    arrays, side by side. *)
Definition tokens (st : state) : list (ascii * float) :=
  zip (take (Z.to_nat (expr_len st)) (expr_type st))
      (take (Z.to_nat (expr_len st)) (expr_data st)).

(** The arrays have their declared size and [expr_len] is an index into
    them. *)
Definition buffer_ok (st : state) : Prop :=
  Z.of_nat (length (expr_type st)) = MAX_TOKENS /\
  Z.of_nat (length (expr_data st)) = MAX_TOKENS /\
  0 <= expr_len st <= MAX_TOKENS.

Inductive push : Type :=
| PushNumber (num : float)
| PushOperator (op_char : ascii).

Definition do_push (p : push) (st : state) : state :=
  match p with
  | PushNumber num => push_operand_to_expr num st
  | PushOperator op_char => push_operator_to_expr op_char st
  end.

Definition do_pushes (ps : list push) (st : state) : state :=
  fold_left (fun st p => do_push p st) ps st.

Definition token_of (p : push) : ascii * float :=
  match p with
  | PushNumber num => ("N"%char, num)
  | PushOperator op_char => ("O"%char, float_of_char op_char)
  end.

(** ** Infix expressions and their value *)

Definition is_add (op : ascii) : bool := (Ascii.eqb op "+" || Ascii.eqb op "-")%bool.
Definition is_mul (op : ascii) : bool := (Ascii.eqb op "*" || Ascii.eqb op "/")%bool.

(** The result of one binary operation; [None] is the division fault. *)
Definition apply_op (op : ascii) (a b : float) : option float :=
  if Ascii.eqb op "+" then Some (F32.add a b)
  else if Ascii.eqb op "-" then Some (F32.sub a b)
  else if Ascii.eqb op "*" then Some (F32.mul a b)
  else if F32.ltb (F32.fabsf b) F32.FLOAT_EPSILON then None
  else Some (F32.div a b).

Inductive expr : Type :=
| Num (v : float)
| Bin (op : ascii) (l r : expr).

(** The value of an expression tree, every operation rounded to binary32;
    [None] when a division inside it faults. *)
Fixpoint value (e : expr) : option float :=
  match e with
  | Num v => Some v
  | Bin op l r =>
      match value l, value r with
      | Some a, Some b => apply_op op a b
      | _, _ => None
      end
  end.

(** The tokens of an expression, read from left to right. *)
Fixpoint flatten (e : expr) : list (ascii * float) :=
  match e with
  | Num v => [("N"%char, v)]
  | Bin op l r => flatten l ++ ("O"%char, float_of_char op) :: flatten r
  end.

(** The trees of the infix grammar
      term  ::= number | term ('*' | '/') number
      infix ::= term   | infix ('+' | '-') term
    that is: ['*'] and ['/'] bind tighter than ['+'] and ['-'], and operators
    of one level group from the left. *)
Inductive term : expr -> Prop :=
| term_num (v : float) : term (Num v)
| term_mul (op : ascii) (l : expr) (v : float) :
    is_mul op = true -> term l -> term (Bin op l (Num v)).

Inductive infix : expr -> Prop :=
| infix_term (t : expr) : term t -> infix t
| infix_add (op : ascii) (l t : expr) :
    is_add op = true -> infix l -> term t -> infix (Bin op l t).

(** The tree that a well-formed token sequence [first (op number)*] stands
    for: [acc] is the sum read so far with its pending additive operator,
    [t] the term being read. *)
Definition close (acc : option (expr * ascii)) (t : expr) : expr :=
  match acc with
  | None => t
  | Some (l, op) => Bin op l t
  end.

Fixpoint parse_rest (acc : option (expr * ascii)) (t : expr)
    (rest : list (ascii * float)) : expr :=
  match rest with
  | [] => close acc t
  | (op, v) :: rest' =>
      if is_mul op then parse_rest acc (Bin op t (Num v)) rest'
      else parse_rest (Some (close acc t, op)) (Num v) rest'
  end.

Definition parse_infix (first : float) (rest : list (ascii * float)) : expr :=
  parse_rest None (Num first) rest.

(** The token sequence [first (op number)*] as it sits in the buffer. *)
Definition infix_tokens (first : float) (rest : list (ascii * float))
  : list (ascii * float) :=
  ("N"%char, first)
  :: flat_map (fun '(op, v) => [("O"%char, float_of_char op); ("N"%char, v)]) rest.

Definition is_operator (op : ascii) : bool := (is_add op || is_mul op)%bool.

(** ** The token loop over a list *)

(** [token_loop] reads the buffer by index; this is the same loop over the
    list of the tokens that are left. *)
Fixpoint run_tokens (ts : list (ascii * float))
    (vals : list float) (ops : list ascii) (st : state)
  : flow (list float * list ascii) * state :=
  match ts with
  | [] => (Next (vals, ops), st)
  | (ty, da) :: ts' =>
      if Ascii.eqb ty "N" then
        if MAX_TOKENS - 1 <=? top_index vals
        then (Return F32.zero, set_error Err_Stack st)
        else run_tokens ts' (da :: vals) ops st
      else
        let current_op_char := char_of_float da in
        match reduce_while current_op_char vals ops st with
        | (Return v, st1) => (Return v, st1)
        | (Next (vals1, ops1), st1) =>
            if MAX_TOKENS - 1 <=? top_index ops1
            then (Return F32.zero, set_error Err_Stack st1)
            else run_tokens ts' vals1 (current_op_char :: ops1) st1
        end
  end.

(** The stacks after the tokens of a term, above whatever was there: the
    last operation of the term is still pending. *)
Definition term_pending (t : expr) : option (list float * list ascii) :=
  match t with
  | Num v => Some ([v], [])
  | Bin op l (Num v) =>
      match value l with
      | Some a => Some ([v; a], [op])
      | None => None
      end
  | _ => None
  end.

(** The stacks after the tokens of an infix expression. *)
Definition infix_pending (e : expr) : option (list float * list ascii) :=
  match e with
  | Bin op l t =>
      if is_add op then
        match value l, term_pending t with
        | Some a, Some (vals, ops) => Some (vals ++ [a], ops ++ [op])
        | _, _ => None
        end
      else term_pending e
  | _ => term_pending e
  end.

(** The outcome of a loop that has met a division fault or not. *)
Definition outcome {A : Type} (r : option A) (st : state) : flow A * state :=
  match r with
  | Some a => (Next a, st)
  | None => (Return F32.zero, set_error Err_Div_Zero st)
  end.

(** What a term may find below it on the operator stack: nothing, or an
    additive operator. *)
Definition base_ok (ops : list ascii) : Prop :=
  match ops with
  | [] => True
  | op :: _ => is_add op = true
  end.

(** ** Loading a buffer, as the unit tests do *)

(** [for (i = 0; i < length; ++i) { expr_type[i] = types[i]; expr_data[i] = data[i]; }] *)
Fixpoint store_tokens (i : Z) (ts : list (ascii * float))
    (ty : list ascii) (da : list float) : list ascii * list float :=
  match ts with
  | [] => (ty, da)
  | (t, d) :: ts' => store_tokens (i + 1) ts' (arr_set ty i t) (arr_set da i d)
  end.

(** [setup_expression] of [test_logic.c]: reset, then fill the buffer. *)
Definition setup_expression (ts : list (ascii * float)) (st : state) : state :=
  let st0 := clear_all_state st in
  let (ty, da) := store_tokens 0 ts (expr_type st0) (expr_data st0) in
  with_expr ty da (Z.of_nat (length ts)) st0.

(** [strcpy(current_num_str, text); current_num_index = strlen(current_num_str)],
    after the reset of [TEST_SETUP]. *)
Definition setup_input (text : string) (st : state) : state :=
  with_current text (strlen text) (clear_all_state st).

(** ** Numeric entries *)

Definition is_digit (c : ascii) : bool :=
  ((char_code "0" <=? char_code c) && (char_code c <=? char_code "9"))%bool.

Definition digit_of (c : ascii) : Z := char_code c - char_code "0".

(** The scanning loop of the parser over the characters that are left;
    [None] is the syntax fault. *)
Fixpoint scan_list (cs : list ascii)
    (result decimal_multiplier : float) (in_decimal_part : bool) : option float :=
  match cs with
  | [] => Some result
  | c :: cs' =>
      if Ascii.eqb c "." then
        if in_decimal_part then None
        else scan_list cs' result decimal_multiplier true
      else if is_digit c then
        if negb in_decimal_part then
          scan_list cs'
            (F32.add (F32.mul result F32.ten) (F32.of_Z (digit_of c)))
            decimal_multiplier in_decimal_part
        else
          scan_list cs'
            (F32.add result (F32.mul (F32.of_Z (digit_of c)) decimal_multiplier))
            (F32.mul decimal_multiplier F32.tenth) in_decimal_part
      else None
  end.

(** A leading ['-'] and what follows it. *)
Definition split_sign (cs : list ascii) : bool * list ascii :=
  match cs with
  | c :: body => if Ascii.eqb c "-" then (true, body) else (false, cs)
  | [] => (false, [])
  end.

Fixpoint count_dots (cs : list ascii) : nat :=
  match cs with
  | [] => 0
  | c :: cs' => ((if Ascii.eqb c "." then 1 else 0) + count_dots cs')%nat
  end.

(** An optional leading ['-'], then digits with at most one ['.']. *)
Definition numeric_entry (s : string) : bool :=
  let body := snd (split_sign (list_ascii_of_string s)) in
  (forallb (fun c => (is_digit c || Ascii.eqb c ".")%bool) body
   && (count_dots body <=? 1)%nat)%bool.

(** The digits before and after the ['.'] of an entry. *)
Definition integer_digits (body : list ascii) : list ascii :=
  match split_at_dot body with
  | Some (pre, _) => pre
  | None => body
  end.

Definition fraction_digits (body : list ascii) : list ascii :=
  match split_at_dot body with
  | Some (_, suf) => suf
  | None => []
  end.

(** The value of an entry as the specification words it: the integer digits
    accumulate as [acc * 10 + digit]; after the ['.'] each digit adds
    [digit * multiplier], the multiplier starting at 0.1 and multiplied by
    0.1 per digit; the result is negated under a leading ['-'].  All
    operations are binary32. *)
Definition accumulate_integer (digits : list ascii) : float :=
  fold_left (fun acc c => F32.add (F32.mul acc F32.ten) (F32.of_Z (digit_of c)))
    digits F32.zero.

Definition accumulate_fraction (digits : list ascii) (acc : float) : float :=
  fst (fold_left
         (fun '(v, multiplier) c =>
            (F32.add v (F32.mul (F32.of_Z (digit_of c)) multiplier),
             F32.mul multiplier F32.tenth))
         digits (acc, F32.tenth)).

Definition decimal_value (s : string) : float :=
  let (negative, body) := split_sign (list_ascii_of_string s) in
  let v := accumulate_fraction (fraction_digits body)
             (accumulate_integer (integer_digits body)) in
  if negative then F32.neg v else v.

(** The number that the entry denotes: integer digits, then fraction digits
    over the matching power of ten. *)
Definition digits_value (digits : list ascii) : Z :=
  fold_left (fun acc c => acc * 10 + digit_of c) digits 0.

Definition exact_value (s : string) : Q :=
  let (negative, body) := split_sign (list_ascii_of_string s) in
  let frac := fraction_digits body in
  let q := Qplus (inject_Z (digits_value (integer_digits body)))
             (Qmake (digits_value frac) (Z.to_pos (10 ^ Z.of_nat (length frac)))) in
  if negative then Qopp q else q.

(** The parser over the text of the pending entry; [None] is the syntax
    fault. *)
Definition parse_chars (cs : list ascii) : option float :=
  match cs with
  | [] => Some F32.zero
  | [c] =>
      if (Ascii.eqb c "-" || Ascii.eqb c ".")%bool then None
      else scan_list cs F32.zero F32.tenth false
  | _ =>
      let (negative, body) := split_sign cs in
      match scan_list body F32.zero F32.tenth false with
      | Some v => Some (if negative then F32.neg v else v)
      | None => None
      end
  end.

(** A character that no entry may hold. *)
Definition foreign (c : ascii) : Prop :=
  is_digit c = false /\ c <> "."%char /\ c <> "-"%char.

(** The pending entry holds [text] and its index is the length of it. *)
Definition holds (st : state) (text : string) : Prop :=
  current_num_str st = text /\ current_num_index st = strlen text.

(** The fraction loop from an accumulator and a multiplier. *)
Definition fraction_step (vm : float * float) (c : ascii) : float * float :=
  let (v, multiplier) := vm in
  (F32.add v (F32.mul (F32.of_Z (digit_of c)) multiplier),
   F32.mul multiplier F32.tenth).

Definition integer_step (acc : float) (c : ascii) : float :=
  F32.add (F32.mul acc F32.ten) (F32.of_Z (digit_of c)).

(** ** Sessions *)

(** Stand-ins for the C library in runs that never format a result. *)
Definition no_roundf : float -> float := fun x => x.
Definition no_printf : float -> string := fun _ => EmptyString.

(** One loop iteration and a whole run with the stand-ins. *)
Definition press (current_key : Z) (s : session) : session :=
  loop_iteration no_roundf no_printf no_printf no_printf current_key s.

(** The session when the loop is entered for the first time. *)
Definition ready : session := startup power_on.

(** What the display driver receives when an error message is shown. *)
Definition error_shown (message : string) : list lcd_event :=
  [LcdCommand LCD_CMD_CLEAR_DISPLAY; LcdString message;
   LcdCommand LCD_CMD_CURSOR_LINE_2; LcdString EmptyString].

(** The input phase: nothing is being shown and no error is active. *)
Definition entering (s : session) : Prop :=
  calculation_has_ended s = false /\ calculator_error (globals s) = false.

(** An active error is on the display: the loop is in its error state. *)
Definition surfaced (s : session) : Prop :=
  calculator_error (globals s) = true ->
  calculation_has_ended s = true /\
  exists before,
    lcd (globals s) = before ++ error_shown (error_message (globals s)).

(** The operator of an operator key. *)
Definition operator_of_key (current_key : Z) : ascii :=
  arr_get zero op_char_map (current_key - KEY_PLUS).

(** * Vocabulary of the further properties *)

(** ** The evaluator on arbitrary buffers *)

(** The tokens that the evaluator treats as numbers, and the others. *)
Definition count_numbers (ts : list (ascii * float)) : Z :=
  Z.of_nat (length (List.filter (fun t => Ascii.eqb (fst t) "N") ts)).

Definition count_others (ts : list (ascii * float)) : Z :=
  Z.of_nat (length (List.filter (fun t => negb (Ascii.eqb (fst t) "N")) ts)).

(** The height of the value stack above that of the operator stack. *)
Definition surplus (vals : list float) (ops : list ascii) : Z :=
  Z.of_nat (length vals) - Z.of_nat (length ops).

(** ** Texts *)

Definition text_of (cs : list ascii) : string := string_of_list_ascii cs.

(** A run of the character ['0']. *)
Definition zeros (k : nat) : list ascii := repeat "0"%char k.

(** ** The buffers of a session *)

(** The pending entry is a C string of at most [LCD_LINE_LEN] characters in
    its 17 bytes, and [current_num_index] is its length. *)
Definition pending_ok (st : state) : Prop :=
  current_num_index st = strlen (current_num_str st) /\
  current_num_index st <= LCD_LINE_LEN.

(** The history is a C string that leaves the last two of its
    [MAX_DISPLAY_STR] bytes free, and [expression_index] is its length. *)
Definition history_ok (st : state) : Prop :=
  expression_index st = strlen (expression_str st) /\
  expression_index st < MAX_DISPLAY_STR - 1.

(** No error and no message, or one of the four input and evaluation
    errors. *)
Definition error_ok (st : state) : Prop :=
  (calculator_error st = false /\ error_message st = EmptyString) \/
  (calculator_error st = true /\
   (error_message st = Err_Syntax \/ error_message st = Err_Div_Zero \/
    error_message st = Err_Expr_Long \/ error_message st = Err_Num_Len)).

Definition state_ok (st : state) : Prop :=
  buffer_ok st /\ pending_ok st /\ history_ok st /\ error_ok st.

(** The messages that the input keys and the evaluator pass to
    [set_error]. *)
Definition input_error (m : string) : Prop :=
  m = Err_Syntax \/ m = Err_Div_Zero \/ m = Err_Expr_Long \/ m = Err_Num_Len.

(** ** Typing an expression *)

(** The character that a digit key appends: ['0' + current_key]. *)
Definition digit_char (d : Z) : ascii := char_of_code (char_code "0" + d).

(** The text typed by a sequence of digit keys. *)
Definition typed (ds : list Z) : string := text_of (List.map digit_char ds).

Definition digit_keys (ds : list Z) : Prop :=
  ds <> [] /\ Forall (fun d => KEY_0 <= d <= KEY_9) ds /\
  Z.of_nat (length ds) <= LCD_LINE_LEN.

(** The keys of [digits (operator digits)* =]. *)
Definition expression_keys (first : list Z) (rest : list (Z * list Z)) : list Z :=
  first ++ flat_map (fun '(k, ds) => k :: ds) rest ++ [KEY_EQUALS].

(** The operands and operators that the keys denote. *)
Definition typed_rest (rest : list (Z * list Z)) : list (ascii * float) :=
  List.map (fun '(k, ds) => (operator_of_key k, decimal_value (typed ds))) rest.

(** What a session has changed in the globals while digits were typed:
    only the pending entry. *)
Definition extends (g g' : state) (text : string) : Prop :=
  calculator_error g' = calculator_error g /\
  error_message g' = error_message g /\
  expr_type g' = expr_type g /\ expr_data g' = expr_data g /\
  expr_len g' = expr_len g /\
  expression_str g' = expression_str g /\
  expression_index g' = expression_index g /\
  current_num_str g' = String.append (current_num_str g) text /\
  current_num_index g' = current_num_index g + strlen text.

Section ResultText.

Variable roundf : float -> float.
Variables printf_f0 printf_f printf_e3 : float -> string.

(** The text that the [=] key shows for a result. *)
Definition result_text (final_result : float) : string :=
  if F32.ltb (F32.fabsf (F32.sub final_result (roundf final_result)))
       F32.FLOAT_EPSILON
  then snprintf (printf_f0 final_result)
  else trim_fraction (snprintf (printf_f final_result)).

(** What the display driver receives when a result is shown. *)
Definition result_shown (final_result : float) : list lcd_event :=
  [LcdCommand LCD_CMD_CLEAR_DISPLAY; LcdString (result_text final_result);
   LcdCommand LCD_CMD_CURSOR_LINE_2; LcdString EmptyString].

End ResultText.

(** The session after the reset that a key triggers when a result or an
    error is being shown. *)
Definition cleared (s : session) : session :=
  mkSession (clear_all_state (globals s)) false false false.

(** The key observations that are key presses. *)
Definition pressed (keys : list Z) : list Z :=
  List.filter (fun k => negb (k =? KEY_NONE)) keys.

(** * The keypad of [keypad.c] *)

(** [keyCodes[4][4]]. *)
Definition keyCodes : list (list Z) :=
  [[1; 2; 3; 4]; [5; 6; 7; 8]; [9; 0; 10; 11]; [12; 13; 14; 15]].

Definition key_code (row col : Z) : Z := arr_get 0 (arr_get [] keyCodes row) col.

(** [ReadColumnNumber], on the word read from [LPC_GPIO1->FIOPIN]: the
    columns are the pins 0, 1, 4 and 8, low when a key of the driven row is
    pressed. *)
Definition ReadColumnNumber (temp : Z) : Z :=
  if Z.land temp (Z.shiftl 1 0) =? 0 then 0
  else if Z.land temp (Z.shiftl 1 1) =? 0 then 1
  else if Z.land temp (Z.shiftl 1 4) =? 0 then 2
  else if Z.land temp (Z.shiftl 1 8) =? 0 then 3
  else 4.

(** The scan of [GetKeyPressed]: [fiopin row] is the word that the port
    shows while [SetRowToZero(row)] holds that row low; the first row with a
    low column decides. *)
Fixpoint scan_rows (fiopin : Z -> Z) (rows : list Z) : Z :=
  match rows with
  | [] => 255
  | row :: rest =>
      let col := ReadColumnNumber (fiopin row) in
      if col <? 4 then key_code row col else scan_rows fiopin rest
  end.

Definition scan_keypad (fiopin : Z -> Z) : Z := scan_rows fiopin [0; 1; 2; 3].

(** The [static] variables of [GetKeyPressed]. *)
Record keypad_state : Type := mkKeypad {
  lastKey : Z;
  debounceCount : Z;
  stableCount : Z
}.

Definition keypad_idle : keypad_state := mkKeypad 255 0 0.

(** The debouncing of [GetKeyPressed], for the key that the scan found
    ([0xFF]: none). *)
Definition debounce (currentKey : Z) (st : keypad_state) : Z * keypad_state :=
  if negb (currentKey =? 255) then
    if currentKey =? lastKey st then
      let st1 := mkKeypad (lastKey st) (debounceCount st) (stableCount st + 1) in
      if 5 <=? stableCount st1 then
        if debounceCount st1 =? 0
        then (currentKey, mkKeypad (lastKey st1) 1 (stableCount st1))
        else (255, st1)
      else (255, st1)
    else (255, mkKeypad currentKey 0 1)
  else if negb (lastKey st =? 255) then (255, mkKeypad 255 0 0)
  else (255, st).

Definition GetKeyPressed (fiopin : Z -> Z) (st : keypad_state) : Z * keypad_state :=
  debounce (scan_keypad fiopin) st.

(** Successive calls, for the keys that the scans find. *)
Fixpoint polls (found : list Z) (st : keypad_state) : list Z * keypad_state :=
  match found with
  | [] => ([], st)
  | k :: rest =>
      let (r, st1) := debounce k st in
      let (rs, st2) := polls rest st1 in
      (r :: rs, st2)
  end.

(** A key that is held: the state after [j] agreeing reads. *)
Definition held (k : Z) (j : Z) : keypad_state :=
  mkKeypad k (if 5 <=? j then 1 else 0) j.

(** * The display driver of [lcd.c] *)

(** A port is a word of pins.  Writing [v] to [FIOSET] drives the pins of
    the set bits of [v] high, writing it to [FIOCLR] drives them low; this
    is the port's behaviour for pins that are outputs, as the pins written
    here are once [lcdinit] and [KeyPadInitialize] have run. *)
Definition RS : Z := 9.
Definition RW : Z := 10.
Definition EN : Z := 11.

Definition FIOSET (v pins : Z) : Z := Z.lor pins v.
Definition FIOCLR (v pins : Z) : Z := Z.ldiff pins v.

(** One nibble of [lcdchar]: put it on the data pins 19..22 and pulse the
    enable pin.  The result is the word on the pins while the enable pin is
    high, which is what the controller takes over at the falling edge, and
    the word after the pulse. *)
Definition send_nibble (nibble pins : Z) : Z * Z :=
  let p1 := FIOCLR (Z.shiftl 15 19) pins in
  let p2 := FIOSET (Z.shiftl nibble 19) p1 in
  let p3 := FIOSET (Z.shiftl 1 EN) p2 in
  (p3, FIOCLR (Z.shiftl 1 EN) p3).

(** [lcdchar(data, type)]: the words taken over by the controller, and the
    pins afterwards. *)
Definition lcdchar (data : Z) (type : ascii) (pins : Z) : list Z * Z :=
  let lower := Z.land data 15 in
  let upper := Z.shiftr (Z.land data 240) 4 in
  let p1 :=
    if Ascii.eqb type "C" then FIOCLR (Z.shiftl 1 RS) pins
    else FIOSET (Z.shiftl 1 RS) pins in
  let p2 := FIOCLR (Z.shiftl 1 RW) p1 in
  let (w1, p3) := send_nibble upper p2 in
  let (w2, p4) := send_nibble lower p3 in
  ([w1; w2], p4).

(** [lcdstring(str)]: [lcdchar(str[i], 'D')] while [str[i]] is not the NUL.
    The index is an [unsigned char] and wraps at 256. *)
Fixpoint lcdstring_loop (fuel : nat) (str : string) (i : Z) (pins : Z)
  : option (list Z * Z) :=
  match fuel with
  | O => None
  | S fuel' =>
      if Ascii.eqb (str_at str i) zero then Some ([], pins)
      else
        let (ws, p1) := lcdchar (char_code (str_at str i)) "D" pins in
        match lcdstring_loop fuel' str ((i + 1) mod 256) p1 with
        | Some (ws', p2) => Some (ws ++ ws', p2)
        | None => None
        end
  end.

(** The character read depends on the index only, and there are 256
    indices: a loop that has not met a NUL in 256 rounds never does, and
    [None] stands for the call that does not return. *)
Definition lcdstring (str : string) (pins : Z) : option (list Z * Z) :=
  lcdstring_loop 256 str 0 pins.

(** The driver calls behind the events of the display trace. *)
Fixpoint transmit (es : list lcd_event) (pins : Z) : option (list Z * Z) :=
  match es with
  | [] => Some ([], pins)
  | e :: rest =>
      match
        match e with
        | LcdCommand cmd => Some (lcdchar cmd "C" pins)
        | LcdString s => lcdstring s pins
        end
      with
      | Some (ws, p1) =>
          match transmit rest p1 with
          | Some (ws', p2) => Some (ws ++ ws', p2)
          | None => None
          end
      | None => None
      end
  end.

(** What the controller reads off a word: the register select pin and the
    four data pins. *)
Definition data_pins (w : Z) : Z := Z.land (Z.shiftr w 19) 15.

(** The bytes that the controller assembles from the words it takes over,
    high nibble first, each with its register select. *)
Fixpoint received (ws : list Z) : list (bool * Z) :=
  match ws with
  | w1 :: w2 :: rest =>
      (Z.testbit w1 RS, 16 * data_pins w1 + data_pins w2) :: received rest
  | _ => []
  end.

(** The bytes that an event stands for: a command, or the characters of a
    text as data. *)
Definition bytes_of (e : lcd_event) : list (bool * Z) :=
  match e with
  | LcdCommand cmd => [(false, cmd)]
  | LcdString s => List.map (fun c => (true, char_code c)) (list_ascii_of_string s)
  end.

(** One pulse of the enable pin with the other pins as they are: the word
    during the pulse and the pins after it. *)
Definition pulse (pins : Z) : Z * Z :=
  let w := FIOSET (Z.shiftl 1 EN) pins in
  (w, FIOCLR (Z.shiftl 1 EN) w).

(** [lcdinit()] on the direction register and the pins of port 0: the new
    direction register, the words taken over by the controller, and the
    pins afterwards. *)
Definition lcdinit (dir pins : Z) : Z * list Z * Z :=
  let dir1 :=
    Z.lor dir (Z.lor (Z.lor (Z.lor (Z.shiftl 1 22) (Z.shiftl 1 21))
                        (Z.shiftl 1 20)) (Z.shiftl 1 19)) in
  let dir2 :=
    Z.lor dir1 (Z.lor (Z.lor (Z.shiftl 1 EN) (Z.shiftl 1 RW)) (Z.shiftl 1 RS)) in
  let p1 :=
    FIOCLR (Z.lor (Z.lor (Z.shiftl 1 RS) (Z.shiftl 1 RW)) (Z.shiftl 1 EN)) pins in
  let p2 := FIOCLR (Z.shiftl 15 19) p1 in
  let (w1, p3) := send_nibble 3 p2 in
  let (w2, p4) := pulse p3 in
  let (w3, p5) := pulse p4 in
  let (w4, p6) := send_nibble 2 p5 in
  let (c1, p7) := lcdchar 40 "C" p6 in
  let (c2, p8) := lcdchar 12 "C" p7 in
  let (c3, p9) := lcdchar 6 "C" p8 in
  let (c4, p10) := lcdchar 1 "C" p9 in
  (dir2, [w1; w2; w3; w4] ++ c1 ++ c2 ++ c3 ++ c4, p10).

(** The pins of the display: register select, write, enable and the four
    data pins. *)
Definition display_pin (n : Z) : bool :=
  ((RS <=? n) && (n <=? EN) || (19 <=? n) && (n <? 23))%bool.

(** [SetRowToZero(rowNumber)] on the pins of port 1: all four rows high,
    then the selected row low. *)
Definition SetRowToZero (rowNumber pins : Z) : Z :=
  let p :=
    FIOSET (Z.lor (Z.lor (Z.lor (Z.shiftl 1 9) (Z.shiftl 1 10)) (Z.shiftl 1 14))
              (Z.shiftl 1 15)) pins in
  if rowNumber =? 0 then FIOCLR (Z.shiftl 1 9) p
  else if rowNumber =? 1 then FIOCLR (Z.shiftl 1 10) p
  else if rowNumber =? 2 then FIOCLR (Z.shiftl 1 14) p
  else if rowNumber =? 3 then FIOCLR (Z.shiftl 1 15) p
  else p.

(** The pins of the four rows. *)
Definition row_pins : list Z := [9; 10; 14; 15].

Definition is_row_pin (n : Z) : bool :=
  existsb (Z.eqb n) row_pins.

(** A text as the driver can send it: no NUL inside, and short enough for
    the index. *)
Definition text_ok (s : string) : Prop :=
  strlen s < 256 /\ Forall (fun c => c <> zero) (list_ascii_of_string s).

Definition byte_event (e : lcd_event) : Prop :=
  match e with
  | LcdCommand cmd => 0 <= cmd < 256
  | LcdString s => text_ok s
  end.

(** * Accuracy of typed entries *)

(** The integer that a sequence of digit keys denotes. *)
Definition number_of (ds : list Z) : Z :=
  fold_left (fun acc d => acc * 10 + d) ds 0.

(** All sequences of at most [n] digit keys. *)
Definition digits10 : list Z := [0; 1; 2; 3; 4; 5; 6; 7; 8; 9].

Fixpoint digit_lists (n : nat) : list (list Z) :=
  match n with
  | O => [[]]
  | S n' => [] :: flat_map (fun d => List.map (cons d) (digit_lists n')) digits10
  end.

(** The integer loop of the parser over digit keys, from an accumulator. *)
Definition integer_keys (ds : list Z) (acc : float) : float :=
  fold_left (fun a d => F32.add (F32.mul a F32.ten) (F32.of_Z d)) ds acc.

(** The number [acc] is the integer [z]. *)
Definition is_integer (acc : float) (z : Z) : bool :=
  match F32.to_Q acc with
  | Some q => Qeq_bool q (inject_Z z)
  | None => false
  end.

(** From the accumulator [acc], which stands for [z], the loop stays exact
    over every sequence of at most [n] digit keys. *)
Fixpoint exact_from (n : nat) (acc : float) (z : Z) : bool :=
  (is_integer acc z &&
   match n with
   | O => true
   | S n' =>
       forallb (fun d => exact_from n' (integer_keys [d] acc) (z * 10 + d)) digits10
   end)%bool.

(** The text of an entry with a decimal point: digits, ['.'], digits. *)
Definition entry_text (i f : list Z) : string :=
  text_of (List.map digit_char i ++ "."%char :: List.map digit_char f).

(** The entry is numeric and the parser's number for it is within 1e-6 of
    the number that it denotes. *)
Definition entry_close (i f : list Z) : bool :=
  (numeric_entry (entry_text i f) &&
   match F32.to_Q (decimal_value (entry_text i f)) with
   | Some q => Qle_bool (Qabs (q - exact_value (entry_text i f))) (1 # 1000000)
   | None => false
   end)%bool.

(** * Operator keys without a pending entry *)

(** In the input phase, digits are pending, or the token buffer is empty,
    or the previous key was an operator key. *)
Definition operand_or_operator (s : session) : Prop :=
  calculation_has_ended s = false -> calculator_error (globals s) = false ->
  0 < current_num_index (globals s) \/ expr_len (globals s) = 0 \/
  last_key_was_operator s = true.

(** * Properties *)

(** ** The float literals *)

(** The two literals are the correctly rounded quotients. *)
Lemma tenth_is_rounded : F32.div (F32.of_Z 1) (F32.of_Z 10) = F32.tenth.
Proof. vm_compute. reflexivity. Qed.

Lemma epsilon_is_rounded :
  F32.div (F32.of_Z 1) (F32.of_Z 10000000) = F32.FLOAT_EPSILON.
Proof. vm_compute. reflexivity. Qed.

Lemma tenth_value : F32.within F32.tenth (1 # 10) (1 # 100000000).
Proof. vm_compute. discriminate. Qed.

(** ** Strings *)

Lemma substring_0_length (m : nat) :
  forall s : string, (String.length (String.substring 0 m s) <= m)%nat.
Proof.
  induction m as [| m IH]; intros [| c s]; cbn; try lia.
  specialize (IH s). lia.
Qed.

Lemma strncpy_length (n : Z) (s : string) :
  0 <= n -> strlen (strncpy n s) <= n.
Proof.
  intros H. unfold strlen, strncpy.
  pose proof (substring_0_length (Z.to_nat n) s). lia.
Qed.

(** ** The error state only ever gains its first message *)

Lemma set_error_active (m : string) (st : state) :
  calculator_error st = true -> set_error m st = st.
Proof. intros H. unfold set_error. now rewrite H. Qed.

Lemma set_error_sets (m : string) (st : state) :
  calculator_error (set_error m st) = true.
Proof. unfold set_error. destruct (calculator_error st) eqn:E; [exact E | reflexivity]. Qed.

Lemma set_error_idem (m1 m2 : string) (st : state) :
  set_error m2 (set_error m1 st) = set_error m1 st.
Proof. apply set_error_active, set_error_sets. Qed.

Lemma raises_refl (st : state) : raises st st.
Proof. now left. Qed.

Lemma raises_set (m : string) (st : state) : raises st (set_error m st).
Proof. right. now exists m. Qed.

Lemma raises_trans (a b c : state) : raises a b -> raises b c -> raises a c.
Proof.
  intros [-> | [m ->]] [-> | [m' ->]]; auto using raises_refl, raises_set.
  rewrite set_error_idem. apply raises_set.
Qed.

Create HintDb calc.
#[local] Hint Resolve raises_refl raises_set : calc.

(** What a call of [set_error] leaves alone. *)
Lemma raises_frame (st st' : state) :
  raises st st' ->
  expr_type st' = expr_type st /\ expr_data st' = expr_data st /\
  expr_len st' = expr_len st /\
  expression_str st' = expression_str st /\
  expression_index st' = expression_index st /\
  current_num_str st' = current_num_str st /\
  current_num_index st' = current_num_index st /\
  lcd st' = lcd st.
Proof.
  intros [-> | [m ->]]; [repeat split |].
  unfold set_error. destruct (calculator_error st); repeat split.
Qed.

Lemma raises_keeps (st st' : state) :
  raises st st' -> calculator_error st = true -> st' = st.
Proof. intros [-> | [m ->]] H; [reflexivity | now apply set_error_active]. Qed.

Lemma raises_quiet (st st' : state) :
  raises st st' -> calculator_error st' = false -> st' = st.
Proof.
  intros [-> | [m ->]] H; [reflexivity |].
  now rewrite set_error_sets in H.
Qed.

Lemma apply_operator_raises (op : ascii) (a b : float) (st : state) :
  raises st (snd (execute_apply_operator op a b st)).
Proof.
  unfold execute_apply_operator.
  repeat match goal with
         | |- context [if ?c then _ else _] => destruct c
         end; cbn; auto with calc.
Qed.

Lemma apply_top_raises (op : ascii) (vals : list float) (st : state) :
  raises st (snd (apply_top op vals st)).
Proof.
  unfold apply_top. destruct vals as [| b [| a rest]]; cbn; auto with calc.
  pose proof (apply_operator_raises op a b st) as H.
  destruct (execute_apply_operator op a b st) as [r st1]; cbn in *.
  now destruct (calculator_error st1).
Qed.

(** When a pass falls through, no error was raised by it. *)
Lemma apply_top_next (op : ascii) (vals vals1 : list float) (st st1 : state) :
  apply_top op vals st = (Next vals1, st1) ->
  calculator_error st1 = false.
Proof.
  unfold apply_top. destruct vals as [| b [| a rest]]; try discriminate.
  destruct (execute_apply_operator op a b st) as [r st2].
  destruct (calculator_error st2) eqn:E; [discriminate |].
  now intros [= _ <-].
Qed.

Lemma reduce_while_raises (cur : ascii) (ops : list ascii) :
  forall vals st, raises st (snd (reduce_while cur vals ops st)).
Proof.
  induction ops as [| op ops IH]; intros vals st; cbn; auto with calc.
  destruct (get_precedence cur <=? get_precedence op); cbn; auto with calc.
  pose proof (apply_top_raises op vals st) as H.
  destruct (apply_top op vals st) as [[v | vals1] st1]; cbn in *; auto.
  eapply raises_trans; [exact H | apply IH].
Qed.

Lemma drain_raises (ops : list ascii) :
  forall vals st, raises st (snd (drain vals ops st)).
Proof.
  induction ops as [| op ops IH]; intros vals st; cbn; auto with calc.
  pose proof (apply_top_raises op vals st) as H.
  destruct (apply_top op vals st) as [[v | vals1] st1]; cbn in *; auto.
  eapply raises_trans; [exact H | apply IH].
Qed.

Lemma token_loop_raises (n : nat) :
  forall i vals ops st, raises st (snd (token_loop n i vals ops st)).
Proof.
  induction n as [| n IH]; intros i vals ops st; cbn; auto with calc.
  destruct (Ascii.eqb _ "N").
  - destruct (MAX_TOKENS - 1 <=? top_index vals); cbn; auto with calc.
  - pose proof (reduce_while_raises
                  (char_of_float (arr_get F32.zero (expr_data st) i)) ops vals st) as H.
    destruct (reduce_while _ vals ops st) as [[v | [vals1 ops1]] st1];
      cbn in *; auto.
    destruct (MAX_TOKENS - 1 <=? top_index ops1); cbn.
    + eapply raises_trans; [exact H | auto with calc].
    + eapply raises_trans; [exact H | apply IH].
Qed.

Lemma evaluate_raises (st : state) :
  raises st (snd (evaluate_full_expression st)).
Proof.
  unfold evaluate_full_expression.
  destruct (calculator_error st); cbn; auto with calc.
  destruct (expr_len st =? 0); cbn; auto with calc.
  destruct (_ && _)%bool; cbn; auto with calc.
  destruct (_ && _)%bool; cbn; auto with calc.
  pose proof (token_loop_raises (Z.to_nat (expr_len st)) 0 [] [] st) as H.
  destruct (token_loop _ 0 [] [] st) as [[v | [vals ops]] st1]; cbn in *; auto.
  pose proof (drain_raises ops vals st1) as H1.
  destruct (drain vals ops st1) as [[v | vals'] st2]; cbn in *.
  - eapply raises_trans; eauto.
  - destruct vals' as [| v [| w rest]]; cbn;
      eauto using raises_trans with calc.
Qed.

Lemma scan_digits_raises (n : nat) :
  forall i r m d st, raises st (snd (scan_digits n i r m d st)).
Proof.
  induction n as [| n IH]; intros i r m d st; cbn; auto with calc.
  destruct (Ascii.eqb _ ".").
  - destruct d; cbn; auto with calc.
  - destruct (_ && _)%bool; cbn; auto with calc.
    destruct d; cbn; auto.
Qed.

Lemma parse_raises (st : state) :
  raises st (snd (parse_current_input_number st)).
Proof.
  unfold parse_current_input_number.
  destruct (current_num_index st =? 0); cbn; auto with calc.
  destruct (_ && _)%bool; cbn; auto with calc.
  destruct (_ && _)%bool; cbn; auto with calc.
  match goal with
  | |- context [scan_digits ?n ?i ?r ?m ?d st] =>
      pose proof (scan_digits_raises n i r m d st) as H;
      destruct (scan_digits n i r m d st) as [[v | res] st1]
  end; cbn in *; auto.
Qed.

Lemma kept_refl (st : state) : kept st st.
Proof. now intros H. Qed.

Lemma kept_trans (a b c : state) : kept a b -> kept b c -> kept a c.
Proof.
  intros H1 H2 Ha. destruct (H1 Ha) as [Hb E1]. destruct (H2 Hb) as [Hc E2].
  split; [exact Hc | congruence].
Qed.

Lemma kept_raises (st st' : state) : raises st st' -> kept st st'.
Proof. intros R H. now rewrite (raises_keeps _ _ R H). Qed.

Lemma kept_same_error (st st' : state) :
  calculator_error st' = calculator_error st ->
  error_message st' = error_message st -> kept st st'.
Proof. intros E1 E2 H. split; congruence. Qed.

Lemma kept_set_error (m : string) (st : state) : kept st (set_error m st).
Proof. apply kept_raises, raises_set. Qed.

Lemma kept_add_history (s : string) (st : state) :
  kept st (add_to_expression_string s st).
Proof.
  unfold add_to_expression_string.
  destruct (_ <? _); now apply kept_same_error.
Qed.

Lemma kept_push_operand (num : float) (st : state) :
  kept st (push_operand_to_expr num st).
Proof. intros H. unfold push_operand_to_expr. now rewrite H. Qed.

Lemma kept_push_operator (c : ascii) (st : state) :
  kept st (push_operator_to_expr c st).
Proof. intros H. unfold push_operator_to_expr. now rewrite H. Qed.

Lemma kept_update_display (st : state) : kept st (update_lcd_display_content st).
Proof. now apply kept_same_error. Qed.

Lemma kept_emit (es : list lcd_event) (st : state) : kept st (emit es st).
Proof. now apply kept_same_error. Qed.

Lemma kept_current (s : string) (n : Z) (st : state) : kept st (with_current s n st).
Proof. now apply kept_same_error. Qed.

Lemma kept_evaluate (st : state) : kept st (snd (evaluate_full_expression st)).
Proof. apply kept_raises, evaluate_raises. Qed.

Lemma kept_parse (st : state) : kept st (snd (parse_current_input_number st)).
Proof. apply kept_raises, parse_raises. Qed.

Lemma kept_apply (op : ascii) (a b : float) (st : state) :
  kept st (snd (execute_apply_operator op a b st)).
Proof. apply kept_raises, apply_operator_raises. Qed.

#[local] Hint Resolve kept_refl kept_set_error kept_add_history
  kept_push_operand kept_push_operator kept_update_display kept_emit
  kept_current kept_evaluate kept_parse kept_apply : calc.

(** Chains of state updates are cut at each step. *)
Ltac kept_chain :=
  repeat first
    [ assumption
    | apply kept_refl
    | match goal with
      | |- kept _ (if ?c then _ else _) => destruct c
      | |- kept ?a (?f ?b) =>
          lazymatch a with
          | b => solve [auto with calc]
          | _ => apply (kept_trans a b (f b)); [| solve [auto with calc]]
          end
      | |- kept ?a (?f ?x ?b) =>
          lazymatch a with
          | b => solve [auto with calc]
          | _ => apply (kept_trans a b (f x b)); [| solve [auto with calc]]
          end
      | |- kept ?a (?f ?x ?y ?b) =>
          lazymatch a with
          | b => solve [auto with calc]
          | _ => apply (kept_trans a b (f x y b)); [| solve [auto with calc]]
          end
      end ].

Section SessionFacts.

Context (roundf : float -> float)
        (printf_f0 printf_f printf_e3 : float -> string).

Local Abbreviation display_result' :=
  (display_result roundf printf_f0 printf_f printf_e3).
Local Abbreviation equals_key' :=
  (equals_key roundf printf_f0 printf_f printf_e3).
Local Abbreviation process_key' :=
  (process_key roundf printf_f0 printf_f printf_e3).
Local Abbreviation input_states' :=
  (input_states roundf printf_f0 printf_f printf_e3).
Local Abbreviation loop_iteration' :=
  (loop_iteration roundf printf_f0 printf_f printf_e3).

Lemma kept_append_current (c : ascii) (st : state) :
  kept st (append_current c st).
Proof. now apply kept_same_error. Qed.

Lemma kept_reset_current (st : state) : kept st (reset_current st).
Proof. now apply kept_same_error. Qed.

Lemma kept_show_line (st : state) : kept st (show_line (error_message st) st).
Proof. now apply kept_same_error. Qed.

Lemma kept_display_result (r : float) (st : state) :
  kept st (display_result' r st).
Proof.
  unfold display_result.
  destruct (LCD_LINE_LEN <? strlen _); [| auto with calc].
  eapply kept_trans; [apply kept_set_error | apply kept_emit].
Qed.

#[local] Hint Resolve kept_append_current kept_reset_current kept_show_line
  kept_display_result : calc.

Lemma kept_digit_key (k : Z) (s : session) :
  kept (globals s) (globals (digit_key k s)).
Proof. unfold digit_key. destruct (_ <? _); cbn; auto with calc. Qed.

Lemma kept_decimal_key (s : session) :
  kept (globals s) (globals (decimal_key s)).
Proof.
  unfold decimal_key.
  destruct (_ && _)%bool; [| destruct (decimal_point_entered s); cbn; auto with calc].
  destruct (current_num_index (globals s) =? 0); cbn; kept_chain.
Qed.

(** Committing the pending number: parse, push, add to the history. *)
Lemma kept_commit (g : state) :
  kept g (let (num, g1) := parse_current_input_number g in
          if negb (calculator_error g1)
          then add_to_expression_string (current_num_str g1)
                 (push_operand_to_expr num g1)
          else g1).
Proof.
  pose proof (kept_parse g) as H.
  destruct (parse_current_input_number g) as [num g1]; cbn in H.
  destruct (negb (calculator_error g1)); [| exact H].
  eapply kept_trans; [exact H |]. kept_chain.
Qed.

Lemma kept_operator_key (k : Z) (s : session) :
  kept (globals s) (globals (operator_key k s)).
Proof.
  unfold operator_key.
  set (op := arr_get zero op_char_map (k - KEY_PLUS)).
  destruct (_ && _ && _)%bool.
  { destruct (_ <? _); cbn; auto with calc. }
  match goal with
  | |- context [if negb (calculator_error (globals ?x)) then _ else _] =>
      set (s1 := x);
      assert (kept (globals s) (globals s1)) as H1
  end.
  { subst s1. destruct (0 <? current_num_index (globals s)).
    - pose proof (kept_commit (globals s)) as H.
      destruct (parse_current_input_number (globals s)) as [num g1].
      cbn. eapply kept_trans; [exact H | auto with calc].
    - destruct (_ || _)%bool; [| apply kept_refl].
      destruct (negb _); cbn; auto with calc. }
  destruct (negb (calculator_error (globals s1))); [| exact H1].
  cbn. eapply kept_trans; [exact H1 | auto with calc].
Qed.

Lemma kept_equals_key (s : session) :
  kept (globals s) (globals (equals_key' s)).
Proof.
  unfold equals_key.
  set (g := globals s).
  match goal with
  | |- context [if (_ && Ascii.eqb _ "O" && negb (calculator_error ?x))%bool
                then _ else _] =>
      set (g1 := x); assert (kept g g1) as H1
  end.
  { subst g1. destruct (_ && _)%bool; [| apply kept_refl].
    apply kept_commit. }
  match goal with
  | |- context [if negb (calculator_error ?x)
                then evaluate_full_expression _ else _] =>
      set (g2 := x); assert (kept g g2) as H2
  end.
  { subst g2. destruct (_ && _ && _ && _)%bool; [| exact H1].
    eapply kept_trans; [exact H1 | auto with calc]. }
  assert (kept g (snd (if negb (calculator_error g2)
                       then evaluate_full_expression g2
                       else (F32.zero, g2)))) as H3.
  { destruct (negb (calculator_error g2)); [| exact H2].
    eapply kept_trans; [exact H2 | auto with calc]. }
  destruct (if negb (calculator_error g2) then evaluate_full_expression g2
            else (F32.zero, g2)) as [final_result g3].
  cbn in H3. cbn [globals].
  eapply kept_trans; [exact H3 |].
  eapply kept_trans; [| apply kept_reset_current].
  eapply kept_trans; [| apply kept_emit].
  destruct (calculator_error (emit _ g3)).
  - eapply kept_trans; apply kept_emit.
  - eapply kept_trans; [apply kept_emit | apply kept_display_result].
Qed.

Lemma kept_process_key (k : Z) (s : session) :
  kept (globals s) (globals (process_key' k s)).
Proof.
  unfold process_key.
  repeat match goal with
         | |- context [if ?c then _ else _] => destruct c
         end;
    auto using kept_digit_key, kept_decimal_key, kept_operator_key,
      kept_equals_key, kept_refl.
Qed.

Lemma kept_after_key (s : session) :
  kept (globals s) (globals (after_key s)).
Proof.
  unfold after_key.
  destruct (negb _); [| apply kept_refl].
  destruct (calculator_error (globals s)); cbn; auto with calc.
Qed.

Lemma kept_input_states (k : Z) (s : session) :
  kept (globals s) (globals (input_states' k s)).
Proof.
  unfold input_states.
  destruct (_ && _)%bool.
  - destruct (k =? KEY_NONE); cbn; auto with calc.
  - destruct (k =? KEY_NONE); [apply kept_refl |].
    eapply kept_trans; [apply kept_process_key | apply kept_after_key].
Qed.

Lemma kept_perform (o : operation) (s : session) :
  kept (globals s) (globals (perform roundf printf_f0 printf_f printf_e3 o s)).
Proof.
  destruct o; cbn [perform on_globals globals]; auto with calc.
  apply kept_input_states.
Qed.

Lemma kept_perform_all (os : list operation) :
  forall s,
    kept (globals s)
      (globals (perform_all roundf printf_f0 printf_f printf_e3 os s)).
Proof.
  induction os as [| o os IH]; intros s; cbn; [apply kept_refl |].
  eapply kept_trans; [apply kept_perform | apply IH].
Qed.

(** C4. First error wins.  Once the error flag is set, no sequence of
    operations short of the reset changes the flag or the stored message,
    and every later [set_error] is a no-op; when no error is active,
    [set_error msg] sets the flag and stores the first 16 characters of
    [msg], which fit the 17-byte buffer with its terminating NUL, and
    touches nothing else. *)
Theorem first_error_wins :
  (forall (os : list operation) (s : session),
      calculator_error (globals s) = true ->
      let s' := perform_all roundf printf_f0 printf_f printf_e3 os s in
      calculator_error (globals s') = true /\
      error_message (globals s') = error_message (globals s)) /\
  (forall (msg : string) (st : state),
      calculator_error st = true -> set_error msg st = st) /\
  (forall (msg : string) (st : state),
      calculator_error st = false ->
      set_error msg st
      = with_error true (String.substring 0 16 msg) st /\
      (strlen (error_message (set_error msg st)) <= ERROR_MSG_LEN - 1)).
Proof.
  split; [| split].
  - intros os s H. now apply kept_perform_all.
  - intros msg st H. now apply set_error_active.
  - intros msg st H. unfold set_error. rewrite H. split; [reflexivity |].
    cbn [error_message with_error]. now apply strncpy_length.
Qed.

End SessionFacts.

(** ** Token buffer *)

Lemma tokens_history (s : string) (st : state) :
  tokens (add_to_expression_string s st) = tokens st.
Proof. unfold add_to_expression_string. now destruct (_ <? _). Qed.

Lemma buffer_ok_history (s : string) (st : state) :
  buffer_ok st -> buffer_ok (add_to_expression_string s st).
Proof. unfold add_to_expression_string. now destruct (_ <? _). Qed.

Lemma take_arr_set {A : Type} (a : list A) (n : Z) (x : A) :
  0 <= n < Z.of_nat (length a) ->
  take (Z.to_nat (n + 1)) (arr_set a n x) = take (Z.to_nat n) a ++ [x].
Proof.
  intros H. unfold arr_set.
  replace (Z.to_nat (n + 1)) with (S (Z.to_nat n)) by lia.
  erewrite take_S_r by (apply list_lookup_insert_eq; lia).
  now rewrite take_insert_ge by lia.
Qed.

Lemma tokens_with_expr (st : state) (t : ascii) (d : float) :
  buffer_ok st -> expr_len st < MAX_TOKENS ->
  tokens (with_expr (arr_set (expr_type st) (expr_len st) t)
            (arr_set (expr_data st) (expr_len st) d) (expr_len st + 1) st)
  = tokens st ++ [(t, d)].
Proof.
  intros (Ht & Hd & Hn) Hlt. unfold tokens. cbn.
  rewrite !take_arr_set by lia.
  rewrite zip_with_app; [reflexivity |].
  rewrite !length_take. lia.
Qed.

Lemma do_push_active (p : push) (st : state) :
  calculator_error st = true -> do_push p st = st.
Proof.
  intros H. destruct p; cbn; unfold push_operand_to_expr, push_operator_to_expr;
    now rewrite H.
Qed.

Lemma do_pushes_active (ps : list push) :
  forall st, calculator_error st = true -> do_pushes ps st = st.
Proof.
  induction ps as [| p ps IH]; intros st H; cbn; [reflexivity |].
  rewrite do_push_active by exact H. now apply IH.
Qed.

Lemma do_push_full (p : push) (st : state) :
  calculator_error st = false -> MAX_TOKENS <= expr_len st ->
  do_push p st = set_error Err_Expr_Long st.
Proof.
  intros H Hn. apply Z.leb_le in Hn.
  destruct p; cbn; unfold push_operand_to_expr, push_operator_to_expr;
    now rewrite H, Hn.
Qed.

Lemma do_push_room (p : push) (st : state) :
  buffer_ok st -> calculator_error st = false -> expr_len st < MAX_TOKENS ->
  tokens (do_push p st) = tokens st ++ [token_of p] /\
  expr_len (do_push p st) = expr_len st + 1 /\
  calculator_error (do_push p st) = false /\
  buffer_ok (do_push p st).
Proof.
  intros Hok H Hn. pose proof Hn as Hn'. apply Z.leb_gt in Hn'.
  pose proof Hok as (Ht & Hd & Hl).
  assert (buffer_ok_set : forall t d,
    buffer_ok (with_expr (arr_set (expr_type st) (expr_len st) t)
                 (arr_set (expr_data st) (expr_len st) d) (expr_len st + 1) st)).
  { intros t d. unfold buffer_ok, arr_set. cbn. rewrite !length_insert. lia. }
  destruct p; cbn [do_push token_of];
    unfold push_operand_to_expr, push_operator_to_expr; rewrite H, Hn'.
  - split; [now apply tokens_with_expr |]. cbn. auto.
  - rewrite tokens_history. split; [now apply tokens_with_expr |].
    unfold add_to_expression_string.
    split; [| split]; [| | apply buffer_ok_history, buffer_ok_set];
      now destruct (_ <? _).
Qed.

Lemma do_push_ok (p : push) (st : state) :
  buffer_ok st -> buffer_ok (do_push p st).
Proof.
  intros Hok. destruct (calculator_error st) eqn:H.
  - now rewrite do_push_active.
  - destruct (Z.lt_ge_cases (expr_len st) MAX_TOKENS) as [Hn | Hn].
    + now apply do_push_room.
    + rewrite do_push_full by assumption.
      unfold set_error. now rewrite H.
Qed.

Lemma do_pushes_ok (ps : list push) :
  forall st, buffer_ok st -> buffer_ok (do_pushes ps st).
Proof.
  induction ps as [| p ps IH]; intros st H; cbn; [exact H |].
  now apply IH, do_push_ok.
Qed.

(** A run of pushes from an error-free state either fits, or stops at the
    first push that finds the buffer full. *)
Lemma do_pushes_count (ps : list push) :
  forall st,
    buffer_ok st -> calculator_error st = false ->
    let st' := do_pushes ps st in
    if expr_len st + Z.of_nat (length ps) <=? MAX_TOKENS then
      calculator_error st' = false /\
      expr_len st' = expr_len st + Z.of_nat (length ps) /\
      tokens st' = tokens st ++ map token_of ps
    else
      calculator_error st' = true /\
      error_message st' = Err_Expr_Long /\
      expr_len st' = MAX_TOKENS.
Proof.
  induction ps as [| p ps IH]; intros st Hok H.
  - cbn [do_pushes fold_left length map]. destruct Hok as (_ & _ & Hl).
    change (Z.of_nat 0) with 0.
    destruct (Z.leb_spec (expr_len st + 0) MAX_TOKENS); [| lia].
    rewrite app_nil_r. repeat split; (assumption || lia).
  - cbn [do_pushes fold_left length map].
    change (fold_left (fun st p => do_push p st) ps (do_push p st))
      with (do_pushes ps (do_push p st)).
    destruct (Z.lt_ge_cases (expr_len st) MAX_TOKENS) as [Hn | Hn].
    + destruct (do_push_room p st Hok H Hn) as (Ht & Hl & He & Hok').
      specialize (IH (do_push p st) Hok' He). cbn zeta in IH |- *.
      rewrite Hl, Ht in IH.
      replace (expr_len st + Z.of_nat (S (length ps)))
        with (expr_len st + 1 + Z.of_nat (length ps)) by lia.
      destruct (_ <=? _); [| exact IH].
      destruct IH as (? & ? & ->). rewrite <- app_assoc. auto.
    + rewrite do_push_full by assumption.
      rewrite do_pushes_active by apply set_error_sets.
      destruct Hok as (_ & _ & Hl).
      destruct (Z.leb_spec (expr_len st + Z.of_nat (S (length ps))) MAX_TOKENS);
        [lia |].
      unfold set_error. rewrite H. cbn. repeat split. lia.
Qed.

(** C7. The two push functions do nothing while an error is active; with no
    error and a full buffer they raise "Err: Expr Long" and change nothing
    else; otherwise they append exactly one token.  Hence the length never
    exceeds [MAX_TOKENS], and any [MAX_TOKENS + 1] pushes into the empty
    buffer end with the error set, [MAX_TOKENS] tokens stored, and every
    further push without effect. *)
Theorem push_bounded :
  (forall (p : push) (st : state),
      calculator_error st = true -> do_push p st = st) /\
  (forall (p : push) (st : state),
      calculator_error st = false -> expr_len st = MAX_TOKENS ->
      do_push p st = set_error Err_Expr_Long st /\
      error_message (do_push p st) = Err_Expr_Long /\
      tokens (do_push p st) = tokens st) /\
  (forall (p : push) (st : state),
      buffer_ok st -> calculator_error st = false -> expr_len st < MAX_TOKENS ->
      tokens (do_push p st) = tokens st ++ [token_of p] /\
      expr_len (do_push p st) = expr_len st + 1 /\
      calculator_error (do_push p st) = false) /\
  (forall (ps : list push) (st : state),
      buffer_ok st -> expr_len (do_pushes ps st) <= MAX_TOKENS) /\
  (forall (ps more : list push) (st : state),
      buffer_ok st -> calculator_error st = false -> expr_len st = 0 ->
      Z.of_nat (length ps) = MAX_TOKENS + 1 ->
      let st' := do_pushes ps st in
      calculator_error st' = true /\
      error_message st' = Err_Expr_Long /\
      expr_len st' = MAX_TOKENS /\
      do_pushes more st' = st').
Proof.
  repeat apply conj.
  - intros p st H. now apply do_push_active.
  - intros p st H Hn. rewrite do_push_full by (assumption || lia).
    unfold set_error. rewrite H. repeat split.
  - intros p st Hok H Hn.
    destruct (do_push_room p st Hok H Hn) as (? & ? & ? & _). auto.
  - intros ps st Hok. apply (do_pushes_ok ps) in Hok.
    now destruct Hok as (_ & _ & ?).
  - intros ps more st Hok H H0 Hlen.
    pose proof (do_pushes_count ps st Hok H) as Hc. cbn zeta in Hc |- *.
    rewrite H0, Hlen in Hc. cbn in Hc.
    destruct Hc as (He & Hm & Hl). repeat split; auto.
    now apply do_pushes_active.
Qed.

(** ** Reading the token buffer *)

Lemma tokens_length (st : state) :
  buffer_ok st -> length (tokens st) = Z.to_nat (expr_len st).
Proof.
  intros (Ht & Hd & Hn). unfold tokens.
  rewrite length_zip_with, !length_take. lia.
Qed.

Lemma tokens_lookup (st : state) (i : Z) :
  buffer_ok st -> 0 <= i < expr_len st ->
  tokens st !! Z.to_nat i
  = Some (arr_get zero (expr_type st) i, arr_get F32.zero (expr_data st) i).
Proof.
  intros (Ht & Hd & Hn) Hi. unfold tokens, arr_get.
  destruct (lookup_lt_is_Some_2 (expr_type st) (Z.to_nat i)) as [t Et]; [lia |].
  destruct (lookup_lt_is_Some_2 (expr_data st) (Z.to_nat i)) as [d Ed]; [lia |].
  rewrite Et, Ed. cbn.
  apply lookup_zip_with_Some. exists t, d.
  rewrite !lookup_take_lt by lia. auto.
Qed.

Lemma tokens_last (st : state) (ts : list (ascii * float)) (t : ascii) (d : float) :
  buffer_ok st -> tokens st = ts ++ [(t, d)] ->
  0 < expr_len st /\
  arr_get zero (expr_type st) (expr_len st - 1) = t /\
  arr_get F32.zero (expr_data st) (expr_len st - 1) = d.
Proof.
  intros Hok E. pose proof (tokens_length st Hok) as Hl.
  rewrite E, length_app in Hl. cbn in Hl.
  assert (0 < expr_len st) as Hpos by lia. split; [exact Hpos |].
  pose proof (tokens_lookup st (expr_len st - 1) Hok ltac:(lia)) as Hk.
  rewrite E in Hk.
  replace (Z.to_nat (expr_len st - 1)) with (length ts + 0)%nat in Hk by lia.
  rewrite lookup_app_r, Nat.add_comm, Nat.add_sub in Hk by lia.
  cbn in Hk. now inversion Hk.
Qed.

(** ** The checks of [evaluate_full_expression] that come before the stacks *)

(** C5. With no error active: the empty buffer evaluates to 0.0 and a
    buffer of one number to that number, in both cases leaving the state
    as it is; a buffer that ends with an operator, whatever precedes it,
    yields 0.0 and the state after [set_error("Err: Syntax")]. *)
Theorem evaluate_before_stack_work :
  (forall st : state,
      calculator_error st = false -> expr_len st = 0 ->
      evaluate_full_expression st = (F32.zero, st)) /\
  (forall (st : state) (v : float),
      buffer_ok st -> calculator_error st = false ->
      tokens st = [("N"%char, v)] ->
      evaluate_full_expression st = (v, st)) /\
  (forall (st : state) (ts : list (ascii * float)) (d : float),
      buffer_ok st -> calculator_error st = false ->
      tokens st = ts ++ [("O"%char, d)] ->
      evaluate_full_expression st = (F32.zero, set_error Err_Syntax st) /\
      calculator_error (set_error Err_Syntax st) = true /\
      error_message (set_error Err_Syntax st) = Err_Syntax).
Proof.
  split; [| split].
  - intros st H H0. unfold evaluate_full_expression. now rewrite H, H0.
  - intros st v Hok H E.
    pose proof (tokens_length st Hok) as Hl. rewrite E in Hl. cbn in Hl.
    destruct (tokens_last st [] "N" v Hok E) as (Hpos & Ht & Hd).
    assert (expr_len st = 1) as H1 by lia. rewrite H1 in Ht, Hd.
    change (1 - 1) with 0 in Ht, Hd.
    unfold evaluate_full_expression. rewrite H, H1.
    change (1 - 1) with 0. now rewrite Ht, Hd.
  - intros st ts d Hok H E.
    destruct (tokens_last st ts "O" d Hok E) as (Hpos & Ht & Hd).
    unfold evaluate_full_expression. rewrite H, Ht.
    destruct (Z.eqb_spec (expr_len st) 0); [lia |].
    destruct (Z.ltb_spec 0 (expr_len st)); [| lia].
    cbn. unfold set_error. rewrite H. auto.
Qed.

(** C10. Evaluation leaves the token buffer alone: the final state is the
    initial one, or the initial one after a single [set_error]; the arrays,
    the length and every other global but the error state are unchanged.
    The buffer is emptied by [clear_all_state]. *)
Theorem evaluate_preserves_buffer :
  (forall st : state,
      let st' := snd (evaluate_full_expression st) in
      (st' = st \/ exists m, st' = set_error m st) /\
      expr_type st' = expr_type st /\
      expr_data st' = expr_data st /\
      expr_len st' = expr_len st /\
      tokens st' = tokens st /\
      expression_str st' = expression_str st /\
      current_num_str st' = current_num_str st /\
      lcd st' = lcd st) /\
  (forall st : state,
      expr_len (clear_all_state st) = 0 /\ tokens (clear_all_state st) = []).
Proof.
  split.
  - intros st st'. pose proof (evaluate_raises st) as R. fold st' in R.
    destruct (raises_frame _ _ R) as (Ht & Hd & Hl & Hs & _ & Hc & _ & Hlcd).
    split; [exact R |]. unfold tokens. rewrite Ht, Hd, Hl. repeat split; auto.
  - intros st. split; reflexivity.
Qed.

(** ** Applying an operator *)

Lemma apply_plain (op : ascii) (a b : float) (st : state) :
  calculator_error st = false ->
  execute_apply_operator "+" a b st = (F32.add a b, st) /\
  execute_apply_operator "-" a b st = (F32.sub a b, st) /\
  execute_apply_operator "*" a b st = (F32.mul a b, st).
Proof. intros H. unfold execute_apply_operator. rewrite H. auto. Qed.

Lemma apply_div_small (a b : float) (st : state) :
  calculator_error st = false ->
  F32.ltb (F32.fabsf b) F32.FLOAT_EPSILON = true ->
  execute_apply_operator "/" a b st = (F32.zero, set_error Err_Div_Zero st).
Proof. intros H Hb. unfold execute_apply_operator. rewrite H. cbn. now rewrite Hb. Qed.

Lemma apply_div_large (a b : float) (st : state) :
  calculator_error st = false ->
  F32.ltb (F32.fabsf b) F32.FLOAT_EPSILON = false ->
  execute_apply_operator "/" a b st = (F32.div a b, st).
Proof. intros H Hb. unfold execute_apply_operator. rewrite H. cbn. now rewrite Hb. Qed.

Lemma apply_top_div_small (a b : float) (vals : list float) (st : state) :
  calculator_error st = false ->
  F32.ltb (F32.fabsf b) F32.FLOAT_EPSILON = true ->
  apply_top "/" (b :: a :: vals) st
  = (Return F32.zero, set_error Err_Div_Zero st).
Proof.
  intros H Hb. unfold apply_top. rewrite apply_div_small by assumption.
  now rewrite set_error_sets.
Qed.

(** ** The operators *)

Lemma operator_cases (op : ascii) :
  is_operator op = true ->
  op = "+"%char \/ op = "-"%char \/ op = "*"%char \/ op = "/"%char.
Proof.
  unfold is_operator, is_add, is_mul. intros H.
  destruct (Ascii.eqb_spec op "+"); auto.
  destruct (Ascii.eqb_spec op "-"); auto.
  destruct (Ascii.eqb_spec op "*"); auto.
  destruct (Ascii.eqb_spec op "/"); auto.
  discriminate.
Qed.

Lemma is_add_cases (op : ascii) :
  is_add op = true -> op = "+"%char \/ op = "-"%char.
Proof.
  unfold is_add. intros H.
  destruct (Ascii.eqb_spec op "+"); auto.
  destruct (Ascii.eqb_spec op "-"); auto. discriminate.
Qed.

Lemma is_mul_cases (op : ascii) :
  is_mul op = true -> op = "*"%char \/ op = "/"%char.
Proof.
  unfold is_mul. intros H.
  destruct (Ascii.eqb_spec op "*"); auto.
  destruct (Ascii.eqb_spec op "/"); auto. discriminate.
Qed.

Lemma is_add_operator (op : ascii) : is_add op = true -> is_operator op = true.
Proof. unfold is_operator. now intros ->. Qed.

Lemma is_mul_operator (op : ascii) : is_mul op = true -> is_operator op = true.
Proof. unfold is_operator. intros ->. apply orb_true_r. Qed.

Lemma is_mul_not_add (op : ascii) : is_mul op = true -> is_add op = false.
Proof. intros H. now destruct (is_mul_cases op H) as [-> | ->]. Qed.

Lemma is_add_not_mul (op : ascii) : is_add op = true -> is_mul op = false.
Proof. intros H. now destruct (is_add_cases op H) as [-> | ->]. Qed.

Lemma precedence_add (op : ascii) : is_add op = true -> get_precedence op = 1.
Proof. intros H. now destruct (is_add_cases op H) as [-> | ->]. Qed.

Lemma precedence_mul (op : ascii) : is_mul op = true -> get_precedence op = 2.
Proof. intros H. now destruct (is_mul_cases op H) as [-> | ->]. Qed.

(** An operator survives its stay in [expr_data]. *)
Lemma operator_roundtrip (op : ascii) :
  is_operator op = true -> char_of_float (float_of_char op) = op.
Proof.
  intros H.
  destruct (operator_cases op H) as [-> | [-> | [-> | ->]]]; vm_compute; reflexivity.
Qed.

Lemma execute_apply_op (op : ascii) (a b : float) (st : state) :
  calculator_error st = false -> is_operator op = true ->
  execute_apply_operator op a b st
  = match apply_op op a b with
    | Some r => (r, st)
    | None => (F32.zero, set_error Err_Div_Zero st)
    end.
Proof.
  intros H Hop. unfold execute_apply_operator, apply_op. rewrite H.
  destruct (operator_cases op Hop) as [-> | [-> | [-> | ->]]]; cbn;
    try reflexivity.
  now destruct (F32.ltb _ _).
Qed.

Lemma apply_top_op (op : ascii) (a b : float) (rest : list float) (st : state) :
  calculator_error st = false -> is_operator op = true ->
  apply_top op (b :: a :: rest) st
  = outcome (option_map (fun r => r :: rest) (apply_op op a b)) st.
Proof.
  intros H Hop. unfold apply_top. rewrite execute_apply_op by assumption.
  destruct (apply_op op a b); cbn.
  - now rewrite H.
  - now rewrite set_error_sets.
Qed.

(** ** The index loop is the list loop *)

Lemma tokens_raises (st st' : state) :
  raises st st' -> tokens st' = tokens st /\ (buffer_ok st -> buffer_ok st').
Proof.
  intros R. destruct (raises_frame _ _ R) as (Ht & Hd & Hl & _).
  unfold tokens, buffer_ok. now rewrite Ht, Hd, Hl.
Qed.

Lemma token_loop_run (n : nat) :
  forall (i : Z) vals ops st,
    buffer_ok st -> 0 <= i -> i + Z.of_nat n <= expr_len st ->
    token_loop n i vals ops st
    = run_tokens (take n (drop (Z.to_nat i) (tokens st))) vals ops st.
Proof.
  induction n as [| n IH]; intros i vals ops st Hok Hi Hn; [reflexivity |].
  pose proof (tokens_lookup st i Hok ltac:(lia)) as Hk.
  assert (drop (Z.to_nat i) (tokens st)
          = (arr_get zero (expr_type st) i, arr_get F32.zero (expr_data st) i)
              :: drop (Z.to_nat (i + 1)) (tokens st)) as ->.
  { replace (Z.to_nat (i + 1)) with (S (Z.to_nat i)) by lia.
    now apply drop_S. }
  cbn [take token_loop run_tokens].
  destruct (Ascii.eqb _ "N").
  - destruct (MAX_TOKENS - 1 <=? top_index vals); [reflexivity |].
    apply IH; (assumption || lia).
  - pose proof (reduce_while_raises
                  (char_of_float (arr_get F32.zero (expr_data st) i)) ops vals st) as R.
    destruct (reduce_while _ vals ops st) as [[v | [vals1 ops1]] st1];
      [reflexivity |].
    cbn in R. destruct (tokens_raises _ _ R) as [Et Hok1].
    destruct (MAX_TOKENS - 1 <=? top_index ops1); [reflexivity |].
    rewrite <- Et. apply IH; [auto | lia |].
    destruct (raises_frame _ _ R) as (_ & _ & -> & _). lia.
Qed.

Lemma token_loop_all (st : state) :
  buffer_ok st ->
  token_loop (Z.to_nat (expr_len st)) 0 [] [] st = run_tokens (tokens st) [] [] st.
Proof.
  intros Hok. pose proof Hok as (_ & _ & Hl).
  rewrite token_loop_run by (assumption || lia).
  change (Z.to_nat 0) with 0%nat. rewrite drop_0.
  rewrite take_ge; [reflexivity |]. rewrite tokens_length by assumption. lia.
Qed.

(** ** The two stacks follow the grammar *)

Lemma value_term_pending (t : expr) :
  term t -> term_pending t = None -> value t = None.
Proof.
  intros [v | op l v Hop Hl]; cbn; [discriminate |].
  now destruct (value l).
Qed.

Lemma infix_pending_term (t : expr) : term t -> infix_pending t = term_pending t.
Proof.
  intros [v | op l v Hop Hl]; [reflexivity |].
  unfold infix_pending. now rewrite (is_mul_not_add op Hop).
Qed.

Lemma value_infix_pending (e : expr) :
  infix e -> infix_pending e = None -> value e = None.
Proof.
  intros [t Ht | op l t Hop Hl Ht].
  - rewrite infix_pending_term by assumption. now apply value_term_pending.
  - cbn. rewrite Hop. destruct (value l) as [a |]; [| reflexivity].
    destruct (term_pending t) as [[vals ops] |] eqn:E; [discriminate |].
    now rewrite (value_term_pending t Ht E).
Qed.

(** A multiplicative operator that arrives above the base applies nothing
    of it. *)
Lemma reduce_while_base (op : ascii) (vals : list float) (ops : list ascii)
    (st : state) :
  is_mul op = true -> base_ok ops ->
  reduce_while op vals ops st = (Next (vals, ops), st).
Proof.
  intros Hop Hb. destruct ops as [| p ops]; [reflexivity |].
  cbn in *. now rewrite (precedence_mul op Hop), (precedence_add p Hb).
Qed.

Lemma push_value_fits (vals : list float) :
  (length vals <= 49)%nat -> (MAX_TOKENS - 1 <=? top_index vals) = false.
Proof. intros H. apply Z.leb_gt. unfold top_index, MAX_TOKENS. lia. Qed.

Lemma push_operator_fits (ops : list ascii) :
  (length ops <= 49)%nat -> (MAX_TOKENS - 1 <=? top_index ops) = false.
Proof. intros H. apply Z.leb_gt. unfold top_index, MAX_TOKENS. lia. Qed.

(** The tokens [op v] that extend a term, read above the pending stacks of
    the term. *)
Lemma run_term_step (op : ascii) (l : expr) (v : float)
    (rest : list (ascii * float)) (vals0 : list float) (ops0 : list ascii)
    (st : state) :
  is_mul op = true -> term l ->
  calculator_error st = false -> base_ok ops0 ->
  (length vals0 <= 40)%nat -> (length ops0 <= 40)%nat ->
  match term_pending l with
  | Some (vals, ops) =>
      run_tokens (("O"%char, float_of_char op) :: ("N"%char, v) :: rest)
        (vals ++ vals0) (ops ++ ops0) st
  | None => (Return F32.zero, set_error Err_Div_Zero st)
  end
  = match term_pending (Bin op l (Num v)) with
    | Some (vals, ops) => run_tokens rest (vals ++ vals0) (ops ++ ops0) st
    | None => (Return F32.zero, set_error Err_Div_Zero st)
    end.
Proof.
  intros Hop Hl H Hb Hv Ho.
  pose proof (operator_roundtrip op (is_mul_operator op Hop)) as Hrt.
  destruct Hl as [v' | op' l' v' Hop' Hl'].
  - cbn [term_pending value app run_tokens]. rewrite Hrt.
    change (Ascii.eqb "O" "N") with false. cbv iota.
    change (Ascii.eqb "N" "N") with true. cbv iota.
    rewrite reduce_while_base by assumption.
    rewrite push_operator_fits by lia.
    rewrite push_value_fits by (cbn; lia). reflexivity.
  - cbn [term_pending value].
    destruct (value l') as [a' |]; [| reflexivity].
    cbn [app run_tokens]. rewrite Hrt.
    change (Ascii.eqb "O" "N") with false. cbv iota.
    cbn [reduce_while].
    rewrite (precedence_mul op Hop), (precedence_mul op' Hop').
    change (2 <=? 2) with true. cbv iota.
    rewrite apply_top_op by auto using is_mul_operator.
    destruct (apply_op op' a' v') as [r |]; cbn [option_map outcome]; [| reflexivity].
    rewrite reduce_while_base by assumption.
    rewrite push_operator_fits by lia.
    change (Ascii.eqb "N" "N") with true. cbv iota.
    rewrite push_value_fits by (cbn; lia). reflexivity.
Qed.

Lemma run_term (t : expr) :
  term t ->
  forall (rest : list (ascii * float)) (vals0 : list float) (ops0 : list ascii)
         (st : state),
    calculator_error st = false -> base_ok ops0 ->
    (length vals0 <= 40)%nat -> (length ops0 <= 40)%nat ->
    run_tokens (flatten t ++ rest) vals0 ops0 st
    = match term_pending t with
      | Some (vals, ops) => run_tokens rest (vals ++ vals0) (ops ++ ops0) st
      | None => (Return F32.zero, set_error Err_Div_Zero st)
      end.
Proof.
  induction 1 as [v | op l v Hop Hl IH]; intros rest vals0 ops0 st H Hb Hv Ho.
  - cbn [flatten app run_tokens term_pending].
    change (Ascii.eqb "N" "N") with true. cbv iota.
    now rewrite push_value_fits by lia.
  - cbn [flatten]. rewrite <- app_assoc. cbn [app].
    rewrite IH by assumption. now apply run_term_step.
Qed.

(** Draining the pending stacks of an infix expression gives its value. *)
Lemma drain_pending (e : expr) (vals : list float) (ops : list ascii)
    (st : state) :
  infix e -> infix_pending e = Some (vals, ops) ->
  calculator_error st = false ->
  drain vals ops st = outcome (option_map (fun a => [a]) (value e)) st.
Proof.
  intros He E H.
  assert (term_drain : forall t vals ops base_vals base_ops,
    term t -> term_pending t = Some (vals, ops) ->
    drain (vals ++ base_vals) (ops ++ base_ops) st
    = match value t with
      | Some b => drain (b :: base_vals) base_ops st
      | None => (Return F32.zero, set_error Err_Div_Zero st)
      end).
  { intros t vs os bv bo [v | op l v Hop Hl]; cbn [term_pending value].
    - now intros [= <- <-].
    - destruct (value l) as [a |]; [| discriminate]. intros [= <- <-].
      cbn [app drain]. rewrite apply_top_op by auto using is_mul_operator.
      now destruct (apply_op op a v). }
  destruct He as [t Ht | op l t Hop Hl Ht].
  - rewrite infix_pending_term in E by assumption.
    rewrite <- (app_nil_r vals), <- (app_nil_r ops).
    rewrite (term_drain t vals ops [] [] Ht E).
    now destruct (value t).
  - cbn [infix_pending value] in *. rewrite Hop in E.
    destruct (value l) as [a |]; [| discriminate].
    destruct (term_pending t) as [[vs os] |] eqn:Et; [| discriminate].
    injection E as <- <-.
    rewrite (term_drain t vs os [a] [op] Ht Et).
    destruct (value t) as [b |]; [| reflexivity].
    cbn [drain]. rewrite apply_top_op by auto using is_add_operator.
    now destruct (apply_op op a b).
Qed.

(** The operators on the stack are operators. *)
Lemma pending_operators (e : expr) (vals : list float) (ops : list ascii) :
  infix e -> infix_pending e = Some (vals, ops) ->
  Forall (fun op => is_operator op = true) ops.
Proof.
  assert (term_ops : forall t vs os,
    term t -> term_pending t = Some (vs, os) ->
    Forall (fun op => is_operator op = true) os).
  { intros t vs os [v | op l v Hop Hl]; cbn.
    - intros [= <- <-]. constructor.
    - destruct (value l); [| discriminate]. intros [= <- <-].
      repeat constructor. now apply is_mul_operator. }
  intros [t Ht | op l t Hop Hl Ht] E.
  - rewrite infix_pending_term in E by assumption. eauto.
  - cbn in E. rewrite Hop in E.
    destruct (value l); [| discriminate].
    destruct (term_pending t) as [[vs os] |] eqn:Et; [| discriminate].
    injection E as <- <-. apply Forall_app. split; [eauto |].
    repeat constructor. now apply is_add_operator.
Qed.

(** An additive operator that arrives applies everything that is stacked. *)
Lemma reduce_while_all (op : ascii) (ops : list ascii) :
  is_add op = true -> Forall (fun o => is_operator o = true) ops ->
  forall vals st,
    reduce_while op vals ops st
    = match drain vals ops st with
      | (Return v, st1) => (Return v, st1)
      | (Next vals1, st1) => (Next (vals1, []), st1)
      end.
Proof.
  intros Hop. induction 1 as [| o ops Ho Hops IH]; intros vals st; [reflexivity |].
  cbn [reduce_while drain]. rewrite (precedence_add op Hop).
  assert ((1 <=? get_precedence o) = true) as ->.
  { destruct (operator_cases o Ho) as [-> | [-> | [-> | ->]]]; reflexivity. }
  destruct (apply_top o vals st) as [[v | vals1] st1]; [reflexivity | apply IH].
Qed.

Lemma run_infix (e : expr) :
  infix e ->
  forall (rest : list (ascii * float)) (st : state),
    calculator_error st = false ->
    run_tokens (flatten e ++ rest) [] [] st
    = match infix_pending e with
      | Some (vals, ops) => run_tokens rest vals ops st
      | None => (Return F32.zero, set_error Err_Div_Zero st)
      end.
Proof.
  induction 1 as [t Ht | op l t Hop Hl IH Ht]; intros rest st H.
  - rewrite run_term by (cbn; auto with arith).
    rewrite infix_pending_term by assumption.
    destruct (term_pending t) as [[vals ops] |]; [| reflexivity].
    now rewrite !app_nil_r.
  - cbn [flatten]. rewrite <- app_assoc. cbn [app].
    rewrite IH by assumption.
    cbn [infix_pending]. rewrite Hop.
    destruct (infix_pending l) as [[vals ops] |] eqn:El.
    2: { now rewrite (value_infix_pending l Hl El). }
    cbn [run_tokens]. change (Ascii.eqb "O" "N") with false. cbv iota.
    rewrite (operator_roundtrip op (is_add_operator op Hop)).
    rewrite reduce_while_all by eauto using pending_operators.
    rewrite (drain_pending l vals ops st Hl El H).
    destruct (value l) as [a |]; cbn [option_map outcome]; [| reflexivity].
    change (MAX_TOKENS - 1 <=? top_index []) with false. cbv iota.
    rewrite run_term by (cbn; auto with arith).
    now destruct (term_pending t) as [[vs os] |].
Qed.

Lemma flatten_last (e : expr) :
  exists ts v, flatten e = ts ++ [("N"%char, v)].
Proof.
  induction e as [v | op l _ r [ts [v E]]]; cbn.
  - now exists [], v.
  - exists (flatten l ++ ("O"%char, float_of_char op) :: ts), v.
    rewrite E, <- app_assoc. reflexivity.
Qed.

Lemma flatten_single (e : expr) :
  length (flatten e) = 1%nat -> exists v, e = Num v.
Proof.
  destruct e as [v | op l r]; [now exists v |].
  cbn. rewrite length_app. cbn.
  destruct (flatten_last r) as (ts & v & ->). rewrite length_app. cbn. lia.
Qed.

(** The evaluator computes the value of the tree that the tokens spell. *)
Lemma evaluate_infix (e : expr) (st : state) :
  infix e -> buffer_ok st -> calculator_error st = false ->
  tokens st = flatten e ->
  evaluate_full_expression st
  = match value e with
    | Some v => (v, st)
    | None => (F32.zero, set_error Err_Div_Zero st)
    end.
Proof.
  intros He Hok H E.
  pose proof (tokens_length st Hok) as Hlen.
  destruct (flatten_last e) as (ts & v & Ef).
  rewrite <- E in Ef.
  destruct (tokens_last st ts "N" v Hok Ef) as (Hpos & Hty & Hda).
  unfold evaluate_full_expression. rewrite H, Hty.
  destruct (Z.eqb_spec (expr_len st) 0); [lia |].
  change (Ascii.eqb "N" "O") with false. rewrite andb_false_r.
  destruct (Z.eqb_spec (expr_len st) 1) as [E1 | N1].
  - rewrite E1 in Hty, Hda. change (1 - 1) with 0 in Hty, Hda.
    rewrite Hty, Hda.
    destruct (flatten_single e) as [w ->]; [rewrite <- E, Hlen, E1; reflexivity |].
    cbn in *. rewrite E in Ef.
    destruct ts as [| t [| t' ts]]; try discriminate.
    now injection Ef as ->.
  - cbn [andb]. rewrite token_loop_all by assumption.
    rewrite E, <- (app_nil_r (flatten e)), run_infix by assumption.
    destruct (infix_pending e) as [[vals ops] |] eqn:Ep.
    + cbn [run_tokens]. rewrite (drain_pending e vals ops st He Ep H).
      now destruct (value e).
    + now rewrite (value_infix_pending e He Ep).
Qed.

(** ** The tree of a token sequence *)

Lemma infix_tokens_snoc (first : float) (rest : list (ascii * float))
    (op : ascii) (v : float) (more : list (ascii * float)) :
  infix_tokens first rest ++ ("O"%char, float_of_char op) :: infix_tokens v more
  = infix_tokens first (rest ++ (op, v) :: more).
Proof.
  unfold infix_tokens. cbn. f_equal.
  induction rest as [| [o w] rest IH]; cbn; [reflexivity |].
  now rewrite IH.
Qed.

(** Reading a term: the tokens of [t] take the parser from [Num first] to
    [t], whatever sum is pending. *)
Lemma term_tokens (t : expr) :
  term t ->
  exists (first : float) (rest : list (ascii * float)),
    flatten t = infix_tokens first rest /\
    Forall (fun '(op, _) => is_mul op = true) rest /\
    forall acc more,
      parse_rest acc (Num first) (rest ++ more) = parse_rest acc t more.
Proof.
  induction 1 as [v | op l v Hop Hl (first & rest & Ef & Hops & Hp)].
  - exists v, []. repeat split. constructor.
  - exists first, (rest ++ [(op, v)]). split; [| split].
    + cbn [flatten]. rewrite Ef. apply (infix_tokens_snoc first rest op v []).
    + apply Forall_app. split; [exact Hops |]. now repeat constructor.
    + intros acc more. rewrite <- app_assoc, Hp. cbn. now rewrite Hop.
Qed.

Lemma infix_tokens_exist (e : expr) :
  infix e ->
  exists (first : float) (rest : list (ascii * float)),
    flatten e = infix_tokens first rest /\
    Forall (fun '(op, _) => is_operator op = true) rest /\
    exists acc t,
      close acc t = e /\
      forall more, parse_rest None (Num first) (rest ++ more) = parse_rest acc t more.
Proof.
  induction 1 as [t Ht | op l t Hop Hl (first & rest & Ef & Hops & acc & tl & Ec & Hp) Ht].
  - destruct (term_tokens t Ht) as (first & rest & Ef & Hops & Hp).
    exists first, rest. split; [exact Ef |]. split.
    + eapply Forall_impl; [exact Hops |]. intros [o w]. apply is_mul_operator.
    + exists None, t. split; [reflexivity |]. intros more. apply Hp.
  - destruct (term_tokens t Ht) as (ft & rt & Eft & Hopst & Hpt).
    exists first, (rest ++ (op, ft) :: rt). split; [| split].
    + cbn [flatten]. rewrite Ef, Eft. apply infix_tokens_snoc.
    + apply Forall_app. split; [exact Hops |]. constructor.
      * now apply is_add_operator.
      * eapply Forall_impl; [exact Hopst |]. intros [o w]. apply is_mul_operator.
    + exists (Some (l, op)), t. split; [reflexivity |]. intros more.
      rewrite <- app_assoc, Hp. cbn [app parse_rest].
      rewrite (is_add_not_mul op Hop), Ec. apply Hpt.
Qed.

Lemma parse_rest_infix (rest : list (ascii * float)) :
  Forall (fun '(op, _) => is_operator op = true) rest ->
  forall acc t,
    term t -> infix (close acc t) ->
    (forall t', term t' -> infix (close acc t')) ->
    infix (parse_rest acc t rest) /\
    flatten (parse_rest acc t rest)
    = flatten (close acc t)
      ++ flat_map (fun '(op, v) => [("O"%char, float_of_char op); ("N"%char, v)]) rest.
Proof.
  induction 1 as [| [op v] rest Hop Hrest IH]; intros acc t Ht Hc Hacc.
  - cbn. now rewrite app_nil_r.
  - cbn [parse_rest flat_map]. destruct (is_mul op) eqn:Em.
    + assert (term (Bin op t (Num v))) as Ht' by now constructor.
      destruct (IH acc (Bin op t (Num v)) Ht' (Hacc _ Ht') Hacc) as [Hi Hf].
      split; [exact Hi |]. rewrite Hf.
      destruct acc as [[l o] |]; cbn [close flatten flat_map];
        repeat (progress cbn [app] || rewrite <- app_assoc); reflexivity.
    + assert (is_add op = true) as Ea.
      { unfold is_operator in Hop. rewrite Em in Hop. now rewrite orb_false_r in Hop. }
      assert (forall t', term t' -> infix (close (Some (close acc t, op)) t')) as Hacc'.
      { intros t' Ht'. cbn. now constructor. }
      destruct (IH (Some (close acc t, op)) (Num v) (term_num v)
                  (Hacc' _ (term_num v)) Hacc') as [Hi Hf].
      split; [exact Hi |]. rewrite Hf. cbn [close flatten flat_map].
      repeat (progress cbn [app] || rewrite <- app_assoc); reflexivity.
Qed.

(** [parse_infix] builds a tree of the grammar that spells the tokens. *)
Lemma parse_infix_sound (first : float) (rest : list (ascii * float)) :
  Forall (fun '(op, _) => is_operator op = true) rest ->
  infix (parse_infix first rest) /\
  flatten (parse_infix first rest) = infix_tokens first rest.
Proof.
  intros H. unfold parse_infix.
  apply (parse_rest_infix rest H None (Num first)).
  - constructor.
  - cbn. do 2 constructor.
  - intros t' Ht'. cbn. now constructor.
Qed.

Lemma float_of_char_inj (a b : ascii) :
  is_operator a = true -> is_operator b = true ->
  float_of_char a = float_of_char b -> a = b.
Proof.
  intros Ha Hb E.
  rewrite <- (operator_roundtrip a Ha), <- (operator_roundtrip b Hb).
  now rewrite E.
Qed.

Lemma infix_tokens_inj (first first' : float) (rest rest' : list (ascii * float)) :
  Forall (fun '(op, _) => is_operator op = true) rest ->
  Forall (fun '(op, _) => is_operator op = true) rest' ->
  infix_tokens first rest = infix_tokens first' rest' ->
  first = first' /\ rest = rest'.
Proof.
  unfold infix_tokens. intros H H' E. injection E as -> E. split; [reflexivity |].
  revert rest' H' E.
  induction H as [| [op v] rest Hop _ IH]; intros [| [op' v'] rest'] H' E;
    try discriminate; [reflexivity |].
  cbn in E. injection E as Eop -> E. inversion_clear H' as [| ? ? Hop' Hrest'].
  f_equal; [| now apply IH].
  f_equal. now apply float_of_char_inj.
Qed.

(** ... and it is the only such tree. *)
Lemma parse_infix_unique (first : float) (rest : list (ascii * float)) (e : expr) :
  Forall (fun '(op, _) => is_operator op = true) rest ->
  infix e -> flatten e = infix_tokens first rest ->
  e = parse_infix first rest.
Proof.
  intros H He E.
  destruct (infix_tokens_exist e He) as (f & r & Ef & Hr & acc & t & Ec & Hp).
  rewrite Ef in E.
  destruct (infix_tokens_inj f first r rest Hr H E) as [-> ->].
  unfold parse_infix. specialize (Hp []). rewrite app_nil_r in Hp.
  rewrite Hp. cbn. now symmetry.
Qed.

(** C1. On a well-formed buffer [first (op number)*] over the four
    operators, with no error active, [evaluate_full_expression] returns the
    value of the one tree that the infix grammar (['+'], ['-'] at level 1,
    ['*'], ['/'] at level 2, each level grouping from the left) gives to the
    tokens, and leaves the state alone; when a division inside that tree
    faults it returns 0.0 with "Err: Div Zero".  In particular 2+3*4 is 14,
    2*3+4 is 10 and 10-2+3 is 11, with no error. *)
Theorem evaluate_precedence :
  (get_precedence "+" = 1 /\ get_precedence "-" = 1 /\
   get_precedence "*" = 2 /\ get_precedence "/" = 2) /\
  (forall (first : float) (rest : list (ascii * float)) (st : state),
      Forall (fun '(op, _) => is_operator op = true) rest ->
      buffer_ok st -> calculator_error st = false ->
      tokens st = infix_tokens first rest ->
      let e := parse_infix first rest in
      infix e /\ flatten e = infix_tokens first rest /\
      (forall e', infix e' -> flatten e' = infix_tokens first rest -> e' = e) /\
      evaluate_full_expression st
      = match value e with
        | Some v => (v, st)
        | None => (F32.zero, set_error Err_Div_Zero st)
        end) /\
  (forall st : state,
      buffer_ok st -> calculator_error st = false ->
      (tokens st
       = infix_tokens (F32.of_Z 2) [("+"%char, F32.of_Z 3); ("*"%char, F32.of_Z 4)] ->
       evaluate_full_expression st = (F32.of_Z 14, st)) /\
      (tokens st
       = infix_tokens (F32.of_Z 2) [("*"%char, F32.of_Z 3); ("+"%char, F32.of_Z 4)] ->
       evaluate_full_expression st = (F32.of_Z 10, st)) /\
      (tokens st
       = infix_tokens (F32.of_Z 10) [("-"%char, F32.of_Z 2); ("+"%char, F32.of_Z 3)] ->
       evaluate_full_expression st = (F32.of_Z 11, st))).
Proof.
  assert (main : forall first rest st,
    Forall (fun '(op, _) => is_operator op = true) rest ->
    buffer_ok st -> calculator_error st = false ->
    tokens st = infix_tokens first rest ->
    evaluate_full_expression st
    = match value (parse_infix first rest) with
      | Some v => (v, st)
      | None => (F32.zero, set_error Err_Div_Zero st)
      end).
  { intros first rest st Hops Hok H E.
    destruct (parse_infix_sound first rest Hops) as [Hi Hf].
    apply evaluate_infix; auto. congruence. }
  split; [repeat split | split].
  - intros first rest st Hops Hok H E e.
    destruct (parse_infix_sound first rest Hops) as [Hi Hf].
    split; [exact Hi | split; [exact Hf | split]].
    + intros e' He' Hf'. now apply parse_infix_unique.
    + now apply main.
  - intros st Hok H. repeat split; intros E;
      pose proof (fun Hops => main _ _ st Hops Hok H E) as M;
      rewrite M by (repeat constructor); vm_compute; reflexivity.
Qed.

(** The buffer of [test_eval_precedence]. *)
Lemma evaluate_precedence_witness :
  evaluate_full_expression
    (setup_expression
       (infix_tokens (F32.of_Z 2)
          [("+"%char, F32.of_Z 3); ("*"%char, F32.of_Z 4)]) power_on)
  = (F32.of_Z 14,
     setup_expression
       (infix_tokens (F32.of_Z 2)
          [("+"%char, F32.of_Z 3); ("*"%char, F32.of_Z 4)]) power_on).
Proof.
  refine (proj1 (proj2 (proj2 evaluate_precedence) _ _ _) _).
  - unfold buffer_ok. vm_compute. intuition discriminate.
  - reflexivity.
  - vm_compute. reflexivity.
Defined.

Lemma precedence_le_2 (op : ascii) : get_precedence op <= 2.
Proof.
  unfold get_precedence.
  destruct (_ || _)%bool; [lia |]. destruct (_ || _)%bool; lia.
Qed.

(** C6. With no error active, ['/'] on a divisor of magnitude below
    [FLOAT_EPSILON] returns 0.0 with "Err: Div Zero"; the loop that applied
    it returns at once, whatever operators are still stacked and whatever
    tokens are still unread, and so does the evaluation of every infix
    expression in which a division faults.  ['+'], ['-'] and ['*'] never
    touch the state and return the rounded sum, difference and product. *)
Theorem division_by_zero_aborts :
  (forall (a b : float) (st : state),
      calculator_error st = false ->
      F32.ltb (F32.fabsf b) F32.FLOAT_EPSILON = true ->
      execute_apply_operator "/" a b st = (F32.zero, set_error Err_Div_Zero st) /\
      calculator_error (set_error Err_Div_Zero st) = true /\
      error_message (set_error Err_Div_Zero st) = Err_Div_Zero /\
      (forall (vals : list float) (ops : list ascii),
          drain (b :: a :: vals) ("/"%char :: ops) st
          = (Return F32.zero, set_error Err_Div_Zero st)) /\
      (forall (cur : ascii) (vals : list float) (ops : list ascii),
          reduce_while cur (b :: a :: vals) ("/"%char :: ops) st
          = (Return F32.zero, set_error Err_Div_Zero st)) /\
      (forall (d : float) (more : list (ascii * float))
              (vals : list float) (ops : list ascii),
          run_tokens (("O"%char, d) :: more) (b :: a :: vals) ("/"%char :: ops) st
          = (Return F32.zero, set_error Err_Div_Zero st))) /\
  (forall (e : expr) (st : state),
      infix e -> buffer_ok st -> calculator_error st = false ->
      tokens st = flatten e -> value e = None ->
      evaluate_full_expression st = (F32.zero, set_error Err_Div_Zero st)) /\
  (forall (a b : float) (st : state),
      snd (execute_apply_operator "+" a b st) = st /\
      snd (execute_apply_operator "-" a b st) = st /\
      snd (execute_apply_operator "*" a b st) = st /\
      (calculator_error st = false ->
       fst (execute_apply_operator "+" a b st) = F32.add a b /\
       fst (execute_apply_operator "-" a b st) = F32.sub a b /\
       fst (execute_apply_operator "*" a b st) = F32.mul a b)).
Proof.
  split; [| split].
  - intros a b st H Hb.
    assert (forall vals, apply_top "/" (b :: a :: vals) st
                         = (Return F32.zero, set_error Err_Div_Zero st)) as Htop
      by (intros; now apply apply_top_div_small).
    assert (forall cur vals ops,
               reduce_while cur (b :: a :: vals) ("/"%char :: ops) st
               = (Return F32.zero, set_error Err_Div_Zero st)) as Hred.
    { intros cur vals ops. cbn [reduce_while].
      change (get_precedence "/") with 2.
      pose proof (precedence_le_2 cur) as Hp. apply Z.leb_le in Hp.
      now rewrite Hp, Htop. }
    split; [now apply apply_div_small |].
    split; [apply set_error_sets |].
    split; [unfold set_error; now rewrite H |].
    split; [| split].
    + intros vals ops. cbn [drain]. now rewrite Htop.
    + exact Hred.
    + intros d more vals ops. cbn [run_tokens].
      change (Ascii.eqb "O" "N") with false. cbv iota. now rewrite Hred.
  - intros e st He Hok H E Hv.
    rewrite (evaluate_infix e st He Hok H E). now rewrite Hv.
  - intros a b st. unfold execute_apply_operator.
    destruct (calculator_error st); cbn; repeat split; discriminate.
Qed.

(** ** The number parser *)

Lemma get_lookup (s : string) :
  forall n : nat, String.get n s = list_ascii_of_string s !! n.
Proof.
  induction s as [| c s IH]; intros [| n]; cbn; auto.
Qed.

Lemma length_list_ascii (s : string) :
  length (list_ascii_of_string s) = String.length s.
Proof. induction s as [| c s IH]; cbn; congruence. Qed.

Lemma str_at_drop (s : string) (i : Z) (c : ascii) (cs : list ascii) :
  0 <= i -> drop (Z.to_nat i) (list_ascii_of_string s) = c :: cs ->
  str_at s i = c /\ drop (Z.to_nat (i + 1)) (list_ascii_of_string s) = cs.
Proof.
  intros Hi E. unfold str_at. rewrite get_lookup.
  assert (list_ascii_of_string s !! Z.to_nat i = Some c) as Hk.
  { rewrite <- (Nat.add_0_r (Z.to_nat i)), <- lookup_drop, E. reflexivity. }
  rewrite Hk. split; [reflexivity |].
  replace (Z.to_nat (i + 1)) with (S (Z.to_nat i)) by lia.
  erewrite drop_S in E by exact Hk. now injection E.
Qed.

(** The index loop of the parser is [scan_list] on the text that is left. *)
Lemma scan_digits_list (cs : list ascii) :
  forall (i : Z) (r m : float) (d : bool) (st : state),
    0 <= i ->
    drop (Z.to_nat i) (list_ascii_of_string (current_num_str st)) = cs ->
    scan_digits (length cs) i r m d st
    = match scan_list cs r m d with
      | Some v => (Next v, st)
      | None => (Return F32.zero, set_error Err_Syntax st)
      end.
Proof.
  induction cs as [| c cs IH]; intros i r m d st Hi E; [reflexivity |].
  destruct (str_at_drop _ i c cs Hi E) as [Hc E'].
  cbn [length scan_digits scan_list]. rewrite Hc. fold (is_digit c).
  fold (digit_of c).
  destruct (Ascii.eqb c ".").
  - destruct d; [reflexivity |]. apply IH; [lia | exact E'].
  - destruct (is_digit c); [| reflexivity].
    destruct d; cbn [negb]; apply IH; (lia || exact E').
Qed.

Lemma parse_text (st : state) (text : string) :
  holds st text ->
  parse_current_input_number st
  = match parse_chars (list_ascii_of_string text) with
    | Some v => (v, st)
    | None => (F32.zero, set_error Err_Syntax st)
    end.
Proof.
  intros [Es Ei]. unfold parse_current_input_number. rewrite Ei, Es.
  unfold strlen. rewrite <- length_list_ascii.
  assert (forall i cs, 0 <= i ->
            drop (Z.to_nat i) (list_ascii_of_string text) = cs ->
            forall r m d,
              scan_digits (length cs) i r m d st
              = match scan_list cs r m d with
                | Some v => (Next v, st)
                | None => (Return F32.zero, set_error Err_Syntax st)
                end) as Hscan.
  { intros i cs Hi E r m d. apply scan_digits_list; [exact Hi | now rewrite Es]. }
  assert (forall c cs, list_ascii_of_string text = c :: cs -> str_at text 0 = c) as H0.
  { intros c cs E. now destruct (str_at_drop text 0 c cs ltac:(lia) E). }
  destruct (list_ascii_of_string text) as [| c [| c' cs]] eqn:E; [reflexivity | |].
  - (* one character *)
    rewrite (H0 c [] eq_refl). cbn [length Z.of_nat Pos.of_succ_nat].
    change (1 =? 0) with false. change (1 =? 1) with true. cbn [andb parse_chars].
    destruct (Ascii.eqb_spec c "-") as [-> | Hm]; [reflexivity |].
    destruct (Ascii.eqb_spec c ".") as [-> | Hd]; [reflexivity |].
    cbn [orb]. change (Z.to_nat (1 - 0)) with (length [c]).
    rewrite (Hscan 0 [c] ltac:(lia) eq_refl).
    now destruct (scan_list [c] F32.zero F32.tenth false).
  - (* two characters or more *)
    rewrite (H0 c (c' :: cs) eq_refl).
    assert ((Z.of_nat (length (c :: c' :: cs)) =? 0) = false) as -> by (apply Z.eqb_neq; cbn; lia).
    assert ((Z.of_nat (length (c :: c' :: cs)) =? 1) = false) as -> by (apply Z.eqb_neq; cbn [length]; lia).
    cbn [andb parse_chars split_sign].
    destruct (Ascii.eqb c "-").
    + replace (Z.to_nat (Z.of_nat (length (c :: c' :: cs)) - 1))
        with (length (c' :: cs)) by (cbn [length]; lia).
      rewrite (Hscan 1 (c' :: cs) ltac:(lia) eq_refl).
      now destruct (scan_list _ _ _ _).
    + replace (Z.to_nat (Z.of_nat (length (c :: c' :: cs)) - 0))
        with (length (c :: c' :: cs)) by lia.
      rewrite (Hscan 0 (c :: c' :: cs) ltac:(lia) eq_refl).
      now destruct (scan_list _ _ _ _).
Qed.

Lemma scan_list_dots (cs : list ascii) :
  forall (r m : float) (d : bool),
    (2 <= count_dots cs + (if d then 1 else 0))%nat ->
    scan_list cs r m d = None.
Proof.
  induction cs as [| c cs IH]; intros r m d H; cbn in *; [destruct d; lia |].
  destruct (Ascii.eqb c ".").
  - destruct d; [reflexivity |]. apply IH. cbn. lia.
  - destruct (is_digit c); [| reflexivity].
    destruct d; cbn [negb]; apply IH; cbn in *; lia.
Qed.

Lemma scan_list_foreign (cs : list ascii) (c : ascii) :
  In c cs -> is_digit c = false -> c <> "."%char ->
  forall (r m : float) (d : bool), scan_list cs r m d = None.
Proof.
  intros Hin Hc Hdot.
  induction cs as [| h cs IH]; intros r m d; [destruct Hin |].
  cbn [scan_list].
  destruct Hin as [-> | Hin].
  - destruct (Ascii.eqb_spec c "."); [contradiction |]. now rewrite Hc.
  - destruct (Ascii.eqb h ".").
    + destruct d; [reflexivity | now apply IH].
    + destruct (is_digit h); [| reflexivity].
      destruct d; cbn [negb]; now apply IH.
Qed.

Lemma parse_chars_dots (cs : list ascii) :
  (2 <= count_dots cs)%nat -> parse_chars cs = None.
Proof.
  intros H. destruct cs as [| c [| c' cs]].
  - cbn in H. lia.
  - cbn in H. destruct (Ascii.eqb c "."); cbn in H; lia.
  - cbn [parse_chars split_sign].
    destruct (Ascii.eqb_spec c "-") as [-> | Hm].
    + rewrite scan_list_dots; [reflexivity |]. cbn in H |- *. lia.
    + rewrite scan_list_dots; [reflexivity |]. lia.
Qed.

Lemma parse_chars_foreign (cs : list ascii) (c : ascii) :
  In c cs -> foreign c -> parse_chars cs = None.
Proof.
  intros Hin (Hdig & Hdot & Hminus). destruct cs as [| h [| h' cs]].
  - destruct Hin.
  - destruct Hin as [-> | []]. cbn [parse_chars].
    destruct (Ascii.eqb_spec c "-"); [contradiction |].
    destruct (Ascii.eqb_spec c "."); [contradiction |].
    cbn [orb]. apply (scan_list_foreign [c] c); cbn; auto.
  - cbn [parse_chars split_sign].
    destruct (Ascii.eqb_spec h "-") as [-> | Hm].
    + rewrite (scan_list_foreign (h' :: cs) c); auto.
      destruct Hin as [E | Hin]; [congruence | exact Hin].
    + rewrite (scan_list_foreign (h :: h' :: cs) c); auto.
Qed.

(** C3. The empty entry parses to 0.0 and leaves the state alone.  The
    entries "-" and ".", every entry with a second ['.'] (such as "1.2.3")
    and every entry with a character outside [0-9.-] (such as "12a3")
    parse to 0.0 with the state after [set_error("Err: Syntax")]: with no
    error active before, the error is then active with that message. *)
Theorem parse_faults :
  (forall st : state,
      holds st EmptyString ->
      parse_current_input_number st = (F32.zero, st)) /\
  (forall (st : state) (text : string),
      holds st text ->
      text = "-"%string \/ text = "."%string \/
      (2 <= count_dots (list_ascii_of_string text))%nat \/
      (exists c, In c (list_ascii_of_string text) /\ foreign c) ->
      parse_current_input_number st = (F32.zero, set_error Err_Syntax st) /\
      (calculator_error st = false ->
       calculator_error (set_error Err_Syntax st) = true /\
       error_message (set_error Err_Syntax st) = Err_Syntax)) /\
  (2 <= count_dots (list_ascii_of_string "1.2.3"))%nat /\
  (In "a"%char (list_ascii_of_string "12a3") /\ foreign "a"%char).
Proof.
  split; [| split; [| split]].
  - intros st H. now rewrite (parse_text st EmptyString H).
  - intros st text H Hcase. split.
    + rewrite (parse_text st text H).
      assert (parse_chars (list_ascii_of_string text) = None) as ->; [| reflexivity].
      destruct Hcase as [-> | [-> | [Hd | (c & Hin & Hc)]]];
        [reflexivity | reflexivity | now apply parse_chars_dots
        | now apply (parse_chars_foreign _ c)].
    + intros He. unfold set_error. now rewrite He.
  - cbn. lia.
  - split; [cbn; auto |]. repeat split; discriminate.
Qed.

(** ** The parser against the wording of the specification *)

Lemma digit_not_dot (c : ascii) : is_digit c = true -> Ascii.eqb c "." = false.
Proof.
  intros H. destruct (Ascii.eqb_spec c ".") as [-> |]; [discriminate | reflexivity].
Qed.

Lemma accumulate_integer_fold (digits : list ascii) :
  accumulate_integer digits = fold_left integer_step digits F32.zero.
Proof. reflexivity. Qed.

Lemma accumulate_fraction_fold (digits : list ascii) (acc : float) :
  accumulate_fraction digits acc
  = fst (fold_left fraction_step digits (acc, F32.tenth)).
Proof.
  unfold accumulate_fraction. f_equal.
  generalize (acc, F32.tenth). induction digits as [| c ds IH]; intros [v m];
    cbn; [reflexivity | apply IH].
Qed.

Lemma scan_list_fraction (ds : list ascii) :
  forall v m : float,
    forallb is_digit ds = true ->
    scan_list ds v m true = Some (fst (fold_left fraction_step ds (v, m))).
Proof.
  induction ds as [| c ds IH]; intros v m H; [reflexivity |].
  cbn in H. apply andb_prop in H as [Hc Hds].
  cbn [scan_list fold_left]. rewrite (digit_not_dot c Hc), Hc. cbn [negb].
  now apply IH.
Qed.

Lemma entry_no_dots (body : list ascii) :
  forallb (fun c => (is_digit c || Ascii.eqb c ".")%bool) body = true ->
  count_dots body = 0%nat -> forallb is_digit body = true.
Proof.
  induction body as [| c body IH]; intros H Hd; [reflexivity |].
  cbn in *. apply andb_prop in H as [Hc Hb].
  destruct (Ascii.eqb c "."); [discriminate |].
  rewrite orb_false_r in Hc. rewrite Hc. now apply IH.
Qed.

Lemma scan_list_entry (body : list ascii) :
  forall acc : float,
    forallb (fun c => (is_digit c || Ascii.eqb c ".")%bool) body = true ->
    (count_dots body <= 1)%nat ->
    scan_list body acc F32.tenth false
    = Some (fst (fold_left fraction_step (fraction_digits body)
                   (fold_left integer_step (integer_digits body) acc, F32.tenth))).
Proof.
  induction body as [| c body IH]; intros acc H Hd; [reflexivity |].
  cbn in H, Hd. apply andb_prop in H as [Hc Hb].
  cbn [scan_list]. unfold fraction_digits, integer_digits. cbn [split_at_dot].
  destruct (Ascii.eqb c ".") eqn:Edot.
  - cbn [fold_left]. apply scan_list_fraction.
    apply entry_no_dots; [exact Hb | lia].
  - rewrite orb_false_r in Hc. rewrite Hc. cbn [negb].
    rewrite (IH _ Hb) by (cbn in Hd; lia).
    unfold fraction_digits, integer_digits.
    now destruct (split_at_dot body) as [[pre suf] |].
Qed.

(** The parser computes the value that the specification words, on every
    entry but "-" and ".". *)
Lemma parse_chars_entry (text : string) :
  numeric_entry text = true ->
  text <> "-"%string -> text <> "."%string ->
  parse_chars (list_ascii_of_string text) = Some (decimal_value text).
Proof.
  unfold numeric_entry, decimal_value. intros H Hm Hd.
  assert (list_ascii_of_string text <> ["-"%char]) as Hm'.
  { intros E. apply Hm. rewrite <- (string_of_list_ascii_of_string text), E. reflexivity. }
  assert (list_ascii_of_string text <> ["."%char]) as Hd'.
  { intros E. apply Hd. rewrite <- (string_of_list_ascii_of_string text), E. reflexivity. }
  set (cs := list_ascii_of_string text) in *.
  apply andb_prop in H as [Hall Hdots]. apply Nat.leb_le in Hdots.
  destruct cs as [| c [| c' cs]]; [reflexivity | |].
  - cbn [parse_chars].
    destruct (Ascii.eqb_spec c "-") as [-> | Hc1]; [contradiction |].
    destruct (Ascii.eqb_spec c ".") as [-> | Hc2]; [contradiction |].
    cbn [orb]. cbn [split_sign] in *.
    destruct (Ascii.eqb_spec c "-"); [contradiction |]. cbn [snd] in *.
    rewrite accumulate_fraction_fold, accumulate_integer_fold.
    now apply scan_list_entry.
  - cbn [parse_chars]. destruct (split_sign (c :: c' :: cs)) as [negative body].
    cbn [snd] in *. rewrite accumulate_fraction_fold, accumulate_integer_fold.
    now rewrite scan_list_entry.
Qed.

(** The claim of C2 fails on an integer that binary32 cannot hold: the
    entry "16777217" parses to 16777216.  It also fails on short entries,
    where the rounding of the fraction loop adds up: "8.111" parses to a
    number more than 1e-6 away from 8.111. *)
Lemma parse_accuracy_counterexample :
  numeric_entry "16777217" = true /\
  fst (parse_current_input_number (setup_input "16777217" power_on))
  = F32.of_Z 16777216 /\
  exact_value "16777217" = inject_Z 16777217 /\
  ~ F32.within
      (fst (parse_current_input_number (setup_input "16777217" power_on)))
      (exact_value "16777217") (1 # 1000000) /\
  numeric_entry "8.111" = true /\
  ~ F32.within
      (fst (parse_current_input_number (setup_input "8.111" power_on)))
      (8111 # 1000) (1 # 1000000).
Proof.
  split; [reflexivity |]. split; [vm_compute; reflexivity |].
  split; [reflexivity |].
  split; [vm_compute; intros H; apply H; reflexivity |].
  split; [reflexivity |].
  vm_compute. intros H. apply H. reflexivity.
Qed.

(** C2, amended.  On every entry of the form [-]digits[.digits] other than
    "-" and ".", the parser raises no error, leaves the state alone and
    returns exactly the binary32 number of the recurrence: [acc * 10 +
    digit] over the integer digits, then [+ digit * multiplier] with the
    multiplier starting at 0.1f and multiplied by 0.1f per digit, negated
    under a leading ['-'].  For "12.34", "-10" and "0.5" that number is
    within 1e-6 of 12.34, -10 and 0.5. *)
Theorem parse_entry :
  forall (st : state) (text : string),
    holds st text -> numeric_entry text = true ->
    text <> "-"%string -> text <> "."%string ->
    parse_current_input_number st = (decimal_value text, st) /\
    (text = "12.34"%string ->
     F32.within (fst (parse_current_input_number st)) (1234 # 100) (1 # 1000000)) /\
    (text = "-10"%string ->
     F32.within (fst (parse_current_input_number st)) (-10 # 1) (1 # 1000000)) /\
    (text = "0.5"%string ->
     F32.within (fst (parse_current_input_number st)) (5 # 10) (1 # 1000000)).
Proof.
  intros st text H Hn Hm Hd.
  assert (parse_current_input_number st = (decimal_value text, st)) as E.
  { rewrite (parse_text st text H). now rewrite parse_chars_entry. }
  rewrite E. cbn [fst].
  split; [reflexivity |].
  repeat split; intros ->; vm_compute; discriminate.
Qed.

(** The entry of [test_parse_float]. *)
Lemma parse_entry_witness :
  parse_current_input_number (setup_input "12.34" power_on)
  = (decimal_value "12.34", setup_input "12.34" power_on) /\
  F32.within (fst (parse_current_input_number (setup_input "12.34" power_on)))
    (1234 # 100) (1 # 1000000).
Proof.
  assert (holds (setup_input "12.34" power_on) "12.34") as H by (split; reflexivity).
  destruct (parse_entry (setup_input "12.34" power_on) "12.34" H eq_refl)
    as (E & W & _); [discriminate | discriminate |].
  split; [exact E | exact (W eq_refl)].
Defined.

(** ** Keys of the input phase *)

Section LoopFacts.

Context (roundf : float -> float)
        (printf_f0 printf_f printf_e3 : float -> string).

Local Abbreviation process_key' :=
  (process_key roundf printf_f0 printf_f printf_e3).
Local Abbreviation equals_key' :=
  (equals_key roundf printf_f0 printf_f printf_e3).
Local Abbreviation display_result' :=
  (display_result roundf printf_f0 printf_f printf_e3).
Local Abbreviation input_states' :=
  (input_states roundf printf_f0 printf_f printf_e3).
Local Abbreviation loop_iteration' :=
  (loop_iteration roundf printf_f0 printf_f printf_e3).

(** In the input phase a key goes through the chain of [if]s and the end
    of the loop body. *)
Lemma entering_key (k : Z) (s : session) :
  entering s -> k <> KEY_NONE ->
  loop_iteration' k s = after_key (process_key' k s).
Proof.
  intros [He Herr] Hk. unfold loop_iteration, input_states.
  rewrite He, Herr. cbn [andb].
  now destruct (Z.eqb_spec k KEY_NONE).
Qed.

Lemma operator_key_chosen (k : Z) (s : session) :
  KEY_PLUS <= k <= KEY_DIVIDE -> process_key' k s = operator_key k s.
Proof.
  unfold KEY_PLUS, KEY_DIVIDE. intros Hk. unfold process_key.
  assert (k = 10 \/ k = 11 \/ k = 12 \/ k = 13) as [-> | [-> | [-> | ->]]] by lia;
    reflexivity.
Qed.

Lemma operator_of_key_cases (k : Z) :
  KEY_PLUS <= k <= KEY_DIVIDE ->
  (k = KEY_PLUS /\ operator_of_key k = "+"%char) \/
  (k = KEY_MINUS /\ operator_of_key k = "-"%char) \/
  (k = KEY_MULTIPLY /\ operator_of_key k = "*"%char) \/
  (k = KEY_DIVIDE /\ operator_of_key k = "/"%char).
Proof.
  unfold KEY_PLUS, KEY_DIVIDE, KEY_MINUS, KEY_MULTIPLY. intros Hk.
  assert (k = 10 \/ k = 11 \/ k = 12 \/ k = 13) as [-> | [-> | [-> | ->]]] by lia;
    auto 6.
Qed.

Lemma tokens_emit (es : list lcd_event) (st : state) :
  tokens (emit es st) = tokens st.
Proof. reflexivity. Qed.

Lemma after_key_globals (s : session) :
  calculator_error (globals (after_key s)) = calculator_error (globals s) /\
  error_message (globals (after_key s)) = error_message (globals s) /\
  tokens (globals (after_key s)) = tokens (globals s) /\
  expr_len (globals (after_key s)) = expr_len (globals s) /\
  current_num_str (globals (after_key s)) = current_num_str (globals s) /\
  current_num_index (globals (after_key s)) = current_num_index (globals s).
Proof.
  unfold after_key. destruct (negb _); [| repeat split].
  destruct (calculator_error (globals s)) eqn:E; cbn; repeat split; exact E.
Qed.

(** ** Errors surface in the iteration that raised them *)

Lemma digit_key_phase (k : Z) (s : session) :
  calculation_has_ended (digit_key k s) = calculation_has_ended s.
Proof. unfold digit_key. now destruct (_ <? _). Qed.

Lemma decimal_key_phase (s : session) :
  calculation_has_ended (decimal_key s) = calculation_has_ended s.
Proof.
  unfold decimal_key.
  destruct (_ && _)%bool; [| now destruct (decimal_point_entered s)].
  now destruct (_ =? _).
Qed.

Lemma operator_key_phase (k : Z) (s : session) :
  calculation_has_ended (operator_key k s) = calculation_has_ended s.
Proof.
  unfold operator_key.
  destruct (_ && _ && _)%bool; [now destruct (_ <? _) |].
  match goal with
  | |- context [if negb (calculator_error (globals ?x)) then _ else _] =>
      assert (calculation_has_ended x = calculation_has_ended s) as H1
  end.
  { destruct (0 <? _).
    - now destruct (parse_current_input_number (globals s)).
    - destruct (_ || _)%bool; [| reflexivity]. now destruct (negb _). }
  now destruct (negb (calculator_error _)).
Qed.

Lemma display_result_surfaced (r : float) (st : state) :
  calculator_error st = false ->
  calculator_error (display_result' r st) = true ->
  lcd (display_result' r st)
  = lcd st ++ [LcdString (error_message (display_result' r st))].
Proof.
  intros H. unfold display_result.
  destruct (LCD_LINE_LEN <? strlen _).
  - intros _. unfold set_error. rewrite H. reflexivity.
  - cbn. congruence.
Qed.

(** The [=] key always ends in the phase that shows something, and when it
    ends with an error, the display holds that error. *)
Lemma equals_key_surfaced (s : session) : surfaced (equals_key' s).
Proof.
  unfold surfaced, equals_key. cbv zeta.
  match goal with
  | |- context [let (_, _) := ?x in _] => destruct x as [final_result g3]
  end.
  cbn [globals calculation_has_ended].
  set (g4 := emit [LcdCommand LCD_CMD_CLEAR_DISPLAY] g3).
  intros Herr. split; [reflexivity |].
  exists (lcd g3). unfold reset_current in *. cbn in Herr |- *.
  destruct (calculator_error g3) eqn:E3.
  - subst g4. cbn. now rewrite <- !app_assoc.
  - rewrite (display_result_surfaced final_result g4 E3 Herr).
    subst g4. cbn. now rewrite <- !app_assoc.
Qed.

Lemma process_key_surfaced (k : Z) (s : session) :
  calculation_has_ended s = false ->
  calculation_has_ended (process_key' k s) = true ->
  surfaced (process_key' k s).
Proof.
  unfold process_key. intros He.
  destruct (_ && _)%bool; [rewrite digit_key_phase; congruence |].
  destruct (k =? KEY_DECIMAL); [rewrite decimal_key_phase; congruence |].
  destruct (_ && _)%bool; [rewrite operator_key_phase; congruence |].
  destruct (k =? KEY_EQUALS); [intros _; apply equals_key_surfaced | congruence].
Qed.

Lemma after_key_surfaced (s : session) :
  (calculation_has_ended s = true -> surfaced s) -> surfaced (after_key s).
Proof.
  intros H. unfold after_key.
  destruct (calculation_has_ended s) eqn:He; cbn [negb]; [now apply H |].
  destruct (calculator_error (globals s)) eqn:Herr.
  - intros _. split; [reflexivity |]. exists (lcd (globals s)). reflexivity.
  - intros Habs. cbn in Habs. congruence.
Qed.

Lemma entering_surfaced (k : Z) (s : session) :
  entering s -> k <> KEY_NONE -> surfaced (loop_iteration' k s).
Proof.
  intros Hent Hk. rewrite (entering_key k s Hent Hk).
  apply after_key_surfaced. apply process_key_surfaced. apply Hent.
Qed.

Lemma loop_iteration_surfaced (k : Z) (s : session) :
  surfaced s -> surfaced (loop_iteration' k s).
Proof.
  intros Hs. destruct (Z.eq_dec k KEY_NONE) as [-> | Hk].
  - (* no key: nothing happens *)
    unfold loop_iteration, input_states. change (KEY_NONE =? KEY_NONE) with true.
    cbn [negb]. destruct (calculation_has_ended s); [exact Hs |].
    now destruct (_ && _)%bool.
  - destruct (calculation_has_ended s) eqn:He.
    + unfold loop_iteration. rewrite He.
      apply Z.eqb_neq in Hk. rewrite Hk. cbn [negb].
      set (s1 := mkSession (clear_all_state (globals s)) false false false).
      assert (entering s1) as Hent by (split; reflexivity).
      destruct (_ && _)%bool.
      * intros Habs. cbn in Habs. discriminate.
      * apply Z.eqb_neq in Hk.
        replace (input_states' k s1) with (loop_iteration' k s1)
          by reflexivity.
        now apply entering_surfaced.
    + destruct (calculator_error (globals s)) eqn:Herr.
      * destruct (Hs Herr) as [Habs _]. congruence.
      * apply entering_surfaced; [now split | exact Hk].
Qed.

Lemma startup_surfaced (st : state) : surfaced (startup st).
Proof. intros H. cbn in H. discriminate. Qed.

Lemma run_surfaced (keys : list Z) :
  forall s : session,
    surfaced s -> surfaced (fold_left (fun s k => loop_iteration' k s) keys s).
Proof.
  induction keys as [| k keys IH]; intros s Hs; [exact Hs |].
  cbn [fold_left]. now apply IH, loop_iteration_surfaced.
Qed.

(** C9, amended.  A fault raised by a key of the input phase surfaces in
    the same loop iteration: when the iteration ends with an error active,
    the loop is already in its error state and the last thing sent to the
    display is that error message.  Hence in every run the loop head never
    sees an error that is not yet shown. *)
Theorem error_surfaces_at_once :
  (forall (s : session) (k : Z),
      entering s -> k <> KEY_NONE ->
      let s' := loop_iteration' k s in
      calculator_error (globals s') = true ->
      calculation_has_ended s' = true /\
      exists before,
        lcd (globals s') = before ++ error_shown (error_message (globals s'))) /\
  (forall (keys : list Z) (st : state),
      let s := RunCalculatorLogic roundf printf_f0 printf_f printf_e3 keys st in
      calculator_error (globals s) = true ->
      calculation_has_ended s = true /\
      exists before,
        lcd (globals s) = before ++ error_shown (error_message (globals s))).
Proof.
  split.
  - intros s k Hent Hk. now apply entering_surfaced.
  - intros keys st. apply (run_surfaced keys), startup_surfaced.
Qed.

End LoopFacts.

(** The claim of C9 fails on the first key of a session: ['*'] on the empty
    buffer raises "Err: Syntax", and the iteration that raised it ends in
    the error state with the message on the display. *)
Lemma error_surfaces_counterexample :
  entering ready /\
  calculator_error (globals (press KEY_MULTIPLY ready)) = true /\
  calculation_has_ended (press KEY_MULTIPLY ready) = true /\
  lcd (globals (press KEY_MULTIPLY ready))
  = lcd (globals ready) ++ error_shown Err_Syntax.
Proof. repeat split; vm_compute; reflexivity. Qed.

(** ** Instances on the buffers of the unit tests *)

Lemma power_on_ok : buffer_ok power_on.
Proof. unfold buffer_ok. vm_compute. intuition discriminate. Qed.

(** [test_parse_error_multiple_decimals]. *)
Lemma parse_faults_witness :
  parse_current_input_number (setup_input "1.2.3" power_on)
  = (F32.zero, set_error Err_Syntax (setup_input "1.2.3" power_on)) /\
  error_message (set_error Err_Syntax (setup_input "1.2.3" power_on)) = Err_Syntax.
Proof.
  destruct (proj1 (proj2 parse_faults) (setup_input "1.2.3" power_on) "1.2.3"%string)
    as [E M].
  - split; reflexivity.
  - right. right. left. vm_compute. lia.
  - split; [exact E | apply M; reflexivity].
Defined.

(** A syntax fault, a key and an evaluation after "Err: Num Len". *)
Lemma first_error_wins_witness :
  error_message
    (globals
       (perform_all no_roundf no_printf no_printf no_printf
          [CallSetError Err_Syntax; HandleKey KEY_MULTIPLY; CallEvaluate]
          (mkSession (set_error Err_Num_Len power_on) false false false)))
  = Err_Num_Len.
Proof.
  apply (proj1 (first_error_wins no_roundf no_printf no_printf no_printf)
           [CallSetError Err_Syntax; HandleKey KEY_MULTIPLY; CallEvaluate]
           (mkSession (set_error Err_Num_Len power_on) false false false)).
  reflexivity.
Defined.

(** [test_eval_single_number]. *)
Lemma evaluate_before_stack_work_witness :
  evaluate_full_expression (setup_expression [("N"%char, F32.of_Z 7)] power_on)
  = (F32.of_Z 7, setup_expression [("N"%char, F32.of_Z 7)] power_on).
Proof.
  apply (proj1 (proj2 evaluate_before_stack_work)).
  - unfold buffer_ok. vm_compute. intuition discriminate.
  - reflexivity.
  - vm_compute. reflexivity.
Defined.

(** The division of [test_eval_division_by_zero]. *)
Lemma division_by_zero_aborts_witness :
  execute_apply_operator "/" (F32.of_Z 1) F32.zero power_on
  = (F32.zero, set_error Err_Div_Zero power_on).
Proof.
  apply (proj1 division_by_zero_aborts (F32.of_Z 1) F32.zero power_on);
    vm_compute; reflexivity.
Defined.

(** The first push of [test_eval_error_expr_long_push]. *)
Lemma push_bounded_witness :
  tokens (do_push (PushNumber F32.zero) power_on)
  = tokens power_on ++ [token_of (PushNumber F32.zero)].
Proof.
  apply (proj1 (proj2 (proj2 push_bounded)) (PushNumber F32.zero) power_on).
  - exact power_on_ok.
  - reflexivity.
  - vm_compute. reflexivity.
Defined.

(** ['*'] as the first key of a session. *)
Lemma error_surfaces_at_once_witness :
  calculation_has_ended (press KEY_MULTIPLY ready) = true /\
  exists before,
    lcd (globals (press KEY_MULTIPLY ready))
    = before ++ error_shown (error_message (globals (press KEY_MULTIPLY ready))).
Proof.
  apply (proj1 (error_surfaces_at_once no_roundf no_printf no_printf no_printf)
           ready KEY_MULTIPLY).
  - split; reflexivity.
  - vm_compute. discriminate.
  - reflexivity.
Defined.

(** * Further properties of the code *)

(** ** The evaluator on arbitrary buffers *)

(** One pass of a [while] body: it falls through with one value fewer and
    the state as it was, or returns 0.0 with one of two errors. *)
Lemma apply_top_cases (op : ascii) (vals : list float) (st : state) :
  calculator_error st = false ->
  match apply_top op vals st with
  | (Next vals1, st1) => st1 = st /\ S (length vals1) = length vals
  | (Return v, st1) =>
      v = F32.zero /\
      (st1 = set_error Err_Syntax st \/ st1 = set_error Err_Div_Zero st)
  end.
Proof.
  intros H. unfold apply_top.
  destruct vals as [| b [| a rest]]; [auto | auto |].
  unfold execute_apply_operator. rewrite H.
  destruct (Ascii.eqb op "+"); [rewrite H; auto |].
  destruct (Ascii.eqb op "-"); [rewrite H; auto |].
  destruct (Ascii.eqb op "*"); [rewrite H; auto |].
  destruct (Ascii.eqb op "/").
  - destruct (F32.ltb _ _); [rewrite set_error_sets | rewrite H]; auto.
  - rewrite set_error_sets. auto.
Qed.

Lemma reduce_while_cases (cur : ascii) (ops : list ascii) :
  forall (vals : list float) (st : state),
    calculator_error st = false ->
    match reduce_while cur vals ops st with
    | (Next (vals1, ops1), st1) =>
        st1 = st /\ surplus vals1 ops1 = surplus vals ops /\
        (length ops1 <= length ops)%nat /\ (length vals1 <= length vals)%nat
    | (Return v, st1) =>
        v = F32.zero /\
        (st1 = set_error Err_Syntax st \/ st1 = set_error Err_Div_Zero st)
    end.
Proof.
  induction ops as [| op ops IH]; intros vals st H; cbn [reduce_while].
  - repeat split; lia.
  - destruct (_ <=? _); [| repeat split; lia].
    pose proof (apply_top_cases op vals st H) as Ht.
    destruct (apply_top op vals st) as [[v | vals1] st1]; [exact Ht |].
    destruct Ht as [-> Hl]. specialize (IH vals1 st H).
    destruct (reduce_while cur vals1 ops st) as [[v | [vals2 ops2]] st2];
      [exact IH |].
    destruct IH as (-> & Hs & Ho & Hv). unfold surplus in *. cbn [length].
    repeat split; lia.
Qed.

Lemma drain_cases (ops : list ascii) :
  forall (vals : list float) (st : state),
    calculator_error st = false ->
    match drain vals ops st with
    | (Next vals1, st1) =>
        st1 = st /\ Z.of_nat (length vals1) = surplus vals ops
    | (Return v, st1) =>
        v = F32.zero /\
        (st1 = set_error Err_Syntax st \/ st1 = set_error Err_Div_Zero st)
    end.
Proof.
  induction ops as [| op ops IH]; intros vals st H; cbn [drain].
  - unfold surplus. cbn. split; [reflexivity | lia].
  - pose proof (apply_top_cases op vals st H) as Ht.
    destruct (apply_top op vals st) as [[v | vals1] st1]; [exact Ht |].
    destruct Ht as [-> Hl]. specialize (IH vals1 st H).
    destruct (drain vals1 ops st) as [[v | vals2] st2]; [exact IH |].
    destruct IH as [-> Hs]. unfold surplus in *. cbn [length].
    split; [reflexivity | lia].
Qed.

Lemma count_numbers_cons (t : ascii * float) (ts : list (ascii * float)) :
  count_numbers (t :: ts)
  = (if Ascii.eqb (fst t) "N" then 1 else 0) + count_numbers ts.
Proof.
  unfold count_numbers. cbn [List.filter].
  destruct (Ascii.eqb (fst t) "N"); cbn [length]; lia.
Qed.

Lemma count_others_cons (t : ascii * float) (ts : list (ascii * float)) :
  count_others (t :: ts)
  = (if Ascii.eqb (fst t) "N" then 0 else 1) + count_others ts.
Proof.
  unfold count_others. cbn [List.filter].
  destruct (Ascii.eqb (fst t) "N"); cbn [negb length]; lia.
Qed.

(** The token loop: while fewer than [MAX_TOKENS] tokens have been read
    and are left to read, no stack is ever full. *)
Lemma run_tokens_cases (ts : list (ascii * float)) :
  forall (vals : list float) (ops : list ascii) (st : state),
    calculator_error st = false ->
    Z.of_nat (length vals) + Z.of_nat (length ts) <= MAX_TOKENS ->
    Z.of_nat (length ops) + Z.of_nat (length ts) <= MAX_TOKENS ->
    match run_tokens ts vals ops st with
    | (Next (vals1, ops1), st1) =>
        st1 = st /\
        surplus vals1 ops1
        = surplus vals ops + count_numbers ts - count_others ts
    | (Return v, st1) =>
        v = F32.zero /\
        (st1 = set_error Err_Syntax st \/ st1 = set_error Err_Div_Zero st)
    end.
Proof.
  induction ts as [| [ty da] ts IH]; intros vals ops st H Hv Ho.
  - cbn. split; [reflexivity |]. unfold count_numbers, count_others. cbn. lia.
  - cbn [run_tokens]. rewrite count_numbers_cons, count_others_cons.
    cbn [fst length] in *. unfold MAX_TOKENS in *.
    destruct (Ascii.eqb ty "N").
    + destruct (Z.leb_spec (50 - 1) (top_index vals)) as [Hfull | _];
        [unfold top_index in Hfull; lia |].
      specialize (IH (da :: vals) ops st H). cbn [length] in IH.
      specialize (IH ltac:(lia) ltac:(lia)).
      destruct (run_tokens ts (da :: vals) ops st) as [[v | [v1 o1]] st1];
        [exact IH |].
      destruct IH as [-> Hs]. split; [reflexivity |].
      unfold surplus in *. cbn [length] in Hs. lia.
    + pose proof (reduce_while_cases (char_of_float da) ops vals st H) as Hr.
      destruct (reduce_while _ vals ops st) as [[v | [vals1 ops1]] st1];
        [exact Hr |].
      destruct Hr as (-> & Hs & Hlo & Hlv).
      destruct (Z.leb_spec (50 - 1) (top_index ops1)) as [Hfull | _];
        [unfold top_index in Hfull; lia |].
      specialize (IH vals1 (char_of_float da :: ops1) st H). cbn [length] in IH.
      specialize (IH ltac:(lia) ltac:(lia)).
      destruct (run_tokens ts vals1 _ st) as [[v | [v2 o2]] st2]; [exact IH |].
      destruct IH as [-> Hs2]. split; [reflexivity |].
      unfold surplus in *. cbn [length] in Hs2. lia.
Qed.

(** The ways out of the evaluator. *)
Lemma evaluate_cases :
  forall st : state,
    buffer_ok st -> calculator_error st = false ->
    (snd (evaluate_full_expression st) = st /\
     (0 < expr_len st -> count_numbers (tokens st) = count_others (tokens st) + 1)) \/
    (fst (evaluate_full_expression st) = F32.zero /\
     (snd (evaluate_full_expression st) = set_error Err_Syntax st \/
      snd (evaluate_full_expression st) = set_error Err_Div_Zero st)).
Proof.
  intros st Hok H.
  pose proof (tokens_length st Hok) as Hlen.
  pose proof Hok as (_ & _ & Hn).
  unfold evaluate_full_expression. rewrite H.
  destruct (Z.eqb_spec (expr_len st) 0) as [E0 | N0];
    [left; cbn; split; [reflexivity | lia] |].
  destruct (_ && Ascii.eqb _ "O")%bool; [right; cbn; auto |].
  destruct (Z.eqb_spec (expr_len st) 1) as [E1 | N1].
  - destruct (Ascii.eqb (arr_get zero (expr_type st) 0) "N") eqn:Ety; cbn [andb].
    + left. cbn. split; [reflexivity |]. intros _.
      pose proof (tokens_lookup st 0 Hok ltac:(lia)) as Hk.
      destruct (tokens st) as [| t [| t' ts]] eqn:Et; cbn in Hlen; try lia.
      cbn in Hk. injection Hk as ->.
      rewrite count_numbers_cons, count_others_cons. cbn [fst]. rewrite Ety.
      reflexivity.
    + rewrite token_loop_all by assumption.
      pose proof (run_tokens_cases (tokens st) [] [] st H) as Hr.
      rewrite Hlen in Hr. cbn [length] in Hr.
      specialize (Hr ltac:(lia) ltac:(lia)).
      destruct (run_tokens (tokens st) [] [] st) as [[v | [vals ops]] st1];
        [right; exact Hr |].
      destruct Hr as [-> Hs].
      pose proof (drain_cases ops vals st H) as Hd.
      destruct (drain vals ops st) as [[v | vals'] st2]; [right; exact Hd |].
      destruct Hd as [-> Hd].
      destruct vals' as [| v [| w rest]]; [right; cbn; auto | | right; cbn; auto].
      left. cbn. split; [reflexivity |]. intros _.
      unfold surplus in *. cbn [length] in *. lia.
  - cbn [andb]. rewrite token_loop_all by assumption.
    pose proof (run_tokens_cases (tokens st) [] [] st H) as Hr.
    rewrite Hlen in Hr. cbn [length] in Hr.
    specialize (Hr ltac:(lia) ltac:(lia)).
    destruct (run_tokens (tokens st) [] [] st) as [[v | [vals ops]] st1];
      [right; exact Hr |].
    destruct Hr as [-> Hs].
    pose proof (drain_cases ops vals st H) as Hd.
    destruct (drain vals ops st) as [[v | vals'] st2]; [right; exact Hd |].
    destruct Hd as [-> Hd].
    destruct vals' as [| v [| w rest]]; [right; cbn; auto | | right; cbn; auto].
    left. cbn. split; [reflexivity |]. intros _.
    unfold surplus in *. cbn [length] in *. lia.
Qed.

(** X1. On every buffer, whatever it holds, the evaluator either leaves
    the state as it is, or returns 0.0 after raising "Err: Syntax" or
    "Err: Div Zero": the stacks never fill, so "Err: Stack" is never raised.
    When no error is raised on a buffer that is not empty, the tokens taken
    as numbers are exactly one more than the others. *)
Theorem evaluate_outcomes :
  forall st : state,
    buffer_ok st -> calculator_error st = false ->
    (snd (evaluate_full_expression st) = st /\
     (0 < expr_len st -> count_numbers (tokens st) = count_others (tokens st) + 1)) \/
    (fst (evaluate_full_expression st) = F32.zero /\
     (snd (evaluate_full_expression st) = set_error Err_Syntax st \/
      snd (evaluate_full_expression st) = set_error Err_Div_Zero st)).
Proof. exact evaluate_cases. Qed.

Lemma evaluate_outcomes_witness :
  (snd (evaluate_full_expression
          (setup_expression [("N"%char, F32.of_Z 1); ("N"%char, F32.of_Z 2)] power_on))
   = setup_expression [("N"%char, F32.of_Z 1); ("N"%char, F32.of_Z 2)] power_on /\
   (0 < expr_len (setup_expression [("N"%char, F32.of_Z 1); ("N"%char, F32.of_Z 2)] power_on) ->
    count_numbers (tokens (setup_expression [("N"%char, F32.of_Z 1); ("N"%char, F32.of_Z 2)] power_on))
    = count_others (tokens (setup_expression [("N"%char, F32.of_Z 1); ("N"%char, F32.of_Z 2)] power_on)) + 1)) \/
  (fst (evaluate_full_expression
          (setup_expression [("N"%char, F32.of_Z 1); ("N"%char, F32.of_Z 2)] power_on))
   = F32.zero /\
   (snd (evaluate_full_expression
           (setup_expression [("N"%char, F32.of_Z 1); ("N"%char, F32.of_Z 2)] power_on))
    = set_error Err_Syntax
        (setup_expression [("N"%char, F32.of_Z 1); ("N"%char, F32.of_Z 2)] power_on) \/
    snd (evaluate_full_expression
           (setup_expression [("N"%char, F32.of_Z 1); ("N"%char, F32.of_Z 2)] power_on))
    = set_error Err_Div_Zero
        (setup_expression [("N"%char, F32.of_Z 1); ("N"%char, F32.of_Z 2)] power_on))).
Proof.
  apply evaluate_outcomes.
  - unfold buffer_ok. vm_compute. intuition discriminate.
  - reflexivity.
Defined.

(** ** The text of a result *)

Lemma split_at_dot_app (cs pre suf : list ascii) :
  split_at_dot cs = Some (pre, suf) -> cs = pre ++ "."%char :: suf.
Proof.
  revert pre. induction cs as [| c cs IH]; intros pre; cbn; [discriminate |].
  destruct (Ascii.eqb_spec c ".") as [-> | Hc].
  - now intros [= <- <-].
  - destruct (split_at_dot cs) as [[p s] |]; [| discriminate].
    intros [= <- <-]. cbn. f_equal. now apply IH.
Qed.

Lemma drop_zeros_length (l : list ascii) : (length (drop_zeros l) <= length l)%nat.
Proof.
  induction l as [| c l IH]; cbn; [lia |].
  destruct (Ascii.eqb c "0"); cbn; lia.
Qed.

Lemma length_text_of (cs : list ascii) : String.length (text_of cs) = length cs.
Proof. unfold text_of. induction cs as [| c cs IH]; cbn; congruence. Qed.

Lemma trim_fraction_length (buf : string) :
  strlen (trim_fraction buf) <= strlen buf.
Proof.
  unfold trim_fraction, strlen.
  destruct (split_at_dot (list_ascii_of_string buf)) as [[pre suf] |] eqn:E; [| lia].
  apply split_at_dot_app in E.
  rewrite <- (length_list_ascii buf), E, length_app. cbn [length].
  pose proof (drop_zeros_length (rev suf)) as Hd. rewrite length_rev in Hd.
  destruct (drop_zeros (rev suf)) as [| c rest].
  - fold (text_of pre). rewrite length_text_of. lia.
  - cbn [length] in Hd.
    destruct (Ascii.eqb c ".");
      match goal with
      | |- context [string_of_list_ascii ?l] =>
          fold (text_of l); rewrite length_text_of
      end;
      rewrite length_app; cbn [length]; rewrite ?length_rev; cbn [length]; lia.
Qed.

Lemma drop_zeros_zeros (k : nat) (l : list ascii) :
  drop_zeros (zeros k ++ l) = drop_zeros l.
Proof. induction k as [| k IH]; cbn; auto. Qed.

Lemma split_at_dot_digits (pre suf : list ascii) :
  forallb is_digit pre = true ->
  split_at_dot (pre ++ "."%char :: suf) = Some (pre, suf).
Proof.
  induction pre as [| c pre IH]; intros H; cbn; [reflexivity |].
  cbn in H. apply andb_prop in H as [Hc Hp].
  rewrite (digit_not_dot c Hc), (IH Hp). reflexivity.
Qed.

Lemma rev_zeros (k : nat) : rev (zeros k) = zeros k.
Proof.
  unfold zeros. induction k as [| k IH]; cbn; [reflexivity |].
  rewrite IH. clear IH. induction k as [| k IH]; cbn; [reflexivity |].
  now rewrite <- IH.
Qed.

(** X2. Removing the trailing zeros of a fixed-point text: for digits
    [whole] and digits [frac] that do not end in ['0'], the text
    [whole.frac] followed by any number of zeros becomes [whole.frac], and
    [whole] alone when [frac] is empty: the point goes with the last
    zero. *)
Theorem trim_fraction_zeros :
  forall (whole frac : list ascii) (k : nat),
    forallb is_digit whole = true -> forallb is_digit frac = true ->
    last frac = None \/ (exists c, last frac = Some c /\ c <> "0"%char) ->
    trim_fraction (text_of (whole ++ "."%char :: frac ++ zeros k))
    = match frac with
      | [] => text_of whole
      | _ => text_of (whole ++ "."%char :: frac)
      end.
Proof.
  intros whole frac k Hw Hf Hlast. unfold trim_fraction, text_of.
  rewrite list_ascii_of_string_of_list_ascii.
  rewrite split_at_dot_digits by exact Hw.
  rewrite rev_app_distr, rev_zeros, drop_zeros_zeros.
  destruct Hlast as [Hnone | (c & Hc & Hnz)].
  - apply last_None in Hnone. subst frac. reflexivity.
  - apply last_Some in Hc as [front ->].
    rewrite rev_app_distr. cbn [rev app drop_zeros].
    destruct (Ascii.eqb_spec c "0"); [contradiction |].
    assert (is_digit c = true) as Hd.
    { rewrite forallb_app in Hf. apply andb_prop in Hf as [_ Hf].
      cbn in Hf. now rewrite andb_true_r in Hf. }
    rewrite (digit_not_dot c Hd).
    change (rev (c :: rev front)) with (rev (rev front) ++ [c]).
    rewrite rev_involutive.
    destruct front; reflexivity.
Qed.

Lemma trim_fraction_zeros_witness :
  trim_fraction "12.500000" = "12.5"%string.
Proof.
  apply (trim_fraction_zeros ["1"; "2"]%char ["5"%char] 5);
    [reflexivity | reflexivity |].
  right. exists "5"%char. split; [reflexivity | discriminate].
Defined.

(** ** The buffers of a session stay within their arrays *)

Lemma length_append (a b : string) :
  String.length (String.append a b) = (String.length a + String.length b)%nat.
Proof. induction a as [| c a IH]; cbn; [reflexivity | now rewrite IH]. Qed.

Lemma substring_whole (s : string) : String.substring 0 (String.length s) s = s.
Proof. induction s as [| c s IH]; cbn; [reflexivity | now rewrite IH]. Qed.

Lemma str_put_end (s : string) (c : ascii) :
  str_put s (strlen s) c = String.append s (String c EmptyString).
Proof.
  unfold str_put, strlen. rewrite Nat2Z.id. now rewrite substring_whole.
Qed.

Lemma state_ok_set_error (m : string) (st : state) :
  input_error m -> state_ok st -> state_ok (set_error m st).
Proof.
  intros Hm (Hb & Hp & Hh & He). unfold set_error.
  destruct (calculator_error st) eqn:E; [exact (conj Hb (conj Hp (conj Hh He))) |].
  split; [exact Hb | split; [exact Hp | split; [exact Hh |]]].
  right. split; [reflexivity |]. cbn.
  destruct Hm as [-> | [-> | [-> | ->]]]; auto.
Qed.

Lemma state_ok_raised (st st' : state) :
  state_ok st ->
  st' = st \/ st' = set_error Err_Syntax st \/ st' = set_error Err_Div_Zero st ->
  state_ok st'.
Proof.
  intros H [-> | [-> | ->]]; [exact H | |];
    apply state_ok_set_error; unfold input_error; auto.
Qed.

Lemma state_ok_emit (es : list lcd_event) (st : state) :
  state_ok st -> state_ok (emit es st).
Proof. intros (Hb & Hp & Hh & He). exact (conj Hb (conj Hp (conj Hh He))). Qed.

Lemma state_ok_history (s : string) (st : state) :
  state_ok st -> state_ok (add_to_expression_string s st).
Proof.
  intros (Hb & Hp & Hh & He). unfold add_to_expression_string.
  destruct (Z.ltb_spec (expression_index st + strlen s) (MAX_DISPLAY_STR - 1));
    [| exact (conj Hb (conj Hp (conj Hh He)))].
  split; [exact Hb | split; [exact Hp | split; [| exact He]]].
  split; cbn; [| assumption].
  destruct Hh as [Hi _]. unfold strlen in *. rewrite length_append. lia.
Qed.

Lemma state_ok_push (p : push) (st : state) :
  state_ok st -> state_ok (do_push p st).
Proof.
  intros Hok. pose proof Hok as (Hb & Hp & Hh & He).
  destruct (calculator_error st) eqn:E; [now rewrite do_push_active |].
  destruct (Z.lt_ge_cases (expr_len st) MAX_TOKENS) as [Hn | Hn].
  - pose proof Hn as Hn'. apply Z.leb_gt in Hn'.
    assert (forall t d,
               state_ok (with_expr (arr_set (expr_type st) (expr_len st) t)
                           (arr_set (expr_data st) (expr_len st) d)
                           (expr_len st + 1) st)) as Hset.
    { intros t d. split; [| split; [exact Hp | split; [exact Hh | exact He]]].
      destruct Hb as (? & ? & ?).
      unfold buffer_ok, arr_set. cbn. rewrite !length_insert. lia. }
    destruct p; cbn [do_push]; unfold push_operand_to_expr, push_operator_to_expr;
      rewrite E, Hn'; [apply Hset | apply state_ok_history, Hset].
  - rewrite do_push_full by assumption.
    apply state_ok_set_error; [unfold input_error; auto | exact Hok].
Qed.

Lemma state_ok_append (c : ascii) (st : state) :
  state_ok st -> current_num_index st < LCD_LINE_LEN ->
  state_ok (append_current c st).
Proof.
  intros (Hb & [Hi Hl] & Hh & He) Hlt.
  split; [exact Hb | split; [| split; [exact Hh | exact He]]].
  split; cbn; [| lia].
  rewrite Hi, str_put_end. unfold strlen. rewrite length_append. cbn. lia.
Qed.

Lemma state_ok_reset_current (st : state) :
  state_ok st -> state_ok (reset_current st).
Proof.
  intros (Hb & Hp & Hh & He).
  split; [exact Hb | split; [| split; [exact Hh | exact He]]].
  split; cbn; [reflexivity | unfold LCD_LINE_LEN; lia].
Qed.

Lemma state_ok_clear (st : state) :
  Z.of_nat (length (expr_type st)) = MAX_TOKENS ->
  Z.of_nat (length (expr_data st)) = MAX_TOKENS ->
  state_ok (clear_all_state st).
Proof.
  intros Ht Hd. unfold state_ok, buffer_ok, pending_ok, history_ok, error_ok.
  cbn. unfold MAX_TOKENS, LCD_LINE_LEN, MAX_DISPLAY_STR in *.
  repeat apply conj; try assumption; try lia; try reflexivity.
  left. split; reflexivity.
Qed.

(** The parser leaves the state or raises the syntax error. *)
Lemma scan_digits_outcomes (n : nat) :
  forall i r m d st,
    snd (scan_digits n i r m d st) = st \/
    snd (scan_digits n i r m d st) = set_error Err_Syntax st.
Proof.
  induction n as [| n IH]; intros i r m d st; cbn; [auto |].
  destruct (Ascii.eqb _ ".").
  - destruct d; cbn; auto.
  - destruct (_ && _)%bool; cbn; [| auto]. destruct d; cbn; auto.
Qed.

Lemma parse_outcomes (st : state) :
  snd (parse_current_input_number st) = st \/
  snd (parse_current_input_number st) = set_error Err_Syntax st.
Proof.
  unfold parse_current_input_number.
  destruct (current_num_index st =? 0); cbn; [auto |].
  destruct (_ && _)%bool; cbn; [auto |].
  destruct (_ && _)%bool; cbn; [auto |].
  match goal with
  | |- context [scan_digits ?n ?i ?r ?m ?d st] =>
      pose proof (scan_digits_outcomes n i r m d st) as H;
      destruct (scan_digits n i r m d st) as [[v | res] st1]
  end; exact H.
Qed.

Lemma state_ok_parse (st : state) :
  state_ok st -> state_ok (snd (parse_current_input_number st)).
Proof.
  intros H. apply (state_ok_raised st); [exact H |].
  destruct (parse_outcomes st); auto.
Qed.

Lemma state_ok_evaluate (st : state) :
  state_ok st -> state_ok (snd (evaluate_full_expression st)).
Proof.
  intros H. destruct (calculator_error st) eqn:E.
  - unfold evaluate_full_expression. now rewrite E.
  - apply (state_ok_raised st); [exact H |].
    destruct (evaluate_cases st (proj1 H) E) as [[-> _] | [_ [-> | ->]]]; auto.
Qed.

(** Committing the pending entry: parse, push, add to the history. *)
Lemma state_ok_commit (g : state) :
  state_ok g ->
  state_ok (let (num, g1) := parse_current_input_number g in
            if negb (calculator_error g1)
            then add_to_expression_string (current_num_str g1)
                   (push_operand_to_expr num g1)
            else g1).
Proof.
  intros H. pose proof (state_ok_parse g H) as Hp.
  destruct (parse_current_input_number g) as [num g1]. cbn [snd] in Hp.
  destruct (negb (calculator_error g1)); [| exact Hp].
  apply state_ok_history. apply (state_ok_push (PushNumber num)), Hp.
Qed.

Section RunFacts.

Context (roundf : float -> float)
        (printf_f0 printf_f printf_e3 : float -> string).

Local Abbreviation display_result' :=
  (display_result roundf printf_f0 printf_f printf_e3).
Local Abbreviation equals_key' :=
  (equals_key roundf printf_f0 printf_f printf_e3).
Local Abbreviation process_key' :=
  (process_key roundf printf_f0 printf_f printf_e3).
Local Abbreviation input_states' :=
  (input_states roundf printf_f0 printf_f printf_e3).
Local Abbreviation loop_iteration' :=
  (loop_iteration roundf printf_f0 printf_f printf_e3).
Local Abbreviation RunCalculatorLogic' :=
  (RunCalculatorLogic roundf printf_f0 printf_f printf_e3).

(** The result branch ends in one text for the display. *)
Lemma display_result_emits :
  forall (final_result : float) (st : state),
    exists text : string,
      display_result' final_result st = emit [LcdString text] st /\
      strlen text <= LCD_LINE_LEN.
Proof.
  intros r st. unfold display_result.
  set (buf0 := if F32.ltb _ _ then _ else _).
  assert (strlen buf0 <= LCD_LINE_LEN) as H0.
  { subst buf0. destruct (F32.ltb _ _).
    - apply strncpy_length. unfold LCD_LINE_LEN. lia.
    - etransitivity; [apply trim_fraction_length |].
      apply strncpy_length. unfold LCD_LINE_LEN. lia. }
  apply Z.ltb_ge in H0. rewrite H0, H0.
  exists buf0. split; [reflexivity | now apply Z.ltb_ge].
Qed.

(** X3. Whatever [printf] produces, the result branch of the [=] key sends
    one text of at most [LCD_LINE_LEN] characters to the display and
    changes nothing else: [snprintf] has cut the text to the size of the
    buffer, so neither length test succeeds and "Err: Display" is never
    raised. *)
Theorem display_result_fits :
  forall (final_result : float) (st : state),
    exists text : string,
      display_result' final_result st = emit [LcdString text] st /\
      strlen text <= LCD_LINE_LEN.
Proof. exact display_result_emits. Qed.

Lemma state_ok_display_result (r : float) (st : state) :
  state_ok st -> state_ok (display_result' r st).
Proof.
  intros H. destruct (display_result_emits r st) as (text & -> & _).
  now apply state_ok_emit.
Qed.

Lemma state_ok_digit_key (k : Z) (s : session) :
  state_ok (globals s) -> state_ok (globals (digit_key k s)).
Proof.
  intros H. unfold digit_key.
  destruct (Z.ltb_spec (current_num_index (globals s)) LCD_LINE_LEN); cbn.
  - now apply state_ok_append.
  - apply state_ok_set_error; [unfold input_error; auto | exact H].
Qed.

Lemma state_ok_decimal_key (s : session) :
  state_ok (globals s) -> state_ok (globals (decimal_key s)).
Proof.
  intros H. unfold decimal_key.
  destruct (negb (decimal_point_entered s)); cbn [andb].
  - destruct (Z.ltb_spec (current_num_index (globals s)) (LCD_LINE_LEN - 1)).
    + destruct (Z.eqb_spec (current_num_index (globals s)) 0) as [E0 | N0]; cbn.
      * apply state_ok_append.
        -- apply state_ok_append; [exact H | rewrite E0; reflexivity].
        -- cbn. rewrite E0. reflexivity.
      * apply state_ok_append; [exact H | lia].
    + destruct (decimal_point_entered s); cbn;
        (apply state_ok_set_error; [unfold input_error; auto | exact H]).
  - destruct (decimal_point_entered s); cbn;
      (apply state_ok_set_error; [unfold input_error; auto | exact H]).
Qed.

Lemma state_ok_operator_key (k : Z) (s : session) :
  state_ok (globals s) -> state_ok (globals (operator_key k s)).
Proof.
  intros H. unfold operator_key.
  destruct (_ && _ && _)%bool.
  { destruct (Z.ltb_spec (current_num_index (globals s)) LCD_LINE_LEN); cbn.
    - now apply state_ok_append.
    - apply state_ok_set_error; [unfold input_error; auto | exact H]. }
  match goal with
  | |- context [if negb (calculator_error (globals ?x)) then _ else _] =>
      set (s1 := x); assert (state_ok (globals s1)) as H1
  end.
  { subst s1. destruct (0 <? current_num_index (globals s)).
    - pose proof (state_ok_commit (globals s) H) as Hc.
      destruct (parse_current_input_number (globals s)) as [num g1].
      cbn. now apply state_ok_reset_current.
    - destruct (_ || _)%bool; [| exact H].
      destruct (negb _); cbn; [| exact H].
      apply state_ok_set_error; [unfold input_error; auto | exact H]. }
  destruct (negb (calculator_error (globals s1))); [| exact H1].
  cbn. apply (state_ok_push (PushOperator _)), H1.
Qed.

Lemma state_ok_equals_key (s : session) :
  state_ok (globals s) -> state_ok (globals (equals_key' s)).
Proof.
  intros H. unfold equals_key.
  set (g := globals s) in *.
  match goal with
  | |- context [if (_ && Ascii.eqb _ "O" && negb (calculator_error ?x))%bool
                then _ else _] =>
      set (g1 := x); assert (state_ok g1) as H1
  end.
  { subst g1. destruct (_ && _)%bool; [| exact H]. now apply state_ok_commit. }
  match goal with
  | |- context [if negb (calculator_error ?x)
                then evaluate_full_expression _ else _] =>
      set (g2 := x); assert (state_ok g2) as H2
  end.
  { subst g2. destruct (_ && _ && _ && _)%bool; [| exact H1].
    apply state_ok_set_error; [unfold input_error; auto | exact H1]. }
  assert (state_ok (snd (if negb (calculator_error g2)
                         then evaluate_full_expression g2
                         else (F32.zero, g2)))) as H3.
  { destruct (negb (calculator_error g2)); [| exact H2].
    now apply state_ok_evaluate. }
  destruct (if negb (calculator_error g2) then evaluate_full_expression g2
            else (F32.zero, g2)) as [final_result g3].
  cbn [snd] in H3. cbn [globals].
  apply state_ok_reset_current, state_ok_emit.
  destruct (calculator_error (emit _ g3)).
  - now apply state_ok_emit, state_ok_emit.
  - now apply state_ok_display_result, state_ok_emit.
Qed.

Lemma state_ok_process_key (k : Z) (s : session) :
  state_ok (globals s) -> state_ok (globals (process_key' k s)).
Proof.
  intros H. unfold process_key.
  repeat match goal with
         | |- context [if ?c then _ else _] => destruct c
         end;
    auto using state_ok_digit_key, state_ok_decimal_key, state_ok_operator_key,
      state_ok_equals_key.
Qed.

Lemma state_ok_after_key (s : session) :
  state_ok (globals s) -> state_ok (globals (after_key s)).
Proof.
  intros H. unfold after_key.
  destruct (negb _); [| exact H].
  destruct (calculator_error (globals s)); cbn; now apply state_ok_emit.
Qed.

Lemma state_ok_input_states (k : Z) (s : session) :
  state_ok (globals s) -> state_ok (globals (input_states' k s)).
Proof.
  intros H. unfold input_states.
  destruct (_ && _)%bool.
  - destruct (k =? KEY_NONE); cbn; [exact H | now apply state_ok_emit].
  - destruct (k =? KEY_NONE); [exact H |].
    now apply state_ok_after_key, state_ok_process_key.
Qed.

Lemma state_ok_loop_iteration (k : Z) (s : session) :
  state_ok (globals s) -> state_ok (globals (loop_iteration' k s)).
Proof.
  intros H. unfold loop_iteration.
  destruct (calculation_has_ended s); [| now apply state_ok_input_states].
  destruct (negb (k =? KEY_NONE)); [| exact H].
  assert (state_ok (clear_all_state (globals s))) as Hc
    by (apply state_ok_clear; apply H).
  destruct (_ && _)%bool.
  - cbn. now apply state_ok_emit.
  - now apply state_ok_input_states.
Qed.

Lemma state_ok_run (keys : list Z) :
  forall s : session,
    state_ok (globals s) ->
    state_ok (globals (fold_left (fun s k => loop_iteration' k s) keys s)).
Proof.
  induction keys as [| k keys IH]; intros s H; [exact H |].
  cbn [fold_left]. now apply IH, state_ok_loop_iteration.
Qed.

Lemma state_ok_startup (st : state) :
  Z.of_nat (length (expr_type st)) = MAX_TOKENS ->
  Z.of_nat (length (expr_data st)) = MAX_TOKENS ->
  state_ok (globals (startup st)).
Proof.
  intros Ht Hd. unfold startup. cbn [globals].
  apply state_ok_emit, state_ok_emit. now apply state_ok_clear.
Qed.

(** X4. In every run of the loop, on any sequence of key codes, the three
    buffers stay inside their arrays: at most [MAX_TOKENS] tokens, a pending
    entry of at most [LCD_LINE_LEN] characters whose index is its length,
    and a history of at most 30 characters whose index is its length. *)
Theorem run_buffers_bounded :
  forall (keys : list Z) (st : state),
    Z.of_nat (length (expr_type st)) = MAX_TOKENS ->
    Z.of_nat (length (expr_data st)) = MAX_TOKENS ->
    let g := globals (RunCalculatorLogic' keys st) in
    0 <= expr_len g <= MAX_TOKENS /\
    Z.of_nat (length (expr_type g)) = MAX_TOKENS /\
    Z.of_nat (length (expr_data g)) = MAX_TOKENS /\
    current_num_index g = strlen (current_num_str g) /\
    current_num_index g <= LCD_LINE_LEN /\
    expression_index g = strlen (expression_str g) /\
    expression_index g <= MAX_DISPLAY_STR - 2.
Proof.
  intros keys st Ht Hd g.
  assert (state_ok g) as ((Ht' & Hd' & Hn) & (Hi & Hl) & (Hj & Hm) & _).
  { apply state_ok_run, state_ok_startup; assumption. }
  repeat split; try assumption; lia.
Qed.

(** X5. In every run of the loop the error state is clear, with an empty
    message, or holds one of "Err: Syntax", "Err: Div Zero", "Err: Expr
    Long" and "Err: Num Len": "Err: Stack" and "Err: Display" are never
    raised. *)
Theorem run_errors_known :
  forall (keys : list Z) (st : state),
    Z.of_nat (length (expr_type st)) = MAX_TOKENS ->
    Z.of_nat (length (expr_data st)) = MAX_TOKENS ->
    let g := globals (RunCalculatorLogic' keys st) in
    (calculator_error g = false /\ error_message g = EmptyString) \/
    (calculator_error g = true /\
     (error_message g = Err_Syntax \/ error_message g = Err_Div_Zero \/
      error_message g = Err_Expr_Long \/ error_message g = Err_Num_Len)).
Proof.
  intros keys st Ht Hd g.
  assert (state_ok g) as (_ & _ & _ & He).
  { apply state_ok_run, state_ok_startup; assumption. }
  exact He.
Qed.

End RunFacts.

(** ** Typing an expression and pressing [=] *)

Lemma digit_char_digit (d : Z) :
  KEY_0 <= d <= KEY_9 ->
  is_digit (digit_char d) = true /\ digit_of (digit_char d) = d /\
  digit_char d <> "-"%char /\ digit_char d <> "."%char.
Proof.
  unfold KEY_0, KEY_9. intros H.
  assert (d = 0 \/ d = 1 \/ d = 2 \/ d = 3 \/ d = 4 \/ d = 5 \/ d = 6 \/
          d = 7 \/ d = 8 \/ d = 9) as Hd by lia.
  repeat destruct Hd as [-> | Hd]; try subst d;
    (split; [reflexivity | split; [reflexivity | split; discriminate]]).
Qed.

Lemma typed_digits (ds : list Z) :
  Forall (fun d => KEY_0 <= d <= KEY_9) ds ->
  forallb is_digit (List.map digit_char ds) = true.
Proof.
  induction 1 as [| d ds Hd _ IH]; cbn; [reflexivity |].
  destruct (digit_char_digit d Hd) as (-> & _). exact IH.
Qed.

Lemma typed_cons (d : Z) (ds : list Z) :
  typed (d :: ds) = String (digit_char d) (typed ds).
Proof. reflexivity. Qed.

Lemma strlen_typed (ds : list Z) : strlen (typed ds) = Z.of_nat (length ds).
Proof.
  unfold strlen, typed. now rewrite length_text_of, length_map.
Qed.

Lemma list_ascii_typed (ds : list Z) :
  list_ascii_of_string (typed ds) = List.map digit_char ds.
Proof. unfold typed, text_of. apply list_ascii_of_string_of_list_ascii. Qed.

(** A text of digits is a numeric entry, and its value is the integer
    accumulation of its digits. *)
Lemma typed_entry (ds : list Z) :
  ds <> [] -> Forall (fun d => KEY_0 <= d <= KEY_9) ds ->
  numeric_entry (typed ds) = true /\
  typed ds <> "-"%string /\ typed ds <> "."%string.
Proof.
  intros Hne Hds. destruct ds as [| d ds]; [contradiction |].
  inversion_clear Hds as [| ? ? Hd Hrest].
  destruct (digit_char_digit d Hd) as (Hdig & _ & Hm & Hp).
  pose proof (typed_digits ds Hrest) as Hall.
  split; [| split].
  - unfold numeric_entry. rewrite list_ascii_typed. cbn [List.map split_sign].
    destruct (Ascii.eqb_spec (digit_char d) "-"); [contradiction |].
    cbn [snd forallb count_dots]. rewrite Hdig, (digit_not_dot _ Hdig).
    cbn [orb andb].
    assert (forall cs, forallb is_digit cs = true ->
              forallb (fun c => (is_digit c || Ascii.eqb c ".")%bool) cs = true
              /\ count_dots cs = 0%nat) as Haux.
    { induction cs as [| c cs IH]; cbn; [auto |].
      intros H. apply andb_prop in H as [Hc Hcs].
      rewrite Hc, (digit_not_dot c Hc). destruct (IH Hcs) as [-> ->]. auto. }
    destruct (Haux _ Hall) as [-> ->]. reflexivity.
  - rewrite typed_cons. intros [= E _]. contradiction.
  - rewrite typed_cons. intros [= E _]. contradiction.
Qed.

Section TypingFacts.

Context (roundf : float -> float)
        (printf_f0 printf_f printf_e3 : float -> string).

Local Abbreviation display_result' :=
  (display_result roundf printf_f0 printf_f printf_e3).
Local Abbreviation process_key' :=
  (process_key roundf printf_f0 printf_f printf_e3).
Local Abbreviation loop_iteration' :=
  (loop_iteration roundf printf_f0 printf_f printf_e3).
Local Abbreviation result_text' := (result_text roundf printf_f0 printf_f).
Local Abbreviation run' :=
  (fold_left (fun s k => loop_iteration roundf printf_f0 printf_f printf_e3 k s)).

Lemma display_result_text (r : float) (st : state) :
  display_result' r st = emit [LcdString (result_text' r)] st.
Proof.
  unfold display_result. fold (result_text' r).
  assert (strlen (result_text' r) <= LCD_LINE_LEN) as H0.
  { unfold result_text. destruct (F32.ltb _ _).
    - apply strncpy_length. unfold LCD_LINE_LEN. lia.
    - etransitivity; [apply trim_fraction_length |].
      apply strncpy_length. unfold LCD_LINE_LEN. lia. }
  apply Z.ltb_ge in H0. now rewrite H0, H0.
Qed.

Lemma press_digit (d : Z) (s : session) :
  entering s -> KEY_0 <= d <= KEY_9 ->
  current_num_index (globals s) < LCD_LINE_LEN ->
  loop_iteration' d s
  = mkSession
      (update_lcd_display_content (append_current (digit_char d) (globals s)))
      false (decimal_point_entered s) false.
Proof.
  intros Hent Hd Hroom.
  rewrite entering_key by (assumption || (unfold KEY_0, KEY_9, KEY_NONE in *; lia)).
  destruct Hent as [He Herr]. unfold process_key.
  assert (((KEY_0 <=? d) && (d <=? KEY_9))%bool = true) as ->.
  { apply andb_true_intro. split; apply Z.leb_le; lia. }
  unfold digit_key. apply Z.ltb_lt in Hroom. rewrite Hroom.
  unfold after_key, set_last_op, on_globals. cbn [calculation_has_ended globals].
  rewrite He. cbn [negb].
  change (calculator_error (append_current _ (globals s)))
    with (calculator_error (globals s)).
  rewrite Herr. reflexivity.
Qed.

Lemma append_assoc (a b c : string) :
  String.append (String.append a b) c = String.append a (String.append b c).
Proof. induction a as [| x a IH]; cbn; [reflexivity | now rewrite IH]. Qed.

Lemma append_empty (a : string) : String.append a EmptyString = a.
Proof. induction a as [| x a IH]; cbn; [reflexivity | now rewrite IH]. Qed.

Lemma type_digits (ds : list Z) :
  forall s : session,
    entering s -> pending_ok (globals s) ->
    Forall (fun d => KEY_0 <= d <= KEY_9) ds ->
    current_num_index (globals s) + Z.of_nat (length ds) <= LCD_LINE_LEN ->
    let s' := run' ds s in
    entering s' /\ pending_ok (globals s') /\
    extends (globals s) (globals s') (typed ds) /\
    decimal_point_entered s' = decimal_point_entered s.
Proof.
  induction ds as [| d ds IH]; intros s Hent Hp Hds Hroom.
  - cbn. repeat split; try assumption; try apply Hent; try apply Hp.
    + now rewrite append_empty.
    + change (strlen EmptyString) with 0. lia.
  - inversion_clear Hds as [| ? ? Hd Hrest]. cbn [length] in Hroom.
    cbn [fold_left]. rewrite press_digit by (assumption || lia).
    set (s1 := mkSession _ false (decimal_point_entered s) false).
    assert (entering s1) as Hent1 by (split; [reflexivity | apply Hent]).
    assert (pending_ok (globals s1)) as Hp1.
    { destruct Hp as [Hi Hl]. split; cbn.
      - rewrite Hi, str_put_end. unfold strlen. rewrite length_append. cbn. lia.
      - lia. }
    specialize (IH s1 Hent1 Hp1 Hrest). cbn zeta in IH.
    destruct IH as (He' & Hp' & Hx & Hdec); [cbn; lia |].
    split; [exact He' | split; [exact Hp' | split; [| exact Hdec]]].
    destruct Hx as (E1 & E2 & E3 & E4 & E5 & E6 & E7 & E8 & E9).
    unfold extends. rewrite E1, E2, E3, E4, E5, E6, E7, E8, E9.
    subst s1. unfold update_lcd_display_content, append_current, emit, with_current.
    cbn [calculator_error error_message expr_type expr_data expr_len
         expression_str expression_index current_num_str current_num_index
         globals].
    repeat split.
    + destruct Hp as [Hi _]. rewrite Hi, str_put_end, typed_cons.
      rewrite append_assoc. reflexivity.
    + rewrite typed_cons. unfold strlen. cbn [String.length].
      rewrite Nat2Z.inj_succ. lia.
Qed.

Lemma history_frame (text : string) (st : state) :
  calculator_error (add_to_expression_string text st) = calculator_error st /\
  expr_len (add_to_expression_string text st) = expr_len st /\
  current_num_index (add_to_expression_string text st) = current_num_index st /\
  current_num_str (add_to_expression_string text st) = current_num_str st /\
  lcd (add_to_expression_string text st) = lcd st.
Proof. unfold add_to_expression_string. now destruct (_ <? _). Qed.

Lemma holds_parse (st : state) (ds : list Z) :
  holds st (typed ds) -> digit_keys ds ->
  parse_current_input_number st = (decimal_value (typed ds), st) /\
  0 < current_num_index st.
Proof.
  intros Hh (Hne & Hds & Hlen).
  destruct (typed_entry ds Hne Hds) as (He & Hm & Hp).
  rewrite (parse_text st _ Hh), parse_chars_entry by assumption.
  split; [reflexivity |]. destruct Hh as [_ ->]. rewrite strlen_typed.
  destruct ds; [contradiction | cbn; lia].
Qed.

(** Committing a typed number appends one number token. *)
Lemma commit_typed (g : state) (ds : list Z) :
  state_ok g -> calculator_error g = false ->
  holds g (typed ds) -> digit_keys ds -> expr_len g < MAX_TOKENS ->
  let g1 := add_to_expression_string (current_num_str g)
              (push_operand_to_expr (decimal_value (typed ds)) g) in
  state_ok g1 /\ calculator_error g1 = false /\
  tokens g1 = tokens g ++ [("N"%char, decimal_value (typed ds))] /\
  expr_len g1 = expr_len g + 1 /\
  current_num_index g1 = current_num_index g /\
  current_num_str g1 = current_num_str g /\ lcd g1 = lcd g.
Proof.
  intros Hok Herr Hh Hd Hroom g1.
  destruct (do_push_room (PushNumber (decimal_value (typed ds))) g
              (proj1 Hok) Herr Hroom) as (Ht & Hl & He & _).
  cbn [do_push token_of] in *.
  destruct (history_frame (current_num_str g)
              (push_operand_to_expr (decimal_value (typed ds)) g))
    as (F1 & F2 & F3 & F4 & F5).
  subst g1. rewrite F1, F2, F3, F4, F5, tokens_history.
  split; [apply state_ok_history, (state_ok_push (PushNumber _)), Hok |].
  repeat split; try assumption;
    unfold push_operand_to_expr; rewrite Herr;
    apply Z.leb_gt in Hroom; now rewrite Hroom.
Qed.

Lemma press_operator (k : Z) (ds : list Z) (s : session) :
  entering s -> state_ok (globals s) ->
  holds (globals s) (typed ds) -> digit_keys ds ->
  KEY_PLUS <= k <= KEY_DIVIDE -> expr_len (globals s) + 2 <= MAX_TOKENS ->
  let s' := loop_iteration' k s in
  entering s' /\ state_ok (globals s') /\
  tokens (globals s')
  = tokens (globals s)
    ++ [("N"%char, decimal_value (typed ds));
        ("O"%char, float_of_char (operator_of_key k))] /\
  expr_len (globals s') = expr_len (globals s) + 2 /\
  current_num_index (globals s') = 0 /\
  current_num_str (globals s') = EmptyString.
Proof.
  intros Hent Hok Hh Hd Hk Hroom s'.
  assert (k <> KEY_NONE) as Hnone by (unfold KEY_NONE, KEY_DIVIDE in *; lia).
  subst s'. rewrite (entering_key roundf printf_f0 printf_f printf_e3 k s Hent Hnone).
  rewrite operator_key_chosen by exact Hk.
  destruct Hent as [Hended Herr].
  destruct (holds_parse _ ds Hh Hd) as [Hparse Hidx].
  destruct (commit_typed (globals s) ds Hok Herr Hh Hd ltac:(lia))
    as (Hok1 & Herr1 & Ht1 & Hl1 & _).
  set (g1 := add_to_expression_string _ _) in *.
  assert (state_ok (reset_current g1)) as Hok2 by now apply state_ok_reset_current.
  destruct (do_push_room (PushOperator (operator_of_key k)) (reset_current g1)
              (proj1 Hok2) Herr1 ltac:(cbn; lia)) as (Ht3 & Hl3 & He3 & _).
  cbn [do_push token_of] in *.
  assert (operator_key k s
          = set_last_op true
              (on_globals (push_operator_to_expr (operator_of_key k))
                 (set_decimal false (on_globals (fun _ => reset_current g1) s))))
    as ->.
  { unfold operator_key. fold (operator_of_key k).
    assert ((current_num_index (globals s) =? 0) = false) as ->
        by (apply Z.eqb_neq; lia).
    rewrite andb_false_r.
    assert ((0 <? current_num_index (globals s)) = true) as ->
        by (apply Z.ltb_lt; lia).
    rewrite Hparse, Herr. cbn [negb]. fold g1.
    cbn [globals set_decimal on_globals].
    change (calculator_error (reset_current g1)) with (calculator_error g1).
    rewrite Herr1. reflexivity. }
  unfold after_key, set_last_op, set_decimal, on_globals.
  cbn [calculation_has_ended globals]. rewrite Hended. cbn [negb].
  rewrite He3. cbn [globals calculation_has_ended].
  split; [split; [reflexivity | exact He3] |].
  split; [apply state_ok_emit, (state_ok_push (PushOperator _)), Hok2 |].
  change (tokens (update_lcd_display_content ?x)) with (tokens x).
  change (expr_len (update_lcd_display_content ?x)) with (expr_len x).
  rewrite Ht3, Hl3.
  change (tokens (reset_current g1)) with (tokens g1).
  change (expr_len (reset_current g1)) with (expr_len g1).
  rewrite Ht1, Hl1, <- app_assoc.
  split; [reflexivity |]. split; [lia |].
  unfold push_operator_to_expr.
  change (calculator_error (reset_current g1)) with (calculator_error g1).
  rewrite Herr1.
  change (expr_len (reset_current g1)) with (expr_len g1).
  assert ((MAX_TOKENS <=? expr_len g1) = false) as ->
      by (apply Z.leb_gt; lia).
  split; cbn; unfold add_to_expression_string; now destruct (_ <? _).
Qed.

Lemma press_equals (ds : list Z) (e : expr) (s : session) :
  entering s -> state_ok (globals s) ->
  holds (globals s) (typed ds) -> digit_keys ds ->
  expr_len (globals s) < MAX_TOKENS ->
  infix e ->
  tokens (globals s) ++ [("N"%char, decimal_value (typed ds))] = flatten e ->
  let s' := loop_iteration' KEY_EQUALS s in
  calculation_has_ended s' = true /\
  tokens (globals s') = flatten e /\
  match value e with
  | Some r =>
      calculator_error (globals s') = false /\
      lcd (globals s')
      = lcd (globals s) ++ result_shown roundf printf_f0 printf_f r
  | None =>
      calculator_error (globals s') = true /\
      error_message (globals s') = Err_Div_Zero /\
      lcd (globals s') = lcd (globals s) ++ error_shown Err_Div_Zero
  end.
Proof.
  intros Hent Hok Hh Hd Hroom He Htok s'.
  subst s'. rewrite (entering_key roundf printf_f0 printf_f printf_e3 _ s Hent)
    by discriminate.
  change (process_key' KEY_EQUALS s)
    with (equals_key roundf printf_f0 printf_f printf_e3 s).
  destruct Hent as [Hended Herr].
  destruct (holds_parse _ ds Hh Hd) as [Hparse Hidx].
  destruct (commit_typed (globals s) ds Hok Herr Hh Hd Hroom)
    as (Hok1 & Herr1 & Ht1 & Hl1 & Hi1 & _ & Hlcd1).
  set (g1 := add_to_expression_string _ _) in *.
  rewrite Htok in Ht1.
  pose proof (evaluate_infix e g1 He (proj1 Hok1) Herr1 Ht1) as Hev.
  unfold equals_key.
  assert ((0 <? current_num_index (globals s)) = true) as ->
      by (apply Z.ltb_lt; lia).
  rewrite Herr, Hparse. cbn [negb andb]. rewrite Herr. cbn [negb]. fold g1.
  assert ((current_num_index g1 =? 0) = false) as ->
      by (apply Z.eqb_neq; lia).
  cbn [andb]. rewrite Herr1. cbn [negb]. rewrite Hev.
  destruct (value e) as [r |]; cbv beta iota zeta;
    unfold after_key; cbn [calculation_has_ended negb globals];
    (split; [reflexivity |]).
  - change (calculator_error (emit _ g1)) with (calculator_error g1).
    rewrite Herr1, display_result_text.
    split; [exact Ht1 |]. split; [exact Herr1 |].
    cbn. rewrite Hlcd1, <- !app_assoc. reflexivity.
  - change (calculator_error (emit ?x (set_error ?m g1)))
      with (calculator_error (set_error m g1)).
    rewrite set_error_sets.
    split; [| unfold set_error; rewrite Herr1; cbn;
              rewrite Hlcd1, <- !app_assoc; repeat split].
    unfold set_error. rewrite Herr1. exact Ht1.
Qed.

Lemma state_ok_extends (g g' : state) (text : string) :
  state_ok g -> extends g g' text -> pending_ok g' -> state_ok g'.
Proof.
  intros (Hb & _ & Hh & He) (E1 & E2 & E3 & E4 & E5 & E6 & E7 & _) Hp.
  unfold state_ok, buffer_ok, history_ok, error_ok in *.
  rewrite E1, E2, E3, E4, E5, E6, E7. auto.
Qed.

Lemma operator_is_operator (k : Z) :
  KEY_PLUS <= k <= KEY_DIVIDE -> is_operator (operator_of_key k) = true.
Proof.
  intros Hk.
  destruct (operator_of_key_cases k Hk)
    as [[_ ->] | [[_ ->] | [[_ ->] | [_ ->]]]]; reflexivity.
Qed.

(** The keys [(operator digits)*] after a typed number: every operator
    key commits the number before it. *)
Lemma type_rest (rest : list (Z * list Z)) :
  forall (ds0 : list Z) (s : session),
    entering s -> state_ok (globals s) ->
    holds (globals s) (typed ds0) -> digit_keys ds0 ->
    Forall (fun '(k, ds) => KEY_PLUS <= k <= KEY_DIVIDE /\ digit_keys ds) rest ->
    expr_len (globals s) + 1 + 2 * Z.of_nat (length rest) <= MAX_TOKENS ->
    let s' := run' (flat_map (fun '(k, ds) => k :: ds) rest) s in
    exists ds1 : list Z,
      entering s' /\ state_ok (globals s') /\
      holds (globals s') (typed ds1) /\ digit_keys ds1 /\
      expr_len (globals s') < MAX_TOKENS /\
      tokens (globals s') ++ [("N"%char, decimal_value (typed ds1))]
      = (tokens (globals s) ++ [("N"%char, decimal_value (typed ds0))])
        ++ flat_map (fun '(op, v) => [("O"%char, float_of_char op); ("N"%char, v)])
             (typed_rest rest).
Proof.
  induction rest as [| [k ds] rest IH]; intros ds0 s Hent Hok Hh Hd Hrest Hroom;
    cbv zeta.
  - cbn [flat_map fold_left typed_rest List.map]. exists ds0. rewrite app_nil_r.
    change (Z.of_nat (length [])) with 0 in Hroom.
    split; [exact Hent | split; [exact Hok | split; [exact Hh |]]].
    apply conj; [exact Hd | apply conj; [lia | reflexivity]].
  - inversion_clear Hrest as [| ? ? Hkd Hrest']. destruct Hkd as [Hk Hds].
    cbn [length] in Hroom. cbn [flat_map]. rewrite <- app_comm_cons.
    cbn [fold_left]. rewrite fold_left_app.
    destruct (press_operator k ds0 s Hent Hok Hh Hd Hk ltac:(lia))
      as (Hent1 & Hok1 & Ht1 & Hl1 & Hi1 & Hs1).
    set (s1 := loop_iteration' k s) in *.
    destruct Hds as (Hne & Hdig & Hlen).
    destruct (type_digits ds s1 Hent1 (proj1 (proj2 Hok1)) Hdig
                ltac:(rewrite Hi1; lia)) as (Hent2 & Hp2 & Hx & _).
    set (s2 := fold_left _ ds s1) in *.
    assert (state_ok (globals s2)) as Hok2 by (eapply state_ok_extends; eauto).
    assert (holds (globals s2) (typed ds)) as Hh2.
    { destruct Hx as (_ & _ & _ & _ & _ & _ & _ & E8 & E9).
      split; [now rewrite E8, Hs1 | rewrite E9, Hi1; lia]. }
    assert (tokens (globals s2) = tokens (globals s1)
            /\ expr_len (globals s2) = expr_len (globals s1)) as [Ht2 Hl2].
    { destruct Hx as (_ & _ & E3 & E4 & E5 & _). unfold tokens.
      now rewrite E3, E4, E5. }
    destruct (IH ds s2 Hent2 Hok2 Hh2 (conj Hne (conj Hdig Hlen)) Hrest'
                ltac:(lia)) as (ds1 & H1 & H2 & H3 & H4 & H5 & H6).
    exists ds1.
    split; [exact H1 | split; [exact H2 | split; [exact H3 |]]].
    apply conj; [exact H4 | apply conj; [exact H5 |]].
    rewrite H6, Ht2, Ht1. cbn [typed_rest List.map flat_map].
    rewrite <- !app_assoc. reflexivity.
Qed.

(** X6. Typing [digits (operator digits)*] and then [=] on a cleared
    session: the buffer ends up holding the numbers typed and the operators
    between them, and the display receives the value of that expression,
    precedence and left-to-right grouping applied, as the result text - or
    "Err: Div Zero" when a division in it faults. *)
Theorem typed_expression_is_evaluated :
  forall (first : list Z) (rest : list (Z * list Z)) (s : session),
    entering s -> state_ok (globals s) ->
    expr_len (globals s) = 0 -> current_num_index (globals s) = 0 ->
    digit_keys first ->
    Forall (fun '(k, ds) => KEY_PLUS <= k <= KEY_DIVIDE /\ digit_keys ds) rest ->
    1 + 2 * Z.of_nat (length rest) <= MAX_TOKENS ->
    let e := parse_infix (decimal_value (typed first)) (typed_rest rest) in
    let s' := run' (expression_keys first rest) s in
    infix e /\
    calculation_has_ended s' = true /\
    tokens (globals s')
    = infix_tokens (decimal_value (typed first)) (typed_rest rest) /\
    match value e with
    | Some r =>
        calculator_error (globals s') = false /\
        exists before,
          lcd (globals s') = before ++ result_shown roundf printf_f0 printf_f r
    | None =>
        calculator_error (globals s') = true /\
        error_message (globals s') = Err_Div_Zero /\
        exists before,
          lcd (globals s') = before ++ error_shown Err_Div_Zero
    end.
Proof.
  intros first rest s Hent Hok Hlen0 Hidx0 Hfirst Hrest Hroom e s'.
  assert (Forall (fun '(op, _) => is_operator op = true) (typed_rest rest)) as Hops.
  { unfold typed_rest. apply Forall_map.
    eapply Forall_impl; [exact Hrest |]. intros [k ds] [Hk _]. cbn.
    now apply operator_is_operator. }
  destruct (parse_infix_sound (decimal_value (typed first)) _ Hops)
    as [Hinfix Hflat].
  fold e in Hinfix, Hflat.
  assert (tokens (globals s) = []) as Ht0.
  { unfold tokens. now rewrite Hlen0. }
  destruct Hfirst as (Hne & Hdig & Hl).
  destruct (type_digits first s Hent (proj1 (proj2 Hok)) Hdig
              ltac:(rewrite Hidx0; lia)) as (Hent1 & Hp1 & Hx & _).
  set (s1 := fold_left _ first s) in *.
  assert (state_ok (globals s1)) as Hok1 by (eapply state_ok_extends; eauto).
  assert (current_num_str (globals s) = EmptyString) as Hstr0.
  { destruct Hok as (_ & [Hi _] & _). rewrite Hidx0 in Hi. unfold strlen in Hi.
    destruct (current_num_str (globals s)); [reflexivity | cbn in Hi; lia]. }
  assert (holds (globals s1) (typed first)) as Hh1.
  { destruct Hx as (_ & _ & _ & _ & _ & _ & _ & E8 & E9).
    split; [now rewrite E8, Hstr0 | rewrite E9, Hidx0; lia]. }
  assert (tokens (globals s1) = [] /\ expr_len (globals s1) = 0) as [Ht1 Hl1].
  { destruct Hx as (_ & _ & E3 & E4 & E5 & _). unfold tokens.
    rewrite E3, E4, E5. fold (tokens (globals s)). auto. }
  destruct (type_rest rest first s1 Hent1 Hok1 Hh1 (conj Hne (conj Hdig Hl))
              Hrest ltac:(lia)) as (ds1 & Hent2 & Hok2 & Hh2 & Hd2 & Hl2 & Ht2).
  set (s2 := fold_left _ _ s1) in *.
  rewrite Ht1 in Ht2. cbn [app] in Ht2.
  fold (infix_tokens (decimal_value (typed first)) (typed_rest rest)) in Ht2.
  rewrite <- Hflat in Ht2.
  destruct (press_equals ds1 e s2 Hent2 Hok2 Hh2 Hd2 Hl2 Hinfix Ht2)
    as (Hend & Htok & Hval).
  assert (s' = loop_iteration' KEY_EQUALS s2) as ->.
  { subst s' s2 s1. unfold expression_keys.
    now rewrite !fold_left_app. }
  split; [exact Hinfix |]. split; [exact Hend |].
  split; [now rewrite Htok |].
  destruct (value e) as [r |].
  - destruct Hval as [H1 H2]. split; [exact H1 | eauto].
  - destruct Hval as (H1 & H2 & H3). repeat split; eauto.
Qed.

End TypingFacts.

(** ** Idle polls, limits of an entry, keys after a result *)

Section KeyFacts.

Context (roundf : float -> float)
        (printf_f0 printf_f printf_e3 : float -> string).

Local Abbreviation process_key' :=
  (process_key roundf printf_f0 printf_f printf_e3).
Local Abbreviation input_states' :=
  (input_states roundf printf_f0 printf_f printf_e3).
Local Abbreviation loop_iteration' :=
  (loop_iteration roundf printf_f0 printf_f printf_e3).
Local Abbreviation RunCalculatorLogic' :=
  (RunCalculatorLogic roundf printf_f0 printf_f printf_e3).

Lemma idle_poll (s : session) : loop_iteration' KEY_NONE s = s.
Proof.
  unfold loop_iteration, input_states.
  change (KEY_NONE =? KEY_NONE) with true. cbn [negb].
  destruct (calculation_has_ended s); [reflexivity |].
  now destruct (_ && _)%bool.
Qed.

(** X7. Polls that find no key are unobservable: a run on any sequence of
    observations ends in the same session, display trace included, as the
    run on its key presses alone. *)
Theorem idle_polls_unobservable :
  forall (keys : list Z) (st : state),
    RunCalculatorLogic' keys st = RunCalculatorLogic' (pressed keys) st.
Proof.
  intros keys st. unfold RunCalculatorLogic. generalize (startup st).
  induction keys as [| k keys IH]; intros s; [reflexivity |].
  cbn [fold_left pressed List.filter].
  destruct (Z.eqb_spec k KEY_NONE) as [-> | Hk]; cbn [negb fold_left].
  - rewrite idle_poll. apply IH.
  - apply IH.
Qed.

(** X8. The limits of a pending entry, in the input phase: a digit on an
    entry of [LCD_LINE_LEN] characters raises "Err: Num Len" and leaves the
    entry and the token buffer as they are; a second decimal point raises
    "Err: Syntax"; a first decimal point on an entry of 15 characters or
    more raises "Err: Num Len"; a decimal point on the empty entry starts
    the entry "0.". *)
Theorem entry_limits :
  forall s : session,
    entering s -> pending_ok (globals s) ->
    (forall d : Z,
        KEY_0 <= d <= KEY_9 ->
        current_num_index (globals s) = LCD_LINE_LEN ->
        let g' := globals (loop_iteration' d s) in
        calculator_error g' = true /\ error_message g' = Err_Num_Len /\
        current_num_str g' = current_num_str (globals s) /\
        tokens g' = tokens (globals s)) /\
    (decimal_point_entered s = true ->
     let g' := globals (loop_iteration' KEY_DECIMAL s) in
     calculator_error g' = true /\ error_message g' = Err_Syntax /\
     current_num_str g' = current_num_str (globals s)) /\
    (decimal_point_entered s = false ->
     LCD_LINE_LEN - 1 <= current_num_index (globals s) ->
     let g' := globals (loop_iteration' KEY_DECIMAL s) in
     calculator_error g' = true /\ error_message g' = Err_Num_Len /\
     current_num_str g' = current_num_str (globals s)) /\
    (decimal_point_entered s = false ->
     current_num_index (globals s) = 0 ->
     let s' := loop_iteration' KEY_DECIMAL s in
     calculator_error (globals s') = false /\
     current_num_str (globals s') = "0."%string /\
     current_num_index (globals s') = 2 /\
     decimal_point_entered s' = true).
Proof.
  intros s Hent Hp. pose proof Hent as [Hended Herr].
  assert (forall m st, calculator_error st = false ->
            calculator_error (set_error m st) = true /\
            error_message (set_error m st) = strncpy (ERROR_MSG_LEN - 1) m /\
            current_num_str (set_error m st) = current_num_str st /\
            tokens (set_error m st) = tokens st) as Hset.
  { intros m st H. unfold set_error. rewrite H. repeat split. }
  split; [| split; [| split]].
  - intros d Hd Hfull g'. subst g'.
    rewrite (entering_key roundf printf_f0 printf_f printf_e3 d s Hent)
      by (unfold KEY_0, KEY_9, KEY_NONE in *; lia).
    destruct (after_key_globals (process_key' d s)) as (-> & -> & -> & _ & -> & _).
    unfold process_key.
    assert (((KEY_0 <=? d) && (d <=? KEY_9))%bool = true) as ->
        by (apply andb_true_intro; split; apply Z.leb_le; lia).
    unfold digit_key. rewrite Hfull. change (LCD_LINE_LEN <? LCD_LINE_LEN) with false.
    cbn [on_globals globals]. destruct (Hset Err_Num_Len _ Herr) as (? & ? & ? & ?).
    auto.
  - intros Hdec g'. subst g'.
    rewrite (entering_key roundf printf_f0 printf_f printf_e3 _ s Hent) by discriminate.
    destruct (after_key_globals (process_key' KEY_DECIMAL s))
      as (-> & -> & _ & _ & -> & _).
    change (process_key' KEY_DECIMAL s) with (decimal_key s).
    unfold decimal_key. rewrite Hdec. cbn [negb andb on_globals globals].
    destruct (Hset Err_Syntax _ Herr) as (? & ? & ? & ?). auto.
  - intros Hdec Hfull g'. subst g'.
    rewrite (entering_key roundf printf_f0 printf_f printf_e3 _ s Hent) by discriminate.
    destruct (after_key_globals (process_key' KEY_DECIMAL s))
      as (-> & -> & _ & _ & -> & _).
    change (process_key' KEY_DECIMAL s) with (decimal_key s).
    unfold decimal_key. rewrite Hdec. cbn [negb andb].
    apply Z.ltb_ge in Hfull. rewrite Hfull. cbn [on_globals globals].
    destruct (Hset Err_Num_Len _ Herr) as (? & ? & ? & ?). auto.
  - intros Hdec Hzero s'. subst s'.
    rewrite (entering_key roundf printf_f0 printf_f printf_e3 _ s Hent) by discriminate.
    change (process_key' KEY_DECIMAL s) with (decimal_key s).
    unfold decimal_key. rewrite Hdec, Hzero. cbn [negb andb].
    change (0 <? LCD_LINE_LEN - 1) with true. change (0 =? 0) with true. cbv iota.
    unfold after_key, set_last_op, set_decimal, on_globals.
    cbn [calculation_has_ended globals decimal_point_entered].
    rewrite Hended. cbn [negb].
    change (calculator_error (append_current _ (append_current _ (globals s))))
      with (calculator_error (globals s)).
    rewrite Herr. cbn [globals decimal_point_entered].
    unfold update_lcd_display_content, append_current, emit, with_current.
    cbn [calculator_error current_num_str current_num_index].
    rewrite Hzero. repeat split; [exact Herr |].
    unfold str_put. cbn. now destruct (current_num_str (globals s)).
Qed.

(** X9. A key pressed while a result or an error is shown starts a new
    session: [=] on an error only clears, leaving an empty buffer, entry and
    history with no error; every other key, and [=] on a result, acts as
    that key does on the cleared session, so nothing of the previous
    calculation is carried over. *)
Theorem key_after_result :
  forall (s : session) (k : Z),
    calculation_has_ended s = true -> k <> KEY_NONE ->
    (k = KEY_EQUALS -> calculator_error (globals s) = true ->
     let s' := loop_iteration' k s in
     entering s' /\ tokens (globals s') = [] /\
     current_num_str (globals s') = EmptyString /\
     expression_str (globals s') = EmptyString /\
     error_message (globals s') = EmptyString) /\
    (k <> KEY_EQUALS \/ calculator_error (globals s) = false ->
     loop_iteration' k s = loop_iteration' k (cleared s)).
Proof.
  intros s k Hended Hk. apply Z.eqb_neq in Hk.
  unfold loop_iteration. rewrite Hended, Hk. cbn [negb]. split.
  - intros -> Herr. rewrite Herr. cbn. repeat split.
  - intros Hcase. cbn [cleared calculation_has_ended].
    destruct Hcase as [Hne | Herr].
    + apply Z.eqb_neq in Hne. rewrite Hne. reflexivity.
    + rewrite Herr, andb_false_r. reflexivity.
Qed.

End KeyFacts.

(** * The keypad *)

Lemma land_bit (temp : Z) (n : Z) :
  0 <= n -> (Z.land temp (Z.shiftl 1 n) =? 0) = negb (Z.testbit temp n).
Proof.
  intros Hn. destruct (Z.testbit temp n) eqn:E; cbn [negb].
  - apply Z.eqb_neq. intros H0.
    assert (Z.testbit (Z.land temp (Z.shiftl 1 n)) n = true) as Hb.
    { rewrite Z.land_spec, E, Z.shiftl_spec by lia. now rewrite Z.sub_diag. }
    rewrite H0 in Hb. now rewrite Z.bits_0 in Hb.
  - apply Z.eqb_eq. apply Z.bits_inj'. intros m Hm.
    rewrite Z.land_spec, Z.bits_0, Z.shiftl_spec by lia.
    destruct (Z.eq_dec m n) as [-> | Hne]; [now rewrite E |].
    destruct (Z.lt_ge_cases m n).
    + rewrite (Z.testbit_neg_r 1 (m - n)) by lia. apply andb_false_r.
    + replace (Z.testbit 1 (m - n)) with false; [apply andb_false_r |].
      symmetry. apply (Z.bits_above_log2 1 (m - n)); cbn; lia.
Qed.

(** X10. The scan reports a column exactly when its pin reads low and the
    pins of the columns before it read high; when a single row shows a low
    column, the scan returns the code of that key, and the sixteen keys have
    the sixteen codes 0..15, each once. *)
Theorem scan_finds_key :
  (forall temp : Z,
      ReadColumnNumber temp
      = if negb (Z.testbit temp 0) then 0
        else if negb (Z.testbit temp 1) then 1
        else if negb (Z.testbit temp 4) then 2
        else if negb (Z.testbit temp 8) then 3
        else 4) /\
  (forall (fiopin : Z -> Z) (row col : Z),
      0 <= row < 4 -> 0 <= col < 4 ->
      (forall r, 0 <= r < row -> ReadColumnNumber (fiopin r) = 4) ->
      ReadColumnNumber (fiopin row) = col ->
      scan_keypad fiopin = key_code row col /\ 0 <= key_code row col <= 15) /\
  (forall fiopin : Z -> Z,
      (forall r, 0 <= r < 4 -> ReadColumnNumber (fiopin r) = 4) ->
      scan_keypad fiopin = 255) /\
  (forall row col row' col' : Z,
      0 <= row < 4 -> 0 <= col < 4 -> 0 <= row' < 4 -> 0 <= col' < 4 ->
      key_code row col = key_code row' col' -> row = row' /\ col = col').
Proof.
  split; [| split; [| split]].
  - intros temp. unfold ReadColumnNumber. now rewrite !land_bit by lia.
  - intros fiopin row col Hr Hc Hbefore Hcol.
    assert (row = 0 \/ row = 1 \/ row = 2 \/ row = 3) as Hrow by lia.
    assert (col = 0 \/ col = 1 \/ col = 2 \/ col = 3) as Hcols by lia.
    unfold scan_keypad, scan_rows.
    destruct Hrow as [-> | [-> | [-> | ->]]];
      rewrite ?(Hbefore 0), ?(Hbefore 1), ?(Hbefore 2) by lia;
      rewrite Hcol;
      destruct Hcols as [-> | [-> | [-> | ->]]];
      (split; [reflexivity | vm_compute; split; discriminate]).
  - intros fiopin H. unfold scan_keypad, scan_rows.
    now rewrite !H by lia.
  - intros row col row' col' Hr Hc Hr' Hc'.
    assert (row = 0 \/ row = 1 \/ row = 2 \/ row = 3) as H1 by lia.
    assert (col = 0 \/ col = 1 \/ col = 2 \/ col = 3) as H2 by lia.
    assert (row' = 0 \/ row' = 1 \/ row' = 2 \/ row' = 3) as H3 by lia.
    assert (col' = 0 \/ col' = 1 \/ col' = 2 \/ col' = 3) as H4 by lia.
    destruct H1 as [-> | [-> | [-> | ->]]];
      destruct H2 as [-> | [-> | [-> | ->]]];
      destruct H3 as [-> | [-> | [-> | ->]]];
      destruct H4 as [-> | [-> | [-> | ->]]];
      vm_compute; intros H; (discriminate H || (split; reflexivity)).
Qed.

Lemma debounce_held (k j : Z) :
  k <> 255 -> 1 <= j ->
  debounce k (held k j) = (if j + 1 =? 5 then k else 255, held k (j + 1)).
Proof.
  intros Hk Hj. unfold debounce, held. cbn [lastKey debounceCount stableCount].
  apply Z.eqb_neq in Hk. rewrite Hk, Z.eqb_refl. cbn [negb].
  destruct (Z.leb_spec 5 (j + 1)) as [H5 | H5].
  - destruct (Z.leb_spec 5 j) as [H5' | H5'].
    + cbn. destruct (Z.eqb_spec (j + 1) 5); [lia | reflexivity].
    + cbn. assert (j + 1 = 5) as E by lia. rewrite E. reflexivity.
  - destruct (Z.leb_spec 5 j); [lia |].
    destruct (Z.eqb_spec (j + 1) 5); [lia | reflexivity].
Qed.

Lemma polls_held (k : Z) (n : nat) :
  k <> 255 ->
  forall j : Z,
    1 <= j ->
    polls (repeat k n) (held k j)
    = (List.map (fun i => if j + 1 + Z.of_nat i =? 5 then k else 255) (seq 0 n),
       held k (j + Z.of_nat n)).
Proof.
  intros Hk. induction n as [| n IH]; intros j Hj.
  - cbn. now rewrite Z.add_0_r.
  - cbn [repeat polls]. rewrite debounce_held by assumption.
    rewrite IH by lia. cbn [seq List.map]. rewrite Z.add_0_r.
    f_equal; [| f_equal; lia].
    f_equal. rewrite <- seq_shift, List.map_map.
    apply List.map_ext. intros i. now replace (j + 1 + 1 + Z.of_nat i)
      with (j + 1 + Z.of_nat (S i)) by lia.
Qed.

Lemma polls_app (a b : list Z) :
  forall st : keypad_state,
    polls (a ++ b) st
    = (fst (polls a st) ++ fst (polls b (snd (polls a st))),
       snd (polls b (snd (polls a st)))).
Proof.
  induction a as [| k a IH]; intros st; cbn [app polls].
  - cbn [fst snd app]. now destruct (polls b st).
  - destruct (debounce k st) as [r st1]. rewrite IH.
    destruct (polls a st1) as [rs st2]. reflexivity.
Qed.

(** X11. Debouncing: a key that is pressed, read [n] times in a row and
    then released is reported once, by the fifth read, and every other call
    returns [0xFF]; a press of fewer than five reads is not reported at
    all.  The release brings the statics back to their initial values. *)
Theorem key_reported_once :
  forall (k : Z) (n : nat),
    0 <= k <= 15 -> (1 <= n)%nat -> Z.of_nat n < 2 ^ 31 ->
    polls (repeat k n ++ [255]) keypad_idle
    = (List.map (fun i => if Z.of_nat i =? 4 then k else 255) (seq 0 n) ++ [255],
       keypad_idle).
Proof.
  intros k n Hk Hn _. assert (k <> 255) as Hne by lia.
  destruct n as [| n]; [lia |].
  rewrite polls_app. cbn [repeat polls].
  assert (debounce k keypad_idle = (255, held k 1)) as ->.
  { unfold debounce, keypad_idle, held. cbn [lastKey].
    apply Z.eqb_neq in Hne. rewrite !Hne. reflexivity. }
  rewrite (polls_held k n Hne 1) by lia. cbn [fst snd].
  assert (debounce 255 (held k (1 + Z.of_nat n)) = (255, keypad_idle)) as ->.
  { unfold debounce, held. cbn [lastKey]. change (255 =? 255) with true.
    cbn [negb]. apply Z.eqb_neq in Hne. rewrite !Hne. reflexivity. }
  cbn [fst snd seq List.map]. f_equal. f_equal. f_equal.
  rewrite <- seq_shift, List.map_map. apply List.map_ext. intros i.
  destruct (Z.eqb_spec (1 + 1 + Z.of_nat i) 5), (Z.eqb_spec (Z.of_nat (S i)) 4);
    (reflexivity || lia).
Qed.

Lemma key_reported_once_witness :
  polls (repeat 7 6 ++ [255]) keypad_idle
  = ([255; 255; 255; 255; 7; 255; 255], keypad_idle).
Proof.
  apply (key_reported_once 7 6); [lia | lia | reflexivity].
Defined.

Lemma scan_finds_key_witness :
  scan_keypad (fun row => if row =? 2 then 4294967293 else 4294967295)
  = key_code 2 1 /\ 0 <= key_code 2 1 <= 15.
Proof.
  apply (proj1 (proj2 scan_finds_key)
           (fun row => if row =? 2 then 4294967293 else 4294967295) 2 1);
    try lia.
  - intros r Hr. assert (r = 0 \/ r = 1) as [-> | ->] by lia; reflexivity.
  - reflexivity.
Defined.

(** * The display driver *)

Lemma testbit_pin (k n : Z) :
  0 <= k -> Z.testbit (Z.shiftl 1 k) n = (n =? k).
Proof.
  intros Hk. destruct (Z.lt_ge_cases n 0) as [Hn | Hn].
  - rewrite Z.testbit_neg_r by lia. symmetry. apply Z.eqb_neq. lia.
  - rewrite Z.shiftl_spec by lia.
    destruct (Z.eqb_spec n k) as [-> | Hne]; [now rewrite Z.sub_diag |].
    destruct (Z.lt_ge_cases n k).
    + apply Z.testbit_neg_r. lia.
    + apply (Z.bits_above_log2 1 (n - k)); cbn; lia.
Qed.

Lemma testbit_15 (n : Z) : Z.testbit 15 n = ((0 <=? n) && (n <? 4))%bool.
Proof. change 15 with (Z.ones 4). apply Z.testbit_ones. lia. Qed.

Lemma testbit_data_mask (n : Z) :
  Z.testbit (Z.shiftl 15 19) n = ((19 <=? n) && (n <? 23))%bool.
Proof.
  destruct (Z.lt_ge_cases n 0) as [Hn | Hn].
  - rewrite Z.testbit_neg_r by lia. symmetry.
    apply andb_false_intro1. apply Z.leb_gt. lia.
  - rewrite Z.shiftl_spec, testbit_15 by lia.
    destruct (Z.leb_spec 0 (n - 19)), (Z.leb_spec 19 n),
      (Z.ltb_spec (n - 19) 4), (Z.ltb_spec n 23); cbn; (reflexivity || lia).
Qed.

Lemma testbit_nibble_high (x n : Z) :
  0 <= x < 16 -> 4 <= n -> Z.testbit x n = false.
Proof.
  intros Hx Hn. destruct (Z.eq_dec x 0) as [-> | Hx0]; [apply Z.bits_0 |].
  apply Z.bits_above_log2; [lia |].
  apply Z.log2_lt_pow2; [lia |].
  apply Z.lt_le_trans with (2 ^ 4); [cbn; lia |].
  apply Z.pow_le_mono_r; lia.
Qed.

(** The word on the pins during an enable pulse carries the nibble, and the
    pulse changes the data pins and the enable pin only. *)
Lemma send_nibble_spec (nibble pins : Z) :
  0 <= nibble < 16 ->
  let (w, pins') := send_nibble nibble pins in
  data_pins w = nibble /\
  Z.testbit w EN = true /\ Z.testbit pins' EN = false /\
  (forall n, n <> EN -> ~ 19 <= n < 23 -> Z.testbit w n = Z.testbit pins n) /\
  (forall n, n <> EN -> ~ 19 <= n < 23 -> Z.testbit pins' n = Z.testbit pins n).
Proof.
  intros Hn. unfold send_nibble, FIOSET, FIOCLR, data_pins.
  assert (bits : forall n,
    Z.testbit (Z.lor (Z.lor (Z.ldiff pins (Z.shiftl 15 19)) (Z.shiftl nibble 19))
                 (Z.shiftl 1 EN)) n
    = (((Z.testbit pins n && negb ((19 <=? n) && (n <? 23)))
        || Z.testbit (Z.shiftl nibble 19) n) || (n =? EN))%bool).
  { intros n. rewrite !Z.lor_spec, Z.ldiff_spec, testbit_data_mask, testbit_pin
      by (unfold EN; lia). reflexivity. }
  assert (outside : forall n, ~ 19 <= n < 23 ->
    Z.testbit (Z.shiftl nibble 19) n = false).
  { intros n Hout. destruct (Z.lt_ge_cases n 0); [apply Z.testbit_neg_r; lia |].
    rewrite Z.shiftl_spec by lia.
    destruct (Z.lt_ge_cases n 19); [apply Z.testbit_neg_r; lia |].
    apply testbit_nibble_high; lia. }
  split; [| split; [| split; [| split]]].
  - apply Z.bits_inj'. intros n Hn0.
    rewrite Z.land_spec, Z.shiftr_spec, testbit_15, bits by lia.
    rewrite Z.shiftl_spec by lia. replace (n + 19 - 19) with n by lia.
    destruct (Z.ltb_spec n 4) as [H4 | H4].
    + assert ((19 <=? n + 19) && (n + 19 <? 23) = true)%bool as ->
          by (apply andb_true_intro; split; [apply Z.leb_le | apply Z.ltb_lt]; lia).
      assert ((n + 19 =? EN) = false) as -> by (apply Z.eqb_neq; unfold EN; lia).
      assert ((0 <=? n) = true) as -> by (apply Z.leb_le; lia).
      cbn [negb andb]. rewrite andb_false_r, orb_false_r, andb_true_r.
      reflexivity.
    + rewrite (testbit_nibble_high nibble n) by lia.
      now rewrite !andb_false_r.
  - rewrite bits. change (EN =? EN) with true. apply orb_true_r.
  - rewrite Z.ldiff_spec, testbit_pin by (unfold EN; lia).
    change (EN =? EN) with true. apply andb_false_r.
  - intros n Hen Hout. rewrite bits, (outside n Hout).
    apply Z.eqb_neq in Hen. rewrite Hen.
    assert ((19 <=? n) && (n <? 23) = false)%bool as ->.
    { destruct (Z.leb_spec 19 n), (Z.ltb_spec n 23); cbn; (reflexivity || lia). }
    cbn [negb]. now rewrite andb_true_r, !orb_false_r.
  - intros n Hen Hout.
    rewrite Z.ldiff_spec, testbit_pin, bits, (outside n Hout) by (unfold EN; lia).
    apply Z.eqb_neq in Hen. rewrite Hen.
    assert ((19 <=? n) && (n <? 23) = false)%bool as ->.
    { destruct (Z.leb_spec 19 n), (Z.ltb_spec n 23); cbn; (reflexivity || lia). }
    cbn [negb]. now rewrite !andb_true_r, !orb_false_r.
Qed.

Lemma byte_nibbles (data : Z) :
  0 <= data < 256 ->
  0 <= Z.shiftr (Z.land data 240) 4 < 16 /\ 0 <= Z.land data 15 < 16 /\
  16 * Z.shiftr (Z.land data 240) 4 + Z.land data 15 = data.
Proof.
  intros Hd.
  assert (forallb (fun d =>
            (0 <=? Z.shiftr (Z.land d 240) 4) && (Z.shiftr (Z.land d 240) 4 <? 16)
            && (0 <=? Z.land d 15) && (Z.land d 15 <? 16)
            && (16 * Z.shiftr (Z.land d 240) 4 + Z.land d 15 =? d))%bool
            (List.map Z.of_nat (seq 0 256)) = true) as Hall
      by (vm_compute; reflexivity).
  rewrite forallb_forall in Hall.
  specialize (Hall data). rewrite in_map_iff in Hall.
  assert (exists x, Z.of_nat x = data /\ In x (seq 0 256)) as Hin.
  { exists (Z.to_nat data). split; [lia |]. apply in_seq. lia. }
  specialize (Hall Hin).
  repeat (apply andb_prop in Hall as [Hall ?]).
  repeat match goal with
         | H : (_ <=? _) = true |- _ => apply Z.leb_le in H
         | H : (_ <? _) = true |- _ => apply Z.ltb_lt in H
         | H : (_ =? _) = true |- _ => apply Z.eqb_eq in H
         end.
  lia.
Qed.

(** One call of [lcdchar]: two words, the register select and the halves of
    the byte on them, the pins outside the display's untouched. *)
Lemma lcdchar_spec (data : Z) (type : ascii) (pins : Z) :
  0 <= data < 256 ->
  exists w1 w2 pins',
    lcdchar data type pins = ([w1; w2], pins') /\
    Z.testbit w1 RS = negb (Ascii.eqb type "C") /\
    16 * data_pins w1 + data_pins w2 = data /\
    (Z.testbit w1 RW = false /\ Z.testbit w1 EN = true) /\
    (Z.testbit w2 RW = false /\ Z.testbit w2 EN = true) /\
    Z.testbit pins' EN = false /\
    (forall n, n <> RS -> n <> RW -> n <> EN -> ~ 19 <= n < 23 ->
               Z.testbit pins' n = Z.testbit pins n).
Proof.
  intros Hd. destruct (byte_nibbles data Hd) as (Hup & Hlo & Hsum).
  unfold lcdchar.
  set (p1 := if Ascii.eqb type "C" then FIOCLR (Z.shiftl 1 RS) pins
             else FIOSET (Z.shiftl 1 RS) pins).
  set (p2 := FIOCLR (Z.shiftl 1 RW) p1).
  assert (Hrs : Z.testbit p2 RS = negb (Ascii.eqb type "C")).
  { unfold p2, p1, FIOCLR, FIOSET.
    rewrite Z.ldiff_spec, testbit_pin by (unfold RW; lia).
    change (RS =? RW) with false. cbn [negb]. rewrite andb_true_r.
    destruct (Ascii.eqb type "C").
    - rewrite Z.ldiff_spec, testbit_pin by (unfold RS; lia).
      change (RS =? RS) with true. apply andb_false_r.
    - rewrite Z.lor_spec, testbit_pin by (unfold RS; lia).
      change (RS =? RS) with true. apply orb_true_r. }
  assert (Hrw : Z.testbit p2 RW = false).
  { unfold p2, FIOCLR. rewrite Z.ldiff_spec, testbit_pin by (unfold RW; lia).
    change (RW =? RW) with true. apply andb_false_r. }
  assert (Hother : forall n, n <> RS -> n <> RW ->
                             Z.testbit p2 n = Z.testbit pins n).
  { intros n Hn1 Hn2. unfold p2, p1, FIOCLR, FIOSET.
    rewrite Z.ldiff_spec, testbit_pin by (unfold RW; lia).
    apply Z.eqb_neq in Hn1, Hn2. rewrite Hn2. cbn [negb]. rewrite andb_true_r.
    destruct (Ascii.eqb type "C").
    - rewrite Z.ldiff_spec, testbit_pin by (unfold RS; lia).
      rewrite Hn1. apply andb_true_r.
    - rewrite Z.lor_spec, testbit_pin by (unfold RS; lia).
      rewrite Hn1. apply orb_false_r. }
  pose proof (send_nibble_spec (Z.shiftr (Z.land data 240) 4) p2 Hup) as S1.
  destruct (send_nibble (Z.shiftr (Z.land data 240) 4) p2) as [w1 p3].
  destruct S1 as (D1 & E1 & E1' & W1 & P3).
  pose proof (send_nibble_spec (Z.land data 15) p3 Hlo) as S2.
  destruct (send_nibble (Z.land data 15) p3) as [w2 p4].
  destruct S2 as (D2 & E2 & E2' & W2 & P4).
  assert (out : forall k, k = RS \/ k = RW -> k <> EN /\ ~ 19 <= k < 23)
    by (intros k [-> | ->]; unfold RS, RW, EN; lia).
  exists w1, w2, p4. split; [reflexivity |].
  split; [rewrite W1 by (apply out; auto); exact Hrs |].
  split; [rewrite D1, D2; exact Hsum |].
  split; [split; [rewrite W1 by (apply out; auto); exact Hrw | exact E1] |].
  split; [split; [| exact E2] |].
  { rewrite W2, P3 by (apply out; auto). exact Hrw. }
  split; [exact E2' |].
  intros n H1 H2 H3 H4. rewrite P4, P3 by assumption. now apply Hother.
Qed.

(** X12 (lcd.c, lcdchar): a byte goes to the controller as two words, the
    high half first; read back from the data pins they give the byte, with
    the register select low for a command and high for data, the write pin
    low and the enable pin high on both; afterwards the enable pin is low
    and no pin outside the display's seven has changed. *)
Theorem lcdchar_transfers (data : Z) (type : ascii) (pins : Z) :
  0 <= data < 256 ->
  let (ws, pins') := lcdchar data type pins in
  received ws = [(negb (Ascii.eqb type "C"), data)] /\
  Forall (fun w => Z.testbit w RW = false /\ Z.testbit w EN = true) ws /\
  Z.testbit pins' EN = false /\
  (forall n, n <> RS -> n <> RW -> n <> EN -> ~ 19 <= n < 23 ->
             Z.testbit pins' n = Z.testbit pins n).
Proof.
  intros Hd.
  destruct (lcdchar_spec data type pins Hd)
    as (w1 & w2 & pins' & -> & Hrs & Hsum & H1 & H2 & Hen & Hout).
  split; [cbn [received]; now rewrite Hrs, Hsum |].
  split; [repeat constructor; tauto |].
  split; assumption.
Qed.

Lemma lcdchar_transfers_witness :
  0 <= 65 < 256 /\
  received (fst (lcdchar 65 "D" 0)) = [(true, 65)].
Proof.
  split; [lia |].
  pose proof (lcdchar_transfers 65 "D" 0 ltac:(lia)) as H.
  destruct (lcdchar 65 "D" 0) as [ws pins']. exact (proj1 H).
Defined.

Lemma char_code_byte (c : ascii) : 0 <= char_code c < 256.
Proof.
  unfold char_code. pose proof (N_ascii_bounded c). lia.
Qed.

Lemma str_at_nth (s : string) (i : nat) :
  str_at s (Z.of_nat i) = nth i (list_ascii_of_string s) zero.
Proof.
  unfold str_at. rewrite Nat2Z.id. revert i.
  induction s as [| c s IH]; intros [| i]; cbn; try reflexivity. apply IH.
Qed.

Lemma received_pair (w1 w2 : Z) (ws : list Z) :
  received ([w1; w2] ++ ws)
  = (Z.testbit w1 RS, 16 * data_pins w1 + data_pins w2) :: received ws.
Proof. reflexivity. Qed.

(** The loop of [lcdstring] from index [length pre] on. *)
Lemma lcdstring_loop_spec (str : string) (suf pre : list ascii) :
  list_ascii_of_string str = pre ++ suf ->
  (String.length str < 256)%nat ->
  Forall (fun c => c <> zero) suf ->
  forall fuel pins, (length suf < fuel)%nat ->
  exists ws pins',
    lcdstring_loop fuel str (Z.of_nat (length pre)) pins = Some (ws, pins') /\
    (forall rest,
       received (ws ++ rest)
       = List.map (fun c => (true, char_code c)) suf ++ received rest) /\
    (forall n, n <> RS -> n <> RW -> n <> EN -> ~ 19 <= n < 23 ->
               Z.testbit pins' n = Z.testbit pins n).
Proof.
  revert pre. induction suf as [| c suf IH]; intros pre Hs Hlen Hok fuel pins Hf.
  - destruct fuel as [| fuel]; [cbn in Hf; lia |].
    cbn [lcdstring_loop]. rewrite str_at_nth, Hs, app_nil_r.
    rewrite nth_overflow by lia. cbn.
    exists [], pins. repeat split; reflexivity.
  - destruct fuel as [| fuel]; [cbn in Hf; lia |].
    cbn [lcdstring_loop]. rewrite str_at_nth, Hs, nth_middle.
    inversion_clear Hok as [| ? ? Hc Hrest].
    apply Ascii.eqb_neq in Hc. rewrite Hc.
    destruct (lcdchar_spec (char_code c) "D" pins (char_code_byte c))
      as (w1 & w2 & p1 & -> & Hrs & Hsum & _ & _ & Hen & Hout).
    assert (Hpre : length (pre ++ [c]) = S (length pre))
      by (rewrite length_app; cbn; lia).
    assert (Hi : (Z.of_nat (length pre) + 1) mod 256
                 = Z.of_nat (length (pre ++ [c]))).
    { rewrite Hpre, Nat2Z.inj_succ. unfold Z.succ. apply Z.mod_small.
      rewrite <- length_list_ascii, Hs, length_app in Hlen. cbn in Hlen. lia. }
    rewrite Hi.
    destruct (IH (pre ++ [c])) with (fuel := fuel) (pins := p1)
      as (ws & p2 & -> & Hrec & Hout2);
      [now rewrite <- app_assoc | exact Hlen | exact Hrest | cbn in Hf; lia |].
    exists ([w1; w2] ++ ws), p2. split; [reflexivity |].
    split.
    + intros rest. rewrite <- app_assoc, received_pair, Hrec, Hrs, Hsum.
      reflexivity.
    + intros n H1 H2 H3 H4. rewrite Hout2, Hout by assumption. reflexivity.
Qed.

Lemma lcdstring_spec (str : string) (pins : Z) :
  text_ok str ->
  exists ws pins',
    lcdstring str pins = Some (ws, pins') /\
    (forall rest,
       received (ws ++ rest)
       = bytes_of (LcdString str) ++ received rest) /\
    (forall n, n <> RS -> n <> RW -> n <> EN -> ~ 19 <= n < 23 ->
               Z.testbit pins' n = Z.testbit pins n).
Proof.
  intros [Hlen Hok]. unfold strlen in Hlen.
  apply (lcdstring_loop_spec str (list_ascii_of_string str) []);
    [reflexivity | lia | exact Hok | rewrite length_list_ascii; lia].
Qed.

Lemma transmit_spec (es : list lcd_event) :
  Forall byte_event es ->
  forall pins,
  exists ws pins',
    transmit es pins = Some (ws, pins') /\
    (forall rest,
       received (ws ++ rest) = flat_map bytes_of es ++ received rest) /\
    (forall n, n <> RS -> n <> RW -> n <> EN -> ~ 19 <= n < 23 ->
               Z.testbit pins' n = Z.testbit pins n).
Proof.
  induction 1 as [| e es He Hes IH]; intros pins.
  - exists [], pins. repeat split; reflexivity.
  - cbn [transmit flat_map].
    assert (exists ws p1,
      match e with
      | LcdCommand cmd => Some (lcdchar cmd "C" pins)
      | LcdString s => lcdstring s pins
      end = Some (ws, p1) /\
      (forall rest, received (ws ++ rest) = bytes_of e ++ received rest) /\
      (forall n, n <> RS -> n <> RW -> n <> EN -> ~ 19 <= n < 23 ->
                 Z.testbit p1 n = Z.testbit pins n)) as (ws & p1 & -> & Hrec & Hout).
    { destruct e as [cmd | s].
      - destruct (lcdchar_spec cmd "C" pins He)
          as (w1 & w2 & p1 & -> & Hrs & Hsum & _ & _ & _ & Hout).
        exists [w1; w2], p1. split; [reflexivity |]. split; [| exact Hout].
        intros rest. rewrite received_pair, Hrs, Hsum. reflexivity.
      - apply lcdstring_spec. exact He. }
    destruct (IH p1) as (ws' & p2 & -> & Hrec' & Hout').
    exists (ws ++ ws'), p2. split; [reflexivity |]. split.
    + intros rest. rewrite <- !app_assoc, Hrec, Hrec'. reflexivity.
    + intros n H1 H2 H3 H4. rewrite Hout', Hout by assumption. reflexivity.
Qed.

(** X13 (lcd.c, lcdstring and lcdchar, as called from logic.c): the display
    trace reaches the controller byte for byte.  For commands that fit a
    byte and texts without a NUL that are shorter than 256 characters, the
    driver calls return, and the bytes that the controller assembles from
    the words it takes over are the commands, register select low, and the
    characters of the texts in order, register select high; no pin outside
    the display's seven changes. *)
Theorem trace_reaches_display (es : list lcd_event) (pins : Z) :
  Forall byte_event es ->
  exists ws pins',
    transmit es pins = Some (ws, pins') /\
    received ws = flat_map bytes_of es /\
    (forall n, n <> RS -> n <> RW -> n <> EN -> ~ 19 <= n < 23 ->
               Z.testbit pins' n = Z.testbit pins n).
Proof.
  intros Hes. destruct (transmit_spec es Hes pins) as (ws & pins' & E & Hrec & Hout).
  exists ws, pins'. split; [exact E |]. split; [| exact Hout].
  specialize (Hrec []). rewrite !app_nil_r in Hrec. exact Hrec.
Qed.

Lemma trace_reaches_display_witness :
  Forall byte_event [LcdCommand 1; LcdString "2+3"] /\
  exists ws pins',
    transmit [LcdCommand 1; LcdString "2+3"] 0 = Some (ws, pins') /\
    received ws = [(false, 1); (true, 50); (true, 43); (true, 51)].
Proof.
  assert (H : Forall byte_event [LcdCommand 1; LcdString "2+3"]).
  { repeat constructor; cbn; try lia; discriminate. }
  split; [exact H |].
  destruct (trace_reaches_display [LcdCommand 1; LcdString "2+3"] 0 H)
    as (ws & pins' & E & R & _).
  exists ws, pins'. split; [exact E | exact R].
Defined.

(** X14 (lcd.c, lcdstring): the index of the loop is an unsigned char.  A
    text whose first 256 characters hold no NUL is sent round and round:
    the call returns for no number of rounds. *)
Theorem lcdstring_long_text (str : string) (pins : Z) :
  (forall i, 0 <= i < 256 -> str_at str i <> zero) ->
  forall fuel i, 0 <= i < 256 -> lcdstring_loop fuel str i pins = None.
Proof.
  intros Hno fuel. revert pins.
  induction fuel as [| fuel IH]; intros pins i Hi; [reflexivity |].
  cbn [lcdstring_loop].
  pose proof (Hno i Hi) as Hc. apply Ascii.eqb_neq in Hc. rewrite Hc.
  destruct (lcdchar (char_code (str_at str i)) "D" pins) as [ws p1].
  rewrite IH; [reflexivity |]. apply Z.mod_pos_bound. lia.
Qed.

(** ** Instances of the properties of a run *)

Lemma ready_ok : state_ok (globals ready).
Proof. apply state_ok_startup; reflexivity. Qed.

Lemma ready_entering : entering ready.
Proof. split; reflexivity. Qed.

Lemma run_buffers_bounded_witness :
  Z.of_nat (length (expr_type power_on)) = MAX_TOKENS /\
  Z.of_nat (length (expr_data power_on)) = MAX_TOKENS /\
  expression_index
    (globals (RunCalculatorLogic no_roundf no_printf no_printf no_printf
                [2; KEY_PLUS; 3; KEY_EQUALS] power_on))
  <= MAX_DISPLAY_STR - 2.
Proof.
  split; [reflexivity |]. split; [reflexivity |].
  exact (proj2 (proj2 (proj2 (proj2 (proj2 (proj2
    (run_buffers_bounded no_roundf no_printf no_printf no_printf
       [2; KEY_PLUS; 3; KEY_EQUALS] power_on eq_refl eq_refl))))))).
Defined.

Lemma run_errors_known_witness :
  Z.of_nat (length (expr_type power_on)) = MAX_TOKENS /\
  Z.of_nat (length (expr_data power_on)) = MAX_TOKENS /\
  let g := globals (RunCalculatorLogic no_roundf no_printf no_printf no_printf
                      [2; KEY_DIVIDE; 0; KEY_EQUALS] power_on) in
  (calculator_error g = false /\ error_message g = EmptyString) \/
  (calculator_error g = true /\
   (error_message g = Err_Syntax \/ error_message g = Err_Div_Zero \/
    error_message g = Err_Expr_Long \/ error_message g = Err_Num_Len)).
Proof.
  split; [reflexivity |]. split; [reflexivity |].
  exact (run_errors_known no_roundf no_printf no_printf no_printf
           [2; KEY_DIVIDE; 0; KEY_EQUALS] power_on eq_refl eq_refl).
Defined.

Lemma typed_expression_is_evaluated_witness :
  entering ready /\ digit_keys [2] /\
  tokens (globals (fold_left (fun s k => press k s)
                     (expression_keys [2] [(KEY_PLUS, [3]); (KEY_MULTIPLY, [4])])
                     ready))
  = infix_tokens (decimal_value (typed [2]))
      (typed_rest [(KEY_PLUS, [3]); (KEY_MULTIPLY, [4])]).
Proof.
  assert (D : forall d, KEY_0 <= d <= KEY_9 -> digit_keys [d]).
  { intros d Hd. split; [discriminate |]. split; [now repeat constructor |].
    cbn. unfold LCD_LINE_LEN. lia. }
  assert (D2 : digit_keys [2]) by (apply D; unfold KEY_0, KEY_9; lia).
  split; [exact ready_entering |]. split; [exact D2 |].
  refine (proj1 (proj2 (proj2
    (typed_expression_is_evaluated no_roundf no_printf no_printf no_printf
       [2] [(KEY_PLUS, [3]); (KEY_MULTIPLY, [4])] ready
       ready_entering ready_ok eq_refl eq_refl D2 _ _)))).
  - repeat constructor;
      try (apply D); unfold KEY_PLUS, KEY_MULTIPLY, KEY_DIVIDE, KEY_0, KEY_9; lia.
  - cbn. unfold MAX_TOKENS. lia.
Defined.

Lemma entry_limits_witness :
  entering ready /\ pending_ok (globals ready) /\
  current_num_str (globals (press KEY_DECIMAL ready)) = "0."%string.
Proof.
  assert (P : pending_ok (globals ready)).
  { split; [reflexivity |]. cbn. unfold LCD_LINE_LEN. lia. }
  split; [exact ready_entering |]. split; [exact P |].
  exact (proj1 (proj2
    (proj2 (proj2 (proj2
      (entry_limits no_roundf no_printf no_printf no_printf ready
         ready_entering P))) eq_refl eq_refl))).
Defined.

Lemma key_after_result_witness :
  calculation_has_ended (mkSession (set_error Err_Syntax power_on) true false false)
  = true /\
  KEY_EQUALS <> KEY_NONE /\
  tokens (globals (press KEY_EQUALS
                     (mkSession (set_error Err_Syntax power_on) true false false)))
  = [].
Proof.
  assert (N : KEY_EQUALS <> KEY_NONE) by discriminate.
  split; [reflexivity |]. split; [exact N |].
  exact (proj1 (proj2
    (proj1 (key_after_result no_roundf no_printf no_printf no_printf
              (mkSession (set_error Err_Syntax power_on) true false false)
              KEY_EQUALS eq_refl N) eq_refl eq_refl))).
Defined.

(** A text of 256 characters. *)
Lemma lcdstring_long_text_witness :
  (forall i, 0 <= i < 256 ->
             str_at (string_of_list_ascii (repeat "a"%char 256)) i <> zero) /\
  lcdstring (string_of_list_ascii (repeat "a"%char 256)) 0 = None.
Proof.
  assert (H : forall i, 0 <= i < 256 ->
              str_at (string_of_list_ascii (repeat "a"%char 256)) i <> zero).
  { intros i Hi.
    assert (forallb (fun k =>
              negb (Ascii.eqb
                      (str_at (string_of_list_ascii (repeat "a"%char 256))
                         (Z.of_nat k)) zero)) (seq 0 256) = true) as Hall
        by (vm_compute; reflexivity).
    rewrite forallb_forall in Hall.
    specialize (Hall (Z.to_nat i) ltac:(apply in_seq; lia)).
    rewrite Z2Nat.id in Hall by lia.
    apply Ascii.eqb_neq. now destruct (Ascii.eqb _ _). }
  split; [exact H |].
  apply (lcdstring_long_text _ 0 H 256%nat 0). lia.
Defined.

(** * Accuracy of typed entries *)

Lemma digit_lists_complete (n : nat) :
  forall ds : list Z,
    Forall (fun d => KEY_0 <= d <= KEY_9) ds -> (length ds <= n)%nat ->
    In ds (digit_lists n).
Proof.
  induction n as [| n IH]; intros ds Hds Hlen.
  - destruct ds; [now left | cbn in Hlen; lia].
  - destruct ds as [| d ds]; [now left |]. right.
    inversion_clear Hds as [| ? ? Hd Hrest].
    apply in_flat_map. exists d. split.
    + unfold KEY_0, KEY_9 in Hd. unfold digits10. cbn. lia.
    + apply in_map, IH; [exact Hrest | cbn in Hlen; lia].
Qed.

Lemma integers_checked : exact_from 5 F32.zero 0 = true.
Proof. vm_compute. reflexivity. Qed.

Lemma exact_from_sound (n : nat) :
  forall (ds : list Z) (acc : float) (z : Z),
    exact_from n acc z = true ->
    Forall (fun d => KEY_0 <= d <= KEY_9) ds -> (length ds <= n)%nat ->
    is_integer (integer_keys ds acc)
      (fold_left (fun a d => a * 10 + d) ds z) = true.
Proof.
  induction n as [| n IH]; intros ds acc z H Hds Hlen.
  - destruct ds; [| cbn in Hlen; lia]. cbn in *. now apply andb_prop in H as [H _].
  - cbn [exact_from] in H. apply andb_prop in H as [H0 Hall].
    destruct ds as [| d ds]; [exact H0 |].
    inversion_clear Hds as [| ? ? Hd Hrest].
    rewrite forallb_forall in Hall.
    assert (In d digits10) as Hin
        by (unfold KEY_0, KEY_9 in Hd; unfold digits10; cbn; lia).
    cbn [fold_left integer_keys].
    apply (IH ds _ _ (Hall d Hin) Hrest). cbn in Hlen. lia.
Qed.

Lemma split_at_dot_none (cs : list ascii) :
  forallb is_digit cs = true -> split_at_dot cs = None.
Proof.
  induction cs as [| c cs IH]; intros H; cbn; [reflexivity |].
  cbn in H. apply andb_prop in H as [Hc Hcs].
  now rewrite (digit_not_dot c Hc), (IH Hcs).
Qed.

Lemma integer_keys_typed (ds : list Z) :
  Forall (fun d => KEY_0 <= d <= KEY_9) ds ->
  forall acc : float,
    fold_left integer_step (List.map digit_char ds) acc = integer_keys ds acc.
Proof.
  induction 1 as [| d ds Hd _ IH]; intros acc; [reflexivity |].
  cbn [List.map fold_left integer_keys]. rewrite IH. unfold integer_keys.
  f_equal. unfold integer_step.
  now destruct (digit_char_digit d Hd) as (_ & -> & _).
Qed.

Lemma decimal_value_typed (ds : list Z) :
  ds <> [] -> Forall (fun d => KEY_0 <= d <= KEY_9) ds ->
  decimal_value (typed ds) = integer_keys ds F32.zero.
Proof.
  intros Hne Hds. unfold decimal_value. rewrite list_ascii_typed.
  pose proof (typed_digits ds Hds) as Hall.
  destruct ds as [| d ds]; [contradiction |].
  inversion Hds as [| ? ? Hd Hrest]; subst.
  destruct (digit_char_digit d Hd) as (_ & _ & Hm & _).
  cbn [List.map split_sign].
  destruct (Ascii.eqb_spec (digit_char d) "-"); [contradiction |].
  unfold fraction_digits, integer_digits.
  change (digit_char d :: List.map digit_char ds)
    with (List.map digit_char (d :: ds)).
  rewrite (split_at_dot_none _ Hall).
  rewrite accumulate_fraction_fold, accumulate_integer_fold. cbn [fold_left fst].
  now apply integer_keys_typed.
Qed.

Lemma entries_checked :
  forallb (fun d => forallb (entry_close [d]) (digit_lists 2)) digits10 = true.
Proof. vm_compute. reflexivity. Qed.

(** X15 (logic.c, parse_current_input_number): an entry of one to five
    digits is parsed without error and without rounding: the number
    returned is the integer typed. *)
Theorem integer_entry_exact :
  forall (st : state) (ds : list Z),
    holds st (typed ds) -> digit_keys ds -> (length ds <= 5)%nat ->
    exists q : Q,
      snd (parse_current_input_number st) = st /\
      F32.to_Q (fst (parse_current_input_number st)) = Some q /\
      (q == inject_Z (number_of ds))%Q.
Proof.
  intros st ds Hh Hk Hlen.
  destruct (holds_parse st ds Hh Hk) as [-> _]. cbn [fst snd].
  destruct Hk as (Hne & Hds & _).
  pose proof (exact_from_sound 5 ds F32.zero 0 integers_checked Hds Hlen) as Hc.
  rewrite <- (decimal_value_typed ds Hne Hds) in Hc.
  unfold is_integer in Hc. fold (number_of ds) in Hc.
  destruct (F32.to_Q (decimal_value (typed ds))) as [q |]; [| discriminate].
  exists q. split; [reflexivity |]. split; [reflexivity |].
  now apply Qeq_bool_iff.
Qed.

Lemma integer_entry_exact_witness :
  holds (setup_input (typed [9; 9; 9; 9; 9]) power_on) (typed [9; 9; 9; 9; 9]) /\
  exists q : Q,
    F32.to_Q (fst (parse_current_input_number
                     (setup_input (typed [9; 9; 9; 9; 9]) power_on))) = Some q /\
    (q == 99999 # 1)%Q.
Proof.
  assert (H : holds (setup_input (typed [9; 9; 9; 9; 9]) power_on)
                (typed [9; 9; 9; 9; 9])) by (split; reflexivity).
  assert (K : digit_keys [9; 9; 9; 9; 9]).
  { split; [discriminate |]. split; [| cbn; unfold LCD_LINE_LEN; lia].
    repeat constructor; unfold KEY_0, KEY_9; lia. }
  split; [exact H |].
  destruct (integer_entry_exact _ [9; 9; 9; 9; 9] H K ltac:(cbn; lia))
    as (q & _ & E & Hq).
  exists q. split; [exact E | exact Hq].
Defined.

(** X16 (logic.c, parse_current_input_number): an entry of one digit, the
    decimal point and at most two digits is parsed without error, and the
    number returned is within 1e-6 of the number typed. *)
Theorem short_entry_accurate :
  forall (st : state) (d : Z) (f : list Z),
    holds st (entry_text [d] f) ->
    KEY_0 <= d <= KEY_9 -> Forall (fun x => KEY_0 <= x <= KEY_9) f ->
    (length f <= 2)%nat ->
    snd (parse_current_input_number st) = st /\
    F32.within (fst (parse_current_input_number st))
      (exact_value (entry_text [d] f)) (1 # 1000000).
Proof.
  intros st d f Hh Hd Hf Hlen.
  assert (In d digits10) as Hin
      by (unfold KEY_0, KEY_9 in Hd; unfold digits10; cbn; lia).
  pose proof (proj1 (forallb_forall _ _) entries_checked d Hin) as Hc.
  pose proof (proj1 (forallb_forall _ _) Hc f (digit_lists_complete 2 f Hf Hlen))
    as Hdf.
  unfold entry_close in Hdf. apply andb_prop in Hdf as [Hnum Hq].
  rewrite (parse_text st _ Hh), parse_chars_entry;
    [| exact Hnum | discriminate | discriminate].
  cbn [fst snd]. split; [reflexivity |].
  unfold F32.within.
  destruct (F32.to_Q (decimal_value (entry_text [d] f))) as [q |]; [| discriminate].
  now apply Qle_bool_iff.
Qed.

Lemma short_entry_accurate_witness :
  holds (setup_input (entry_text [9] [9; 9]) power_on) (entry_text [9] [9; 9]) /\
  F32.within
    (fst (parse_current_input_number (setup_input (entry_text [9] [9; 9]) power_on)))
    (999 # 100) (1 # 1000000).
Proof.
  assert (H : holds (setup_input (entry_text [9] [9; 9]) power_on)
                (entry_text [9] [9; 9])) by (split; reflexivity).
  split; [exact H |].
  apply (short_entry_accurate _ 9 [9; 9] H).
  - unfold KEY_0, KEY_9. lia.
  - repeat constructor; unfold KEY_0, KEY_9; lia.
  - cbn. lia.
Defined.

(** * Initialisation of the display *)

Lemma testbit_ones_shift (w k n : Z) :
  0 <= w -> 0 <= k ->
  Z.testbit (Z.shiftl (Z.ones w) k) n = ((k <=? n) && (n <? k + w))%bool.
Proof.
  intros Hw Hk. destruct (Z.lt_ge_cases n 0) as [Hn | Hn].
  - rewrite Z.testbit_neg_r by lia. symmetry.
    apply andb_false_intro1. apply Z.leb_gt. lia.
  - rewrite Z.shiftl_spec, Z.testbit_ones by lia.
    destruct (Z.leb_spec 0 (n - k)), (Z.leb_spec k n),
      (Z.ltb_spec (n - k) w), (Z.ltb_spec n (k + w)); cbn; (reflexivity || lia).
Qed.

Lemma data_pins_ext (a b : Z) :
  (forall n, 19 <= n < 23 -> Z.testbit a n = Z.testbit b n) ->
  data_pins a = data_pins b.
Proof.
  intros H. unfold data_pins. apply Z.bits_inj'. intros n Hn.
  rewrite !Z.land_spec, !Z.shiftr_spec, testbit_15 by lia.
  destruct (Z.ltb_spec n 4).
  - rewrite H by lia. reflexivity.
  - now rewrite !andb_false_r.
Qed.

Lemma pulse_spec (pins : Z) :
  let (w, pins') := pulse pins in
  Z.testbit w EN = true /\
  (forall n, n <> EN -> Z.testbit w n = Z.testbit pins n) /\
  (forall n, n <> EN -> Z.testbit pins' n = Z.testbit pins n).
Proof.
  unfold pulse, FIOSET, FIOCLR. split; [| split].
  - rewrite Z.lor_spec, testbit_pin by (unfold EN; lia).
    change (EN =? EN) with true. apply orb_true_r.
  - intros n Hn. rewrite Z.lor_spec, testbit_pin by (unfold EN; lia).
    apply Z.eqb_neq in Hn. rewrite Hn. apply orb_false_r.
  - intros n Hn. rewrite Z.ldiff_spec, Z.lor_spec, testbit_pin by (unfold EN; lia).
    apply Z.eqb_neq in Hn. rewrite Hn. cbn [negb].
    now rewrite orb_false_r, andb_true_r.
Qed.

Lemma send_nibble_after (nibble pins : Z) :
  0 <= nibble < 16 -> data_pins (snd (send_nibble nibble pins)) = nibble.
Proof.
  intros Hn. pose proof (send_nibble_spec nibble pins Hn) as H.
  unfold send_nibble in *. cbn [snd]. destruct H as (Hd & _).
  etransitivity; [| exact Hd].
  apply data_pins_ext. intros n Hr. unfold FIOCLR at 1.
  rewrite Z.ldiff_spec, testbit_pin by (unfold EN; lia).
  assert ((n =? EN) = false) as -> by (apply Z.eqb_neq; unfold EN; lia).
  apply andb_true_r.
Qed.

Lemma display_pin_spec (n : Z) :
  display_pin n = false <->
  n <> RS /\ n <> RW /\ n <> EN /\ ~ 19 <= n < 23.
Proof.
  unfold display_pin, RS, RW, EN.
  destruct (Z.leb_spec 9 n), (Z.leb_spec n 11), (Z.leb_spec 19 n),
    (Z.ltb_spec n 23); cbn; split; intros; (discriminate || lia || reflexivity).
Qed.

(** X17 (lcd.c, lcdinit): from any state of the port, the controller is
    given the reset sequence of the 4-bit interface - the half byte 3
    three times, the second and third time on data pins that the code
    does not drive again, then the half byte 2 - and after it the commands
    0x28, 0x0C, 0x06 and 0x01, all with register select and write low.
    The seven pins of the display become outputs; no other direction bit
    and no other pin changes. *)
Theorem lcdinit_sequence (dir pins : Z) :
  exists w1 w2 w3 w4 commands dir' pins',
    lcdinit dir pins = (dir', [w1; w2; w3; w4] ++ commands, pins') /\
    List.map data_pins [w1; w2; w3; w4] = [3; 3; 3; 2] /\
    Forall (fun w => Z.testbit w RS = false /\ Z.testbit w RW = false /\
                     Z.testbit w EN = true) [w1; w2; w3; w4] /\
    received commands = [(false, 40); (false, 12); (false, 6); (false, 1)] /\
    (forall n, 0 <= n ->
       Z.testbit dir' n = (Z.testbit dir n || display_pin n)%bool) /\
    (forall n, display_pin n = false -> Z.testbit pins' n = Z.testbit pins n).
Proof.
  unfold lcdinit.
  set (p1 := FIOCLR (Z.lor (Z.lor (Z.shiftl 1 RS) (Z.shiftl 1 RW))
                       (Z.shiftl 1 EN)) pins).
  set (p2 := FIOCLR (Z.shiftl 15 19) p1).
  assert (Hp2 : forall n, Z.testbit p2 n
                          = (Z.testbit pins n && negb (display_pin n))%bool).
  { intros n. unfold p2, p1, FIOCLR.
    change (Z.lor (Z.lor (Z.shiftl 1 RS) (Z.shiftl 1 RW)) (Z.shiftl 1 EN))
      with (Z.shiftl (Z.ones 3) 9).
    change 15 with (Z.ones 4).
    rewrite !Z.ldiff_spec, !testbit_ones_shift by lia.
    unfold display_pin, RS, EN.
    destruct (Z.testbit pins n), (Z.leb_spec 9 n), (Z.ltb_spec n (9 + 3)),
      (Z.leb_spec n 11), (Z.leb_spec 19 n), (Z.ltb_spec n (19 + 4)),
      (Z.ltb_spec n 23); cbn; (reflexivity || lia). }
  pose proof (send_nibble_spec 3 p2 ltac:(lia)) as S1.
  pose proof (send_nibble_after 3 p2 ltac:(lia)) as A1.
  destruct (send_nibble 3 p2) as [w1 p3]. cbn [snd] in A1.
  destruct S1 as (D1 & E1 & _ & W1 & P3).
  pose proof (pulse_spec p3) as S2.
  destruct (pulse p3) as [w2 p4]. destruct S2 as (E2 & W2 & P4).
  pose proof (pulse_spec p4) as S3.
  destruct (pulse p4) as [w3 p5]. destruct S3 as (E3 & W3 & P5).
  pose proof (send_nibble_spec 2 p5 ltac:(lia)) as S4.
  destruct (send_nibble 2 p5) as [w4 p6].
  destruct S4 as (D4 & E4 & _ & W4 & P6).
  destruct (lcdchar_spec 40 "C" p6 ltac:(lia))
    as (a1 & a2 & p7 & -> & Ra & Sa & _ & _ & _ & Oa).
  destruct (lcdchar_spec 12 "C" p7 ltac:(lia))
    as (b1 & b2 & p8 & -> & Rb & Sb & _ & _ & _ & Ob).
  destruct (lcdchar_spec 6 "C" p8 ltac:(lia))
    as (c1 & c2 & p9 & -> & Rc & Sc & _ & _ & _ & Oc).
  destruct (lcdchar_spec 1 "C" p9 ltac:(lia))
    as (d1 & d2 & p10 & -> & Rd & Sd & _ & _ & _ & Od).
  assert (ctl : forall k, k = RS \/ k = RW -> k <> EN /\ ~ 19 <= k < 23)
    by (intros k [-> | ->]; unfold RS, RW, EN; lia).
  assert (low : forall k, k = RS \/ k = RW -> Z.testbit p2 k = false).
  { intros k Hk. rewrite Hp2.
    assert (display_pin k = true) as ->
        by (destruct Hk as [-> | ->]; reflexivity).
    apply andb_false_r. }
  assert (Hd2 : data_pins w2 = 3).
  { rewrite <- A1. apply data_pins_ext. intros n Hn. apply W2. unfold EN. lia. }
  assert (Hd3 : data_pins w3 = 3).
  { rewrite <- A1. apply data_pins_ext. intros n Hn.
    rewrite W3, P4 by (unfold EN; lia). reflexivity. }
  eexists w1, w2, w3, w4, _, _, p10. split; [reflexivity |].
  split; [cbn [List.map]; now rewrite D1, Hd2, Hd3, D4 |].
  split.
  { repeat constructor; try assumption.
    - rewrite W1 by (apply ctl; auto). apply low; auto.
    - rewrite W1 by (apply ctl; auto). apply low; auto.
    - rewrite W2, P3 by (apply ctl; auto). apply low; auto.
    - rewrite W2, P3 by (apply ctl; auto). apply low; auto.
    - rewrite W3, P4, P3 by (apply ctl; auto). apply low; auto.
    - rewrite W3, P4, P3 by (apply ctl; auto). apply low; auto.
    - rewrite W4, P5, P4, P3 by (apply ctl; auto). apply low; auto.
    - rewrite W4, P5, P4, P3 by (apply ctl; auto). apply low; auto. }
  split.
  { cbn [app received]. now rewrite Ra, Sa, Rb, Sb, Rc, Sc, Rd, Sd. }
  split.
  - intros n Hn.
    change (Z.lor (Z.lor (Z.lor (Z.shiftl 1 22) (Z.shiftl 1 21)) (Z.shiftl 1 20))
              (Z.shiftl 1 19)) with (Z.shiftl (Z.ones 4) 19).
    change (Z.lor (Z.lor (Z.shiftl 1 EN) (Z.shiftl 1 RW)) (Z.shiftl 1 RS))
      with (Z.shiftl (Z.ones 3) 9).
    rewrite !Z.lor_spec, !testbit_ones_shift by lia.
    unfold display_pin, RS, EN.
    destruct (Z.testbit dir n), (Z.leb_spec 9 n), (Z.ltb_spec n (9 + 3)),
      (Z.leb_spec n 11), (Z.leb_spec 19 n), (Z.ltb_spec n (19 + 4)),
      (Z.ltb_spec n 23); cbn; (reflexivity || lia).
  - intros n Hn. pose proof (proj1 (display_pin_spec n) Hn) as (H1 & H2 & H3 & H4).
    rewrite Od, Oc, Ob, Oa, P6, P5, P4, P3, Hp2, Hn by assumption.
    apply andb_true_r.
Qed.

(** * The two lines of the display *)

Lemma substring_short (s : string) :
  forall m : nat, (String.length s <= m)%nat -> String.substring 0 m s = s.
Proof.
  induction s as [| c s IH]; intros [| m] H; cbn in *; try reflexivity; try lia.
  rewrite IH by lia. reflexivity.
Qed.

Lemma length_substring (s : string) :
  forall n m : nat,
    (n + m <= String.length s)%nat ->
    String.length (String.substring n m s) = m.
Proof.
  induction s as [| c s IH]; intros [| n] [| m] H; cbn in *;
    try reflexivity; try lia.
  - rewrite (IH 0%nat m) by lia. reflexivity.
  - apply IH. lia.
  - apply IH. lia.
Qed.

Lemma str_at_substring (s : string) (n m : nat) (i : Z) :
  0 <= i < Z.of_nat m ->
  str_at (String.substring n m s) i = str_at s (Z.of_nat n + i).
Proof.
  intros H. unfold str_at. rewrite substring_correct1 by lia.
  replace (Z.to_nat (Z.of_nat n + i)) with (Z.to_nat i + n)%nat by lia.
  reflexivity.
Qed.

(** X18 (logic.c, update_lcd_display_content): the refresh clears the
    display and writes two lines and changes nothing else.  The second line
    is the whole pending entry.  The first line is the end of the history:
    its last [LCD_LINE_LEN] characters, or all of it when it is shorter. *)
Theorem display_window (st : state) :
  history_ok st -> pending_ok st ->
  exists line1 : string,
    update_lcd_display_content st
    = emit [LcdCommand LCD_CMD_CLEAR_DISPLAY; LcdString line1;
            LcdCommand LCD_CMD_CURSOR_LINE_2; LcdString (current_num_str st)] st /\
    strlen line1 = Z.min (expression_index st) LCD_LINE_LEN /\
    (forall i, 0 <= i < strlen line1 ->
       str_at line1 i
       = str_at (expression_str st) (expression_index st - strlen line1 + i)).
Proof.
  intros [Hi _] [Hj Hm]. unfold update_lcd_display_content.
  assert ((if 0 <? current_num_index st
           then strncpy LCD_LINE_LEN (current_num_str st)
           else EmptyString) = current_num_str st) as ->.
  { unfold strlen in Hj. destruct (Z.ltb_spec 0 (current_num_index st)).
    - unfold strncpy. apply substring_short. lia.
    - destruct (current_num_str st); [reflexivity | cbn in Hj; lia]. }
  eexists. split; [reflexivity |].
  rewrite Hi. unfold strlen, LCD_LINE_LEN in *.
  destruct (Z.ltb_spec 0 (Z.of_nat (String.length (expression_str st)))) as [Hpos | H0].
  - destruct (Z.ltb_spec 16 (Z.of_nat (String.length (expression_str st))))
      as [Hlong | Hshort].
    + rewrite length_substring by lia. split; [lia |].
      intros i Hr. rewrite str_at_substring by lia. f_equal. lia.
    + rewrite substring_short by lia. split; [lia |].
      intros i Hr. f_equal. lia.
  - cbn. split; [lia |]. intros i Hr. lia.
Qed.

Lemma display_window_witness :
  history_ok (with_history "12+34*56-78/90+12" 17 power_on) /\
  pending_ok (with_history "12+34*56-78/90+12" 17 power_on) /\
  exists line1 : string,
    update_lcd_display_content (with_history "12+34*56-78/90+12" 17 power_on)
    = emit [LcdCommand LCD_CMD_CLEAR_DISPLAY; LcdString line1;
            LcdCommand LCD_CMD_CURSOR_LINE_2; LcdString EmptyString]
        (with_history "12+34*56-78/90+12" 17 power_on) /\
    strlen line1 = 16.
Proof.
  assert (H : history_ok (with_history "12+34*56-78/90+12" 17 power_on))
    by (split; [reflexivity | cbn; unfold MAX_DISPLAY_STR; lia]).
  assert (P : pending_ok (with_history "12+34*56-78/90+12" 17 power_on))
    by (split; [reflexivity | cbn; unfold LCD_LINE_LEN; lia]).
  split; [exact H |]. split; [exact P |].
  destruct (display_window _ H P) as (line1 & E & L & _).
  exists line1. split; [exact E | exact L].
Defined.

(** * Selecting a row of the keypad *)

(** X19 (keypad.c, SetRowToZero): selecting a row leaves exactly that
    row's pin low among the four row pins, whatever the pins were before,
    and touches no other pin of the port; so the selection does not depend
    on the row selected before. *)
Theorem row_selected (row pins : Z) :
  0 <= row < 4 ->
  (forall n, 0 <= n ->
     Z.testbit (SetRowToZero row pins) n
     = if n =? nth (Z.to_nat row) row_pins 0 then false
       else if is_row_pin n then true
       else Z.testbit pins n) /\
  (forall row', SetRowToZero row (SetRowToZero row' pins) = SetRowToZero row pins).
Proof.
  intros Hrow.
  assert (bits : forall r p n, 0 <= r < 4 -> 0 <= n ->
     Z.testbit (SetRowToZero r p) n
     = if n =? nth (Z.to_nat r) row_pins 0 then false
       else if is_row_pin n then true
       else Z.testbit p n).
  { intros r p n Hr Hn.
    assert (r = 0 \/ r = 1 \/ r = 2 \/ r = 3) as Hc by lia.
    set (mask := Z.lor (Z.lor (Z.lor (Z.shiftl 1 9) (Z.shiftl 1 10))
                         (Z.shiftl 1 14)) (Z.shiftl 1 15)).
    unfold is_row_pin, row_pins. cbn [existsb].
    destruct Hc as [-> | [-> | [-> | ->]]];
      [ change (SetRowToZero 0 p) with (Z.ldiff (Z.lor p mask) (Z.shiftl 1 9));
        change (nth (Z.to_nat 0) [9; 10; 14; 15] 0) with 9
      | change (SetRowToZero 1 p) with (Z.ldiff (Z.lor p mask) (Z.shiftl 1 10));
        change (nth (Z.to_nat 1) [9; 10; 14; 15] 0) with 10
      | change (SetRowToZero 2 p) with (Z.ldiff (Z.lor p mask) (Z.shiftl 1 14));
        change (nth (Z.to_nat 2) [9; 10; 14; 15] 0) with 14
      | change (SetRowToZero 3 p) with (Z.ldiff (Z.lor p mask) (Z.shiftl 1 15));
        change (nth (Z.to_nat 3) [9; 10; 14; 15] 0) with 15 ];
      subst mask;
      rewrite Z.ldiff_spec, !Z.lor_spec, !testbit_pin by lia;
      destruct (Z.eqb_spec n 9), (Z.eqb_spec n 10), (Z.eqb_spec n 14),
        (Z.eqb_spec n 15); cbn; try lia;
      rewrite ?orb_false_r, ?andb_true_r, ?andb_false_r, ?orb_true_r;
      reflexivity. }
  split; [intros n Hn; now apply bits |].
  intros row'. apply Z.bits_inj'. intros n Hn.
  rewrite (bits row (SetRowToZero row' pins) n Hrow Hn), (bits row pins n Hrow Hn).
  destruct (n =? nth (Z.to_nat row) row_pins 0); [reflexivity |].
  destruct (is_row_pin n) eqn:Hp; [reflexivity |].
  unfold SetRowToZero, FIOSET, FIOCLR.
  assert (forall k, In k row_pins -> (n =? k) = false) as Hk.
  { intros k Hin. unfold is_row_pin in Hp.
    destruct (n =? k) eqn:E; [| reflexivity].
    rewrite <- Hp. symmetry. apply existsb_exists. eauto. }
  assert (forall k, In k row_pins -> Z.testbit (Z.shiftl 1 k) n = false) as Hb.
  { intros k Hin. rewrite testbit_pin; [now apply Hk |].
    unfold row_pins in Hin. cbn in Hin. lia. }
  repeat match goal with
         | |- context [if ?b then _ else _] => destruct b
         end;
    rewrite ?Z.ldiff_spec, !Z.lor_spec, !Hb by (unfold row_pins; cbn; tauto);
    cbn; rewrite ?orb_false_r, ?andb_true_r; reflexivity.
Qed.

Lemma row_selected_witness :
  0 <= 2 < 4 /\ SetRowToZero 2 (SetRowToZero 0 0) = SetRowToZero 2 0.
Proof.
  split; [lia |]. apply (proj2 (row_selected 2 0 ltac:(lia)) 0).
Defined.

(** * Operator keys without a pending entry *)

Section OperatorFacts.

Context (roundf : float -> float)
        (printf_f0 printf_f printf_e3 : float -> string).

Local Abbreviation process_key' :=
  (process_key roundf printf_f0 printf_f printf_e3).
Local Abbreviation loop_iteration' :=
  (loop_iteration roundf printf_f0 printf_f printf_e3).
Local Abbreviation RunCalculatorLogic' :=
  (RunCalculatorLogic roundf printf_f0 printf_f printf_e3).

Lemma digit_key_operand (k : Z) (s : session) :
  0 <= current_num_index (globals s) -> operand_or_operator (digit_key k s).
Proof.
  intros Hi _. unfold digit_key.
  destruct (_ <? _); cbn [globals on_globals set_last_op].
  - intros _. left. cbn. lia.
  - rewrite set_error_sets. discriminate.
Qed.

Lemma decimal_key_operand (s : session) :
  0 <= current_num_index (globals s) -> operand_or_operator (decimal_key s).
Proof.
  intros Hi _. unfold decimal_key.
  destruct (_ && _)%bool.
  - intros _. left. destruct (_ =? 0); cbn; lia.
  - destruct (decimal_point_entered s); cbn [globals on_globals];
      rewrite set_error_sets; discriminate.
Qed.

Lemma operator_key_operand (k : Z) (s : session) :
  0 <= current_num_index (globals s) -> operand_or_operator (operator_key k s).
Proof.
  intros Hi _. unfold operator_key.
  destruct (_ && _ && _)%bool.
  - destruct (_ <? LCD_LINE_LEN); cbn [globals on_globals set_last_op].
    + intros _. left. cbn. lia.
    + rewrite set_error_sets. discriminate.
  - match goal with
    | |- context [if negb (calculator_error (globals ?x)) then _ else _] =>
        destruct (calculator_error (globals x)) eqn:E
    end; cbn [negb].
    + rewrite E. discriminate.
    + intros _. right. right. reflexivity.
Qed.

Lemma process_key_operand (k : Z) (s : session) :
  0 <= current_num_index (globals s) ->
  operand_or_operator s -> operand_or_operator (process_key' k s).
Proof.
  intros Hi Hs. unfold process_key.
  destruct (_ && _)%bool; [now apply digit_key_operand |].
  destruct (k =? KEY_DECIMAL); [now apply decimal_key_operand |].
  destruct (_ && _)%bool; [now apply operator_key_operand |].
  destruct (k =? KEY_EQUALS); [| exact Hs].
  intros Habs. unfold equals_key in Habs. cbv zeta in Habs.
  destruct (if negb _ then _ else _) in Habs. discriminate.
Qed.

Lemma after_key_operand (s : session) :
  operand_or_operator s -> operand_or_operator (after_key s).
Proof.
  intros Hs. unfold after_key.
  destruct (calculation_has_ended s) eqn:He; cbn [negb]; [exact Hs |].
  destruct (calculator_error (globals s)) eqn:Herr.
  - intros Habs. discriminate.
  - intros _ _. cbn. now apply Hs.
Qed.

Lemma entering_operand (k : Z) (s : session) :
  entering s -> k <> KEY_NONE ->
  0 <= current_num_index (globals s) ->
  operand_or_operator s -> operand_or_operator (loop_iteration' k s).
Proof.
  intros Hent Hk Hi Hs.
  rewrite (entering_key roundf printf_f0 printf_f printf_e3 k s Hent Hk).
  now apply after_key_operand, process_key_operand.
Qed.

Lemma loop_iteration_operand (k : Z) (s : session) :
  0 <= current_num_index (globals s) ->
  operand_or_operator s -> operand_or_operator (loop_iteration' k s).
Proof.
  intros Hi Hs. destruct (Z.eq_dec k KEY_NONE) as [-> | Hk].
  - unfold loop_iteration, input_states. change (KEY_NONE =? KEY_NONE) with true.
    cbn [negb]. destruct (calculation_has_ended s); [exact Hs |].
    now destruct (_ && _)%bool.
  - destruct (calculation_has_ended s) eqn:He.
    + unfold loop_iteration. rewrite He.
      pose proof Hk as Hk'. apply Z.eqb_neq in Hk'. rewrite Hk'. cbn [negb].
      set (s1 := mkSession (clear_all_state (globals s)) false false false).
      assert (entering s1) as Hent by (split; reflexivity).
      assert (operand_or_operator s1) as Hs1
          by (intros _ _; right; left; reflexivity).
      destruct (_ && _)%bool.
      * intros _ _. right. left. reflexivity.
      * replace (input_states roundf printf_f0 printf_f printf_e3 k s1)
          with (loop_iteration' k s1) by reflexivity.
        apply entering_operand; [exact Hent | exact Hk | cbn; lia | exact Hs1].
    + destruct (calculator_error (globals s)) eqn:Herr.
      * unfold loop_iteration, input_states. rewrite He, Herr.
        apply Z.eqb_neq in Hk. rewrite Hk. cbn [andb negb].
        intros Habs. discriminate.
      * apply entering_operand; [now split | exact Hk | exact Hi | exact Hs].
Qed.

Lemma run_operand (keys : list Z) :
  forall s : session,
    state_ok (globals s) -> operand_or_operator s ->
    operand_or_operator (fold_left (fun s k => loop_iteration' k s) keys s).
Proof.
  induction keys as [| k keys IH]; intros s Hok Hs; [exact Hs |].
  cbn [fold_left]. apply IH.
  - now apply state_ok_loop_iteration.
  - apply loop_iteration_operand; [| exact Hs].
    destruct Hok as (_ & (-> & _) & _). unfold strlen. lia.
Qed.

(** X20 (logic.c, RunCalculatorLogic, the operator keys): in every run,
    when nothing is shown and no digits are pending, the token buffer is
    empty or the previous key was an operator key.  So the test "the last
    token is an operator and the previous key was no operator key" never
    succeeds, and an operator key pressed in that state does this: ['-']
    always starts a negative entry, with no fault and the token buffer
    untouched; ['*'] and ['/'] raise "Err: Syntax" on the empty buffer
    only; on a buffer that is not empty ['*'], ['/'] and ['+'], and ['+']
    on the empty buffer as well, are stored as the next token without a
    fault, the buffer having room. *)
Theorem operator_key_without_digits :
  forall (keys : list Z) (st : state) (k : Z),
    Z.of_nat (length (expr_type st)) = MAX_TOKENS ->
    Z.of_nat (length (expr_data st)) = MAX_TOKENS ->
    let s := RunCalculatorLogic' keys st in
    entering s -> current_num_index (globals s) = 0 ->
    KEY_PLUS <= k <= KEY_DIVIDE ->
    let s' := loop_iteration' k s in
    (expr_len (globals s) = 0 \/ last_key_was_operator s = true) /\
    (operator_of_key k = "-"%char ->
     calculator_error (globals s') = false /\
     current_num_str (globals s') = "-"%string /\
     tokens (globals s') = tokens (globals s)) /\
    (operator_of_key k = "*"%char \/ operator_of_key k = "/"%char ->
     expr_len (globals s) = 0 ->
     calculator_error (globals s') = true /\
     error_message (globals s') = Err_Syntax /\
     tokens (globals s') = tokens (globals s)) /\
    (operator_of_key k = "+"%char \/
     (operator_of_key k <> "-"%char /\ 0 < expr_len (globals s)) ->
     expr_len (globals s) < MAX_TOKENS ->
     calculator_error (globals s') = false /\
     tokens (globals s')
     = tokens (globals s) ++ [("O"%char, float_of_char (operator_of_key k))]).
Proof.
  intros keys st k Ht Hd s Hent Hidx Hk s'.
  assert (state_ok (globals s)) as Hok.
  { apply state_ok_run, state_ok_startup; assumption. }
  assert (operand_or_operator s) as Hs.
  { apply run_operand; [now apply state_ok_startup |].
    intros _ _. right. left. reflexivity. }
  assert (expr_len (globals s) = 0 \/ last_key_was_operator s = true) as Hlast.
  { destruct (Hs (proj1 Hent) (proj2 Hent)) as [H | H]; [lia | exact H]. }
  split; [exact Hlast |].
  assert (k <> KEY_NONE) as Hnone by (unfold KEY_NONE, KEY_DIVIDE in *; lia).
  subst s'.
  rewrite (entering_key roundf printf_f0 printf_f printf_e3 k s Hent Hnone),
    (operator_key_chosen roundf printf_f0 printf_f printf_e3) by exact Hk.
  destruct (after_key_globals (operator_key k s)) as (-> & -> & -> & _ & -> & _).
  destruct Hent as [Hended Herr].
  set (g := globals s) in *.
  assert (((expr_len g =? 0) || last_key_was_operator s)%bool = true) as Hun.
  { destruct Hlast as [-> | ->]; [reflexivity | apply orb_true_r]. }
  unfold operator_key. fold (operator_of_key k). fold g.
  rewrite Hidx, Hun. change (0 =? 0) with true. change (0 <? 0) with false.
  change (0 <? LCD_LINE_LEN) with true. rewrite !andb_true_r.
  split; [| split].
  - intros ->. change (Ascii.eqb "-" "-") with true.
    cbn. fold g. rewrite Herr, Hidx. repeat split.
    unfold str_put. now destruct (current_num_str g).
  - intros Hop Hempty.
    assert (Ascii.eqb (operator_of_key k) "-" = false
            /\ Ascii.eqb (operator_of_key k) "+" = false) as [-> ->]
        by (destruct Hop as [-> | ->]; split; reflexivity).
    rewrite Hempty. change (0 =? 0) with true. cbn [orb negb on_globals globals].
    fold g. rewrite set_error_sets. cbn [negb on_globals globals].
    fold g. unfold set_error. rewrite Herr. repeat split.
  - intros Hop Hroom.
    assert (Ascii.eqb (operator_of_key k) "-" = false) as ->.
    { destruct Hop as [-> | [Hne _]]; [reflexivity |].
      now apply Ascii.eqb_neq. }
    assert ((if ((expr_len g =? 0)
                 || (Ascii.eqb (arr_get zero (expr_type g) (expr_len g - 1)) "O"
                     && negb (last_key_was_operator s)))%bool
             then if negb (Ascii.eqb (operator_of_key k) "+")
                  then on_globals (set_error Err_Syntax) s else s
             else s) = s) as ->.
    { destruct Hop as [-> | [_ Hpos]].
      - destruct (_ || _ && _)%bool; reflexivity.
      - destruct Hlast as [H0 | Hl]; [lia |].
        assert ((expr_len g =? 0) = false) as -> by (apply Z.eqb_neq; lia).
        rewrite Hl. cbn [negb]. now rewrite andb_false_r. }
    fold g. rewrite Herr. cbn [negb set_last_op on_globals globals]. fold g.
    destruct (do_push_room (PushOperator (operator_of_key k)) g
                (proj1 Hok) Herr Hroom) as (Htok & _ & He & _).
    cbn [do_push token_of] in Htok, He. split; [exact He | exact Htok].
Qed.

End OperatorFacts.

(** After [5 *], the key [/]. *)
Lemma operator_key_without_digits_witness :
  entering (RunCalculatorLogic no_roundf no_printf no_printf no_printf
              [5; KEY_MULTIPLY] power_on) /\
  tokens (globals (press KEY_DIVIDE
                     (RunCalculatorLogic no_roundf no_printf no_printf no_printf
                        [5; KEY_MULTIPLY] power_on)))
  = tokens (globals (RunCalculatorLogic no_roundf no_printf no_printf no_printf
                       [5; KEY_MULTIPLY] power_on))
    ++ [("O"%char, float_of_char "/")].
Proof.
  assert (E : entering (RunCalculatorLogic no_roundf no_printf no_printf no_printf
                          [5; KEY_MULTIPLY] power_on)) by (split; reflexivity).
  split; [exact E |].
  refine (proj2 (proj2 (proj2 (proj2
    (operator_key_without_digits no_roundf no_printf no_printf no_printf
       [5; KEY_MULTIPLY] power_on KEY_DIVIDE eq_refl eq_refl E eq_refl _))) _ _)).
  - unfold KEY_PLUS, KEY_DIVIDE. lia.
  - right. split; [discriminate | reflexivity].
  - vm_compute. reflexivity.
Defined.

(** C8.  The claim: with no digits pending, an operator key on an empty
    buffer, or on a buffer whose last token is an operator, is a Syntax
    fault, except that ['+'] is accepted as a prefix without effect - no
    error and no change to the token buffer.  The code, on keys from
    power-on: ['+'] as the first key is stored as a token, and [+ 5 =] ends
    in "Err: Syntax", although the comment at the test says "Allow leading
    '+'"; ['/'] after [5 *] raises nothing and is stored, and the fault
    comes only at [=], although the comment names an operator after an
    operator as a case to refuse.  ['*'] as the first key is refused, as
    the claim says. *)
Theorem operator_key_divergence :
  let run := RunCalculatorLogic no_roundf no_printf no_printf no_printf in
  (calculator_error (globals (run [KEY_PLUS] power_on)) = false /\
   tokens (globals (run [KEY_PLUS] power_on)) = [("O"%char, float_of_char "+")]) /\
  (calculator_error (globals (run [KEY_PLUS; 5; KEY_EQUALS] power_on)) = true /\
   error_message (globals (run [KEY_PLUS; 5; KEY_EQUALS] power_on)) = Err_Syntax) /\
  (entering (run [5; KEY_MULTIPLY; KEY_DIVIDE] power_on) /\
   tokens (globals (run [5; KEY_MULTIPLY; KEY_DIVIDE] power_on))
   = [("N"%char, F32.of_Z 5); ("O"%char, float_of_char "*");
      ("O"%char, float_of_char "/")]) /\
  (calculator_error
     (globals (run [5; KEY_MULTIPLY; KEY_DIVIDE; 3; KEY_EQUALS] power_on)) = true /\
   error_message
     (globals (run [5; KEY_MULTIPLY; KEY_DIVIDE; 3; KEY_EQUALS] power_on))
   = Err_Syntax) /\
  (calculator_error (globals (run [KEY_MULTIPLY] power_on)) = true /\
   error_message (globals (run [KEY_MULTIPLY] power_on)) = Err_Syntax /\
   tokens (globals (run [KEY_MULTIPLY] power_on)) = []).
Proof.
  cbv zeta. unfold entering.
  repeat split; vm_compute; reflexivity.
Qed.
